(** * nofx copy trading: observers, provider factory and copy configuration

    A shallow embedding of the Go packages [copytrading] (signal providers
    for Hyperliquid and OKX leader wallets) and [trader] (the copy-trading
    configuration), with the properties of the position-diffing poll cycle.

    Modelling conventions.
    - A Go [float64] is an exact rational [Q]: comparisons and the
      arithmetic of the poll cycle (subtraction, negation, absolute value,
      one multiplication) are taken exactly.  NaN and the infinities are
      not among the rationals: the loops that compare positions are
      translated a second time in [IEEE], over floats that may be NaN or
      infinite.  Rounding is outside both.
    - A Go [map[string]T] is a [gmap string T]; reading a missing key
      yields the zero value.  The order in which [range] visits a map is
      not fixed by the language: it is supplied by the environment, as any
      permutation of the entries.
    - A Go [int64] / [int] that is only compared or copied is a [Z];
      [time.Duration] is a [Z] of nanoseconds, [time.Time] a [Z].
    - What a method obtains from outside the process (HTTP responses, the
      market-data cache, the wall clock) is read from a [World]; a send on
      the outbound channel appends to the list of emitted signals. *)

From Stdlib Require Import QArith Qabs Lqa ZArith Strings.String Strings.Ascii.
From stdpp Require Import gmap strings list fin_maps.

Open Scope Q_scope.

(** ** Numbers *)

(** Go's [x < y] on floats; [x <= y] is [Qle_bool] and [x == y] is
    [Qeq_bool]. *)
Definition Qlt_bool (x y : Q) : bool := negb (Qle_bool y x).

(** The whole part of a number: the fraction is dropped, towards zero. *)
Definition truncate (x : Q) : Z := (Qnum x ÷ Z.pos (Qden x))%Z.

(** Go's [int] has 32 or 64 bits, as the platform has it; [intLimit] is
    one more than the greatest [int]. *)
Inductive IntSize := Int32 | Int64.

Definition intLimit (n : IntSize) : Z :=
  match n with
  | Int32 => (2 ^ 31)%Z
  | Int64 => (2 ^ 63)%Z
  end.

Definition fitsInt (n : IntSize) (z : Z) : bool :=
  ((- intLimit n <=? z) && (z <? intLimit n))%Z.

(** Reading a Go map of floats: the zero value when the key is missing. *)
Definition at0 (m : gmap string Q) (k : string) : Q := default 0 (m !! k).

(** ** Strings (package [strings], on ASCII text) *)

Definition isSpace (c : ascii) : bool :=
  let n := nat_of_ascii c in
  ((9 <=? n) && (n <=? 13))%nat || (n =? 32)%nat.

Fixpoint trimLeft (s : string) : string :=
  match s with
  | EmptyString => EmptyString
  | String c s' => if isSpace c then trimLeft s' else s
  end.

Fixpoint trimRight (s : string) : string :=
  match s with
  | EmptyString => EmptyString
  | String c s' =>
      match trimRight s' with
      | EmptyString => if isSpace c then EmptyString else String c EmptyString
      | t => String c t
      end
  end.

Definition TrimSpace (s : string) : string := trimRight (trimLeft s).

Definition upperChar (c : ascii) : ascii :=
  let n := nat_of_ascii c in
  if ((97 <=? n) && (n <=? 122))%nat then ascii_of_nat (n - 32) else c.

Fixpoint mapString (f : ascii -> ascii) (s : string) : string :=
  match s with
  | EmptyString => EmptyString
  | String c s' => String (f c) (mapString f s')
  end.

Definition ToUpper : string -> string := mapString upperChar.

Definition lowerChar (c : ascii) : ascii :=
  let n := nat_of_ascii c in
  if ((65 <=? n) && (n <=? 90))%nat then ascii_of_nat (n + 32) else c.

Definition ToLower : string -> string := mapString lowerChar.

(** [strings.EqualFold] on ASCII text: equality up to the case of
    letters. *)
Definition EqualFold (s t : string) : bool :=
  String.eqb (ToLower s) (ToLower t).

Definition HasSuffix (s suffix : string) : bool :=
  (String.length suffix <=? String.length s)%nat
  && String.eqb
       (substring (String.length s - String.length suffix)
                  (String.length suffix) s)
       suffix.

(** [strings.ReplaceAll s old new] for a non-empty [old]: occurrences are
    replaced left to right without overlap.  [skip] counts the characters
    of a matched occurrence still to be dropped. *)
Fixpoint replaceFrom (old new : string) (skip : nat) (s : string) : string :=
  match s with
  | EmptyString => EmptyString
  | String c s' =>
      match skip with
      | S k => replaceFrom old new k s'
      | O =>
          if String.prefix old s
          then new ++ replaceFrom old new (String.length old - 1) s'
          else String c (replaceFrom old new 0 s')
      end
  end.

Definition ReplaceAll (s old new : string) : string :=
  match old with
  | EmptyString => s
  | _ => replaceFrom old new 0 s
  end.

(** ** Results of fallible calls *)

Inductive Result (A : Type) : Type :=
| Ok (a : A)
| Err (msg : string).
Arguments Ok {A} a.
Arguments Err {A} msg.

(** A Go [error]: [None] is [nil]. *)
Definition error : Type := option string.

(** ** Package [trader]: the copy-trading configuration *)

Record CopyTradingConfig := {
  FollowOpen : bool;
  FollowAdd : bool;
  FollowReduce : bool;
  FollowRatio : Q;
  MinAmount : Q;
  MaxAmount : Q;
  SyncLeverage : bool;
  SyncMarginMode : bool
}.

Definition DefaultCopyTradingConfig : CopyTradingConfig :=
  {| FollowOpen := true;
     FollowAdd := true;
     FollowReduce := true;
     FollowRatio := 100;
     MinAmount := 0;
     MaxAmount := 0;
     SyncLeverage := true;
     SyncMarginMode := true |}.

Definition with_FollowRatio (cfg : CopyTradingConfig) (x : Q) :=
  {| FollowOpen := FollowOpen cfg; FollowAdd := FollowAdd cfg;
     FollowReduce := FollowReduce cfg; FollowRatio := x;
     MinAmount := MinAmount cfg; MaxAmount := MaxAmount cfg;
     SyncLeverage := SyncLeverage cfg; SyncMarginMode := SyncMarginMode cfg |}.

Definition with_MaxAmount (cfg : CopyTradingConfig) (x : Q) :=
  {| FollowOpen := FollowOpen cfg; FollowAdd := FollowAdd cfg;
     FollowReduce := FollowReduce cfg; FollowRatio := FollowRatio cfg;
     MinAmount := MinAmount cfg; MaxAmount := x;
     SyncLeverage := SyncLeverage cfg; SyncMarginMode := SyncMarginMode cfg |}.

Definition with_MinAmount (cfg : CopyTradingConfig) (x : Q) :=
  {| FollowOpen := FollowOpen cfg; FollowAdd := FollowAdd cfg;
     FollowReduce := FollowReduce cfg; FollowRatio := FollowRatio cfg;
     MinAmount := x; MaxAmount := MaxAmount cfg;
     SyncLeverage := SyncLeverage cfg; SyncMarginMode := SyncMarginMode cfg |}.

Definition with_Follow (cfg : CopyTradingConfig) (o a r : bool) :=
  {| FollowOpen := o; FollowAdd := a; FollowReduce := r;
     FollowRatio := FollowRatio cfg;
     MinAmount := MinAmount cfg; MaxAmount := MaxAmount cfg;
     SyncLeverage := SyncLeverage cfg; SyncMarginMode := SyncMarginMode cfg |}.

Definition normalizeCopyTradingConfig (cfg : CopyTradingConfig)
  : CopyTradingConfig :=
  let defaultCfg := DefaultCopyTradingConfig in
  let cfg :=
    if Qle_bool (FollowRatio cfg) 0
    then with_FollowRatio cfg (FollowRatio defaultCfg) else cfg in
  let cfg :=
    if Qlt_bool (MaxAmount cfg) 0 then with_MaxAmount cfg 0 else cfg in
  let cfg :=
    if Qlt_bool (MinAmount cfg) 0 then with_MinAmount cfg 0 else cfg in
  if negb (FollowOpen cfg) && negb (FollowAdd cfg) && negb (FollowReduce cfg)
  then with_Follow cfg (FollowOpen defaultCfg) (FollowAdd defaultCfg)
                   (FollowReduce defaultCfg)
  else cfg.

(** [encoding/json] is not part of the repository.  [json.Unmarshal]
    first validates the whole input and touches the destination only when
    the text is well-formed JSON; decoding proper can still fail (a value
    of the wrong type) after some fields were written.  The validator and
    the decoder are taken as given. *)
Record Decoder := {
  json_Valid : string -> bool;
  json_decode : string -> CopyTradingConfig -> error * CopyTradingConfig
}.

Definition json_Unmarshal (j : Decoder) (data : string)
    (cfg : CopyTradingConfig) : error * CopyTradingConfig :=
  if json_Valid j data then json_decode j data cfg
  else (Some "invalid character"%string, cfg).

Definition ParseCopyTradingConfig (j : Decoder) (raw : string)
  : CopyTradingConfig :=
  let cfg := DefaultCopyTradingConfig in
  if String.eqb (TrimSpace raw) "" then cfg
  else
    match json_Unmarshal j raw cfg with
    | (Some _, cfg) => cfg
    | (None, cfg) => normalizeCopyTradingConfig cfg
    end.

(** ** Package [copytrading]: shared types *)

Inductive SignalAction :=
| ActionOpenLong
| ActionOpenShort
| ActionCloseLong
| ActionCloseShort
| ActionAddLong
| ActionAddShort
| ActionReduceLong
| ActionReduceShort.

(** The wire names of the actions; the empty string, which
    [deriveActionFromDelta] returns for "no action", is [None] below. *)
Definition action_name (a : SignalAction) : string :=
  match a with
  | ActionOpenLong => "open_long"
  | ActionOpenShort => "open_short"
  | ActionCloseLong => "close_long"
  | ActionCloseShort => "close_short"
  | ActionAddLong => "add_long"
  | ActionAddShort => "add_short"
  | ActionReduceLong => "reduce_long"
  | ActionReduceShort => "reduce_short"
  end.

Definition time_Time : Type := Z.

(** [Price] is the field the providers fill in next to [NotionalUSD]. *)
Record Signal := {
  Symbol : string;
  Action : SignalAction;
  NotionalUSD : Q;
  Price : Q;
  LeaderEquity : Q;
  LeaderLeverage : Z;
  MarginMode : string;
  Timestamp : time_Time;
  DeltaSize : Q;
  LeaderPosBefore : Q;
  LeaderPosAfter : Q
}.

Record Client := { Timeout : Z }.

Definition Second : Z := 1000000000.

Record Config := {
  Type_ : string;
  Identifier : string;
  PollInterval : Z;
  HTTPClient : option Client
}.

(** [hyperliquidPositionMeta] and [okxPositionMeta] have the same three
    fields. *)
Record PositionMeta := {
  Size : Q;
  Leverage : Z;
  PosMarginMode : string
}.

Record hyperliquidFill := {
  Coin : string;
  Dir : string;
  Px : string;
  Sz : string;
  Time : Z;
  TID : Z
}.

Record hyperliquidState := {
  AccountValue : Q;
  Positions : gmap string PositionMeta
}.

Record okxTradeRecord := {
  InstID : string;
  Side : string;
  PosSide : string;
  AvgPx : string;
  TradeSz : string;
  Value : string;
  FillTime : Z;
  OrdID : string;
  Lever : string
}.

Record MarketData := { CurrentPrice : Q }.

(** What one poll cycle reads from outside the process.  The venue
    endpoints are keyed by the leader's identifier; [time_Now n] is what
    [time.Now] returns the [n]-th time the cycle calls it to stamp a
    signal; the two [range_] fields give the order in which [range]
    visits a map. *)
Record World := {
  hl_userFills : string -> Result (list hyperliquidFill);
  hl_clearinghouseState : string -> Result hyperliquidState;
  okx_tradeRecords : string -> Result (list okxTradeRecord);
  okx_asset : string -> Result Q;
  okx_positionCurrent : string -> Result (gmap string PositionMeta);
  market_Get : string -> Result MarketData;
  time_Now : nat -> time_Time;
  strconv_ParseFloat : string -> Q;
  range_positions : gmap string PositionMeta -> list (string * PositionMeta);
  range_snapshot : gmap string Q -> list (string * Q);
  range_positions_perm : forall m, range_positions m ≡ₚ map_to_list m;
  range_snapshot_perm : forall m, range_snapshot m ≡ₚ map_to_list m
}.

Definition deriveActionFromDelta (prev curr : Q) : option SignalAction :=
  let delta := curr - prev in
  if Qeq_bool delta 0 then None
  else if Qlt_bool prev curr then
    if Qlt_bool 0 curr then Some ActionAddLong else Some ActionReduceShort
  else if Qlt_bool curr prev then
    if Qlt_bool curr 0 then Some ActionAddShort else Some ActionReduceLong
  else None.

Definition convertHyperliquidSymbol (coin : string) : string :=
  let coin := TrimSpace coin in
  if String.eqb coin "" then ""%string
  else
    let coin := ToUpper coin in
    if HasSuffix coin "USDT" then coin else (coin ++ "USDT")%string.

Definition formatOKXSymbol (instID : string) : string :=
  let instID := TrimSpace instID in
  if String.eqb instID "" then ""%string
  else
    let instID := ToUpper instID in
    let instID := ReplaceAll instID "-SWAP" "" in
    ReplaceAll instID "-" "".

(** [sort.Slice] with a [less] function, as an insertion sort.  Go's
    [sort.Slice] is not stable: elements that [less] does not separate
    come out in an order the library does not fix. *)
Fixpoint insertBy {A} (less : A -> A -> bool) (x : A) (l : list A) : list A :=
  match l with
  | [] => [x]
  | y :: l' => if less y x then y :: insertBy less x l' else x :: l
  end.

Definition sortSlice {A} (less : A -> A -> bool) (l : list A) : list A :=
  foldr (insertBy less) [] l.

(** ** The position diff shared by the two observers

    The bodies of [fetchAndEmit] in the Hyperliquid and OKX providers are the
    same from the "diff positions" comment on, up to two points: the
    Hyperliquid provider converts the position key with
    [convertHyperliquidSymbol] where OKX uses the key itself, and the close
    signal of the disappearance loop carries [Price] only in the Hyperliquid
    provider.  These are the parameters [currSymOf] and [sweepPrice]. *)

(** The part of a provider the diff reads and writes: [snap] is
    [p.lastPositions], [cache] is [p.lastPrices], [calls] counts the calls
    of [time.Now] made so far to stamp signals. *)
Record Ledger := {
  snap : gmap string Q;
  cache : gmap string Q;
  calls : nat
}.

Section Diff.
Variable w : World.
Variable currSymOf : string -> string.
Variable sweepPrice : Q -> Q.
Variable equity : Q.

(** [price := p.lastPrices[currSym]; if price <= 0 { market.Get ... }] *)
Definition resolvePrice (currSym : string) (c : gmap string Q)
  : Q * gmap string Q :=
  let price := at0 c currSym in
  if Qle_bool price 0 then
    match market_Get w currSym with
    | Ok md =>
        if Qlt_bool 0 (CurrentPrice md)
        then (CurrentPrice md, <[currSym := CurrentPrice md]> c)
        else (price, c)
    | Err _ => (price, c)
    end
  else (price, c).

(** One iteration of [for sym, meta := range positions]
    (hyperliquid_provider.go lines 116-216, OKX provider lines 117-214). *)
Definition diffStep (st : Ledger) (e : string * PositionMeta)
  : Ledger * list Signal :=
  let sym := e.1 in
  let meta := e.2 in
  let prev := at0 (snap st) sym in
  let delta := Size meta - prev in
  if Qeq_bool delta 0 then (st, [])
  else
    let currSym := currSymOf sym in
    let price := (resolvePrice currSym (cache st)).1 in
    let cache1 := (resolvePrice currSym (cache st)).2 in
    if Qle_bool price 0 then
      ({| snap := snap st; cache := cache1; calls := calls st |}, [])
    else if Qlt_bool 0 prev && Qlt_bool (Size meta) 0 then
      ({| snap := <[sym := Size meta]> (snap st); cache := cache1;
          calls := S (S (calls st)) |},
       [ {| Symbol := currSym; Action := ActionCloseLong;
            NotionalUSD := Qabs prev * price; Price := price;
            LeaderEquity := equity; LeaderLeverage := Leverage meta;
            MarginMode := PosMarginMode meta;
            Timestamp := time_Now w (calls st);
            DeltaSize := - prev; LeaderPosBefore := prev;
            LeaderPosAfter := 0 |};
         {| Symbol := currSym; Action := ActionOpenShort;
            NotionalUSD := Qabs (Size meta) * price; Price := price;
            LeaderEquity := equity; LeaderLeverage := Leverage meta;
            MarginMode := PosMarginMode meta;
            Timestamp := time_Now w (S (calls st));
            DeltaSize := Size meta; LeaderPosBefore := 0;
            LeaderPosAfter := Size meta |} ])
    else if Qlt_bool prev 0 && Qlt_bool 0 (Size meta) then
      ({| snap := <[sym := Size meta]> (snap st); cache := cache1;
          calls := S (S (calls st)) |},
       [ {| Symbol := currSym; Action := ActionCloseShort;
            NotionalUSD := Qabs prev * price; Price := price;
            LeaderEquity := equity; LeaderLeverage := Leverage meta;
            MarginMode := PosMarginMode meta;
            Timestamp := time_Now w (calls st);
            DeltaSize := - prev; LeaderPosBefore := prev;
            LeaderPosAfter := 0 |};
         {| Symbol := currSym; Action := ActionOpenLong;
            NotionalUSD := Qabs (Size meta) * price; Price := price;
            LeaderEquity := equity; LeaderLeverage := Leverage meta;
            MarginMode := PosMarginMode meta;
            Timestamp := time_Now w (S (calls st));
            DeltaSize := Size meta; LeaderPosBefore := 0;
            LeaderPosAfter := Size meta |} ])
    else
      match deriveActionFromDelta prev (Size meta) with
      | None =>
          ({| snap := <[sym := Size meta]> (snap st); cache := cache1;
              calls := calls st |}, [])
      | Some action =>
          ({| snap := <[sym := Size meta]> (snap st); cache := cache1;
              calls := S (calls st) |},
           [ {| Symbol := currSym; Action := action;
                NotionalUSD := Qabs delta * price; Price := price;
                LeaderEquity := equity; LeaderLeverage := Leverage meta;
                MarginMode := PosMarginMode meta;
                Timestamp := time_Now w (calls st);
                DeltaSize := delta; LeaderPosBefore := prev;
                LeaderPosAfter := Size meta |} ])
      end.

(** One iteration of [for sym, prev := range p.lastPositions], the loop
    over symbols that are no longer among the fetched positions
    (hyperliquid_provider.go lines 218-257, OKX provider lines 217-253). *)
Definition sweepStep (positions : gmap string PositionMeta)
    (st : Ledger) (e : string * Q) : Ledger * list Signal :=
  let sym := e.1 in
  let prev := e.2 in
  match positions !! sym with
  | Some _ => (st, [])
  | None =>
      if Qeq_bool prev 0 then
        ({| snap := delete sym (snap st); cache := cache st;
            calls := calls st |}, [])
      else
        let currSym := currSymOf sym in
        let price := (resolvePrice currSym (cache st)).1 in
        let cache1 := (resolvePrice currSym (cache st)).2 in
        if Qle_bool price 0 then
          ({| snap := delete sym (snap st); cache := cache1;
              calls := calls st |}, [])
        else
          let action :=
            if Qlt_bool prev 0 then ActionCloseShort else ActionCloseLong in
          ({| snap := delete sym (snap st); cache := cache1;
              calls := S (calls st) |},
           [ {| Symbol := currSym; Action := action;
                NotionalUSD := Qabs prev * price;
                Price := sweepPrice price;
                LeaderEquity := equity; LeaderLeverage := 0;
                MarginMode := "";
                Timestamp := time_Now w (calls st);
                DeltaSize := - prev; LeaderPosBefore := prev;
                LeaderPosAfter := 0 |} ])
  end.

(** A [for ... range] loop whose body may send signals: the state after
    the loop and the signals sent, in order. *)
Fixpoint runLoop {A} (step : Ledger -> A -> Ledger * list Signal)
    (st : Ledger) (l : list A) : Ledger * list Signal :=
  match l with
  | [] => (st, [])
  | x :: l' =>
      let r1 := step st x in
      let r2 := runLoop step r1.1 l' in
      (r2.1, r1.2 ++ r2.2)
  end.

(** The two loops one after the other; the second ranges over the
    snapshot as the first loop left it. *)
Definition diffPositions (positions : gmap string PositionMeta)
    (st : Ledger) : Ledger * list Signal :=
  let r1 := runLoop diffStep st (range_positions w positions) in
  let r2 := runLoop (sweepStep positions) r1.1
                    (range_snapshot w (snap r1.1)) in
  (r2.1, r1.2 ++ r2.2).

(** The first cycle: [for sym, meta := range positions
    { p.lastPositions[sym] = meta.Size }] (lines 108-114 of both). *)
Definition initSnapshot (positions : gmap string PositionMeta)
    (m : gmap string Q) : gmap string Q :=
  foldl (fun m e => <[e.1 := Size e.2]> m) m (range_positions w positions).
End Diff.

(** ** The loops that compare positions, over [float64] with its special
    values

    In the definitions above a [float64] is a rational.  Go's
    [strconv.ParseFloat] also returns NaN (for the text [NaN], with no
    error) and the infinities (for a numeral out of range, with an error
    that the providers drop), so a fetched size can be any of them.  The
    part of [fetchAndEmit] that compares positions (lines 108-257 of the
    Hyperliquid provider, 109-253 of the OKX provider) is translated a
    second time here, statement by statement, over floats that may be NaN
    or infinite.  Finite values are still taken exactly. *)

Module IEEE.

Inductive float64 :=
| Num (q : Q)
| PInf
| NInf
| NaN.

Definition zero : float64 := Num 0.

(** [-x] *)
Definition neg (x : float64) : float64 :=
  match x with
  | Num q => Num (- q)
  | PInf => NInf
  | NInf => PInf
  | NaN => NaN
  end.

(** [math.Abs(x)] *)
Definition abs (x : float64) : float64 :=
  match x with
  | Num q => Num (Qabs q)
  | PInf | NInf => PInf
  | NaN => NaN
  end.

(** [x - y] *)
Definition sub (x y : float64) : float64 :=
  match x, y with
  | NaN, _ | _, NaN => NaN
  | Num a, Num b => Num (a - b)
  | Num _, PInf => NInf
  | Num _, NInf => PInf
  | PInf, PInf => NaN
  | PInf, _ => PInf
  | NInf, NInf => NaN
  | NInf, _ => NInf
  end.

(** [x * y] *)
Definition mul (x y : float64) : float64 :=
  match x, y with
  | NaN, _ | _, NaN => NaN
  | Num a, Num b => Num (a * b)
  | Num a, PInf | PInf, Num a =>
      if Qeq_bool a 0 then NaN else if Qlt_bool 0 a then PInf else NInf
  | Num a, NInf | NInf, Num a =>
      if Qeq_bool a 0 then NaN else if Qlt_bool 0 a then NInf else PInf
  | PInf, PInf | NInf, NInf => PInf
  | PInf, NInf | NInf, PInf => NInf
  end.

(** [x < y], [x <= y] and [x == y]: false as soon as one side is NaN. *)
Definition ltb (x y : float64) : bool :=
  match x, y with
  | NaN, _ | _, NaN => false
  | Num a, Num b => Qlt_bool a b
  | _, NInf => false
  | PInf, _ => false
  | NInf, _ => true
  | Num _, PInf => true
  end.

Definition leb (x y : float64) : bool :=
  match x, y with
  | NaN, _ | _, NaN => false
  | Num a, Num b => Qle_bool a b
  | NInf, _ => true
  | _, PInf => true
  | _, _ => false
  end.

Definition eqb (x y : float64) : bool :=
  match x, y with
  | Num a, Num b => Qeq_bool a b
  | PInf, PInf => true
  | NInf, NInf => true
  | _, _ => false
  end.

Record Signal := {
  Symbol : string;
  Action : SignalAction;
  NotionalUSD : float64;
  Price : float64;
  LeaderEquity : float64;
  LeaderLeverage : Z;
  MarginMode : string;
  Timestamp : time_Time;
  DeltaSize : float64;
  LeaderPosBefore : float64;
  LeaderPosAfter : float64
}.

Record PositionMeta := {
  Size : float64;
  Leverage : Z;
  PosMarginMode : string
}.

(** [p.lastPositions], [p.lastPrices] and the count of the calls of
    [time.Now] made so far to stamp signals. *)
Record Ledger := {
  snap : gmap string float64;
  cache : gmap string float64;
  calls : nat
}.

(** The order in which [range] visits the two maps. *)
Record Ranging := {
  range_positions :
    gmap string PositionMeta -> list (string * PositionMeta);
  range_snapshot : gmap string float64 -> list (string * float64);
  range_positions_perm : forall m, range_positions m ≡ₚ map_to_list m;
  range_snapshot_perm : forall m, range_snapshot m ≡ₚ map_to_list m
}.

Definition at0 (m : gmap string float64) (k : string) : float64 :=
  default zero (m !! k).

Definition deriveActionFromDelta (prev curr : float64)
  : option SignalAction :=
  let delta := sub curr prev in
  if eqb delta zero then None
  else if ltb prev curr then
    if ltb zero curr then Some ActionAddLong else Some ActionReduceShort
  else if ltb curr prev then
    if ltb curr zero then Some ActionAddShort else Some ActionReduceLong
  else None.

Section Diff.
Variable w : World.
Variable r : Ranging.
Variable currSymOf : string -> string.
Variable sweepPrice : float64 -> float64.
Variable equity : float64.

(** [price := p.lastPrices[currSym]; if price <= 0 { market.Get ... }] *)
Definition resolvePrice (currSym : string) (c : gmap string float64)
  : float64 * gmap string float64 :=
  let price := at0 c currSym in
  if leb price zero then
    match market_Get w currSym with
    | Ok md =>
        if Qlt_bool 0 (CurrentPrice md)
        then (Num (CurrentPrice md),
              <[currSym := Num (CurrentPrice md)]> c)
        else (price, c)
    | Err _ => (price, c)
    end
  else (price, c).

(** One iteration of [for sym, meta := range positions]. *)
Definition diffStep (st : Ledger) (e : string * PositionMeta)
  : Ledger * list Signal :=
  let sym := e.1 in
  let meta := e.2 in
  let prev := at0 (snap st) sym in
  let delta := sub (Size meta) prev in
  if eqb delta zero then (st, [])
  else
    let currSym := currSymOf sym in
    let price := (resolvePrice currSym (cache st)).1 in
    let cache1 := (resolvePrice currSym (cache st)).2 in
    if leb price zero then
      ({| snap := snap st; cache := cache1; calls := calls st |}, [])
    else if ltb zero prev && ltb (Size meta) zero then
      ({| snap := <[sym := Size meta]> (snap st); cache := cache1;
          calls := S (S (calls st)) |},
       [ {| Symbol := currSym; Action := ActionCloseLong;
            NotionalUSD := mul (abs prev) price; Price := price;
            LeaderEquity := equity; LeaderLeverage := Leverage meta;
            MarginMode := PosMarginMode meta;
            Timestamp := time_Now w (calls st);
            DeltaSize := neg prev; LeaderPosBefore := prev;
            LeaderPosAfter := zero |};
         {| Symbol := currSym; Action := ActionOpenShort;
            NotionalUSD := mul (abs (Size meta)) price; Price := price;
            LeaderEquity := equity; LeaderLeverage := Leverage meta;
            MarginMode := PosMarginMode meta;
            Timestamp := time_Now w (S (calls st));
            DeltaSize := Size meta; LeaderPosBefore := zero;
            LeaderPosAfter := Size meta |} ])
    else if ltb prev zero && ltb zero (Size meta) then
      ({| snap := <[sym := Size meta]> (snap st); cache := cache1;
          calls := S (S (calls st)) |},
       [ {| Symbol := currSym; Action := ActionCloseShort;
            NotionalUSD := mul (abs prev) price; Price := price;
            LeaderEquity := equity; LeaderLeverage := Leverage meta;
            MarginMode := PosMarginMode meta;
            Timestamp := time_Now w (calls st);
            DeltaSize := neg prev; LeaderPosBefore := prev;
            LeaderPosAfter := zero |};
         {| Symbol := currSym; Action := ActionOpenLong;
            NotionalUSD := mul (abs (Size meta)) price; Price := price;
            LeaderEquity := equity; LeaderLeverage := Leverage meta;
            MarginMode := PosMarginMode meta;
            Timestamp := time_Now w (S (calls st));
            DeltaSize := Size meta; LeaderPosBefore := zero;
            LeaderPosAfter := Size meta |} ])
    else
      match deriveActionFromDelta prev (Size meta) with
      | None =>
          ({| snap := <[sym := Size meta]> (snap st); cache := cache1;
              calls := calls st |}, [])
      | Some action =>
          ({| snap := <[sym := Size meta]> (snap st); cache := cache1;
              calls := S (calls st) |},
           [ {| Symbol := currSym; Action := action;
                NotionalUSD := mul (abs delta) price; Price := price;
                LeaderEquity := equity; LeaderLeverage := Leverage meta;
                MarginMode := PosMarginMode meta;
                Timestamp := time_Now w (calls st);
                DeltaSize := delta; LeaderPosBefore := prev;
                LeaderPosAfter := Size meta |} ])
      end.

(** One iteration of [for sym, prev := range p.lastPositions]. *)
Definition sweepStep (positions : gmap string PositionMeta)
    (st : Ledger) (e : string * float64) : Ledger * list Signal :=
  let sym := e.1 in
  let prev := e.2 in
  match positions !! sym with
  | Some _ => (st, [])
  | None =>
      if eqb prev zero then
        ({| snap := delete sym (snap st); cache := cache st;
            calls := calls st |}, [])
      else
        let currSym := currSymOf sym in
        let price := (resolvePrice currSym (cache st)).1 in
        let cache1 := (resolvePrice currSym (cache st)).2 in
        if leb price zero then
          ({| snap := delete sym (snap st); cache := cache1;
              calls := calls st |}, [])
        else
          let action :=
            if ltb prev zero then ActionCloseShort
            else ActionCloseLong in
          ({| snap := delete sym (snap st); cache := cache1;
              calls := S (calls st) |},
           [ {| Symbol := currSym; Action := action;
                NotionalUSD := mul (abs prev) price;
                Price := sweepPrice price;
                LeaderEquity := equity; LeaderLeverage := 0;
                MarginMode := "";
                Timestamp := time_Now w (calls st);
                DeltaSize := neg prev; LeaderPosBefore := prev;
                LeaderPosAfter := zero |} ])
  end.

Fixpoint runLoop {A} (step : Ledger -> A -> Ledger * list Signal)
    (st : Ledger) (l : list A) : Ledger * list Signal :=
  match l with
  | [] => (st, [])
  | x :: l' =>
      let r1 := step st x in
      let r2 := runLoop step r1.1 l' in
      (r2.1, r1.2 ++ r2.2)
  end.

(** The two loops one after the other (an initialized provider). *)
Definition diffPositions (positions : gmap string PositionMeta)
    (st : Ledger) : Ledger * list Signal :=
  let r1 := runLoop diffStep st (range_positions r positions) in
  let r2 := runLoop (sweepStep positions) r1.1
                    (range_snapshot r (snap r1.1)) in
  (r2.1, r1.2 ++ r2.2).

(** The first cycle: [p.lastPositions[sym] = meta.Size] for every
    fetched position. *)
Definition initSnapshot (positions : gmap string PositionMeta)
    (m : gmap string float64) : gmap string float64 :=
  foldl (fun m e => <[e.1 := Size e.2]> m) m (range_positions r positions).
End Diff.

(** The sign of [delta_size] each action stands for, and the relation
    between the three sizes of a signal, with Go's comparisons. *)
Definition signAgrees (s : Signal) : Prop :=
  match Action s with
  | ActionAddLong | ActionReduceShort | ActionOpenLong | ActionCloseShort =>
      ltb zero (DeltaSize s) = true
  | ActionAddShort | ActionReduceLong | ActionOpenShort | ActionCloseLong =>
      ltb (DeltaSize s) zero = true
  end.

Definition consistent (s : Signal) : Prop :=
  eqb (sub (LeaderPosAfter s) (LeaderPosBefore s)) (DeltaSize s) = true
  /\ signAgrees s.

(** Maps are ranged over in the order [map_to_list] lists them. *)
Definition listed : Ranging :=
  {| range_positions := map_to_list;
     range_snapshot := map_to_list;
     range_positions_perm := fun m => reflexivity (map_to_list m);
     range_snapshot_perm := fun m => reflexivity (map_to_list m) |}.

End IEEE.

(** A rational size as a float, and the records of the rational model as
    those of [IEEE]. *)
Definition floatSignal (s : Signal) : IEEE.Signal :=
  {| IEEE.Symbol := Symbol s; IEEE.Action := Action s;
     IEEE.NotionalUSD := IEEE.Num (NotionalUSD s);
     IEEE.Price := IEEE.Num (Price s);
     IEEE.LeaderEquity := IEEE.Num (LeaderEquity s);
     IEEE.LeaderLeverage := LeaderLeverage s;
     IEEE.MarginMode := MarginMode s;
     IEEE.Timestamp := Timestamp s;
     IEEE.DeltaSize := IEEE.Num (DeltaSize s);
     IEEE.LeaderPosBefore := IEEE.Num (LeaderPosBefore s);
     IEEE.LeaderPosAfter := IEEE.Num (LeaderPosAfter s) |}.

Definition floatMeta (m : PositionMeta) : IEEE.PositionMeta :=
  {| IEEE.Size := IEEE.Num (Size m); IEEE.Leverage := Leverage m;
     IEEE.PosMarginMode := PosMarginMode m |}.

Definition floatLedger (st : Ledger) : IEEE.Ledger :=
  {| IEEE.snap := IEEE.Num <$> snap st;
     IEEE.cache := IEEE.Num <$> cache st;
     IEEE.calls := calls st |}.

(** ** Reading and converting floats

    [strconv.ParseFloat] with the values that are not numbers: [special]
    tells the texts Go reads as NaN or as an infinity (the text [NaN], the
    spellings of infinity, a numeral too large for a [float64]); every
    other text is read as the number [strconv_ParseFloat] gives. *)
Definition parseFloat64 (w : World) (special : string -> option IEEE.float64)
    (s : string) : IEEE.float64 :=
  match special s with
  | Some x => x
  | None => IEEE.Num (strconv_ParseFloat w s)
  end.

(** What Go leaves to the platform in the conversion [int(x)] of a float:
    the size of an [int], and the result for a float that is NaN or
    infinite or whose whole part does not fit an [int]. *)
Record Platform := {
  intSize : IntSize;
  outOfRange : IEEE.float64 -> Z
}.

(** [int(x)]: the fraction is dropped. *)
Definition intOfFloat (pf : Platform) (x : IEEE.float64) : Z :=
  match x with
  | IEEE.Num q =>
      if fitsInt (intSize pf) (truncate q) then truncate q
      else outOfRange pf x
  | _ => outOfRange pf x
  end.

(** ** The Hyperliquid provider *)

Module Hyperliquid.

Record provider := {
  user : string;
  pollInterval : Z;
  client : Client;
  lastTID : Z;
  initialized : bool;
  lastPositions : gmap string Q;
  lastPrices : gmap string Q
}.

Definition newHyperliquidProvider (user : string) (pollInterval : Z)
    (client : Client) : provider :=
  {| user := TrimSpace user; pollInterval := pollInterval;
     client := client; lastTID := 0; initialized := false;
     lastPositions := ∅; lastPrices := ∅ |}.

Definition with_lastTID (p : provider) (tid : Z) : provider :=
  {| user := user p; pollInterval := pollInterval p; client := client p;
     lastTID := tid; initialized := initialized p;
     lastPositions := lastPositions p; lastPrices := lastPrices p |}.

Definition with_lastPrices (p : provider) (m : gmap string Q) : provider :=
  {| user := user p; pollInterval := pollInterval p; client := client p;
     lastTID := lastTID p; initialized := initialized p;
     lastPositions := lastPositions p; lastPrices := m |}.

Definition with_snapshot (p : provider) (ini : bool)
    (pos prices : gmap string Q) : provider :=
  {| user := user p; pollInterval := pollInterval p; client := client p;
     lastTID := lastTID p; initialized := ini;
     lastPositions := pos; lastPrices := prices |}.

(** [hyperliquidFill.price]: the parse error is dropped. *)
Definition price (w : World) (f : hyperliquidFill) : Q :=
  strconv_ParseFloat w (Px f).

Definition less (a b : hyperliquidFill) : bool :=
  if (Time a =? Time b)%Z then (TID a <? TID b)%Z
  else (Time a <? Time b)%Z.

(** One iteration of [for _, fill := range fills]; the loop carries the
    provider and the local [maxTID]. *)
Definition ingestFill (w : World) (st : provider * Z)
    (fill : hyperliquidFill) : provider * Z :=
  let p := st.1 in
  let maxTID := st.2 in
  if (TID fill <=? lastTID p)%Z then st
  else
    let symbol := convertHyperliquidSymbol (Coin fill) in
    if String.eqb symbol "" then (with_lastTID p (TID fill), maxTID)
    else
      let px := price w fill in
      let p :=
        if Qlt_bool 0 px
        then with_lastPrices p (<[symbol := px]> (lastPrices p)) else p in
      (p, if (maxTID <? TID fill)%Z then TID fill else maxTID).

Definition ingestFills (w : World) (p : provider)
    (fills : list hyperliquidFill) : provider :=
  let st := foldl (ingestFill w) (p, lastTID p) (sortSlice less fills) in
  if (lastTID st.1 <? st.2)%Z then with_lastTID st.1 st.2 else st.1.

Definition fetchAndEmit (w : World) (p : provider)
  : error * provider * list Signal :=
  match hl_userFills w (user p) with
  | Err e => (Some e, p, [])
  | Ok fills =>
      match hl_clearinghouseState w (user p) with
      | Err e => (Some e, p, [])
      | Ok state =>
          if Qle_bool (AccountValue state) 0 then
            (Some "invalid Hyperliquid account value"%string, p, [])
          else
            let p := ingestFills w p fills in
            if negb (initialized p) then
              (None,
               with_snapshot p true
                 (initSnapshot w (Positions state) (lastPositions p))
                 (lastPrices p),
               [])
            else
              let r :=
                diffPositions w convertHyperliquidSymbol (fun x => x)
                  (AccountValue state) (Positions state)
                  {| snap := lastPositions p; cache := lastPrices p;
                     calls := 0 |} in
              (None,
               with_snapshot p true (snap r.1) (cache r.1),
               r.2)
      end
  end.

(** The decoded body of a [clearinghouseState] response.  The leverage
    value is a JSON number, so it is a finite float. *)
Record assetPosition := {
  Coin : string;
  Szi : string;
  LeverageType : string;
  LeverageValue : Q
}.

Record hyperliquidStateRaw := {
  MarginSummaryAccountValue : string;
  AssetPositions : list assetPosition
}.

(** One iteration of [for _, asset := range s.AssetPositions]. *)
Definition addAsset (w : World) (pf : Platform)
    (m : gmap string PositionMeta) (asset : assetPosition)
  : gmap string PositionMeta :=
  let coin := ToUpper (Coin asset) in
  let lev := intOfFloat pf (IEEE.Num (LeverageValue asset)) in
  let lev := if (lev <=? 0)%Z then 1%Z else lev in
  let size := strconv_ParseFloat w (Szi asset) in
  <[coin := {| PosMarginMode := LeverageType asset; Leverage := lev;
               Size := size |}]> m.

Definition normalize (w : World) (pf : Platform)
    (s : hyperliquidStateRaw) : hyperliquidState :=
  {| AccountValue := strconv_ParseFloat w (MarginSummaryAccountValue s);
     Positions := foldl (addAsset w pf) ∅ (AssetPositions s) |}.

(** [fetchState] from the point where the HTTP exchange and the JSON
    decoding are over: [resp] is their outcome. *)
Definition fetchState (w : World) (pf : Platform)
    (resp : Result hyperliquidStateRaw) : Result hyperliquidState :=
  match resp with
  | Err e => Err e
  | Ok result => Ok (normalize w pf result)
  end.

End Hyperliquid.

(** ** The OKX provider *)

Module OKX.

Record provider := {
  uniqueName : string;
  pollInterval : Z;
  client : Client;
  lastFillTime : Z;
  initialized : bool;
  lastPositions : gmap string Q;
  lastPrices : gmap string Q
}.

Definition newOKXProvider (uniqueName : string) (pollInterval : Z)
    (client : Client) : provider :=
  {| uniqueName := TrimSpace uniqueName; pollInterval := pollInterval;
     client := client; lastFillTime := 0; initialized := false;
     lastPositions := ∅; lastPrices := ∅ |}.

Definition with_lastFillTime (p : provider) (t : Z) : provider :=
  {| uniqueName := uniqueName p; pollInterval := pollInterval p;
     client := client p; lastFillTime := t; initialized := initialized p;
     lastPositions := lastPositions p; lastPrices := lastPrices p |}.

Definition with_lastPrices (p : provider) (m : gmap string Q) : provider :=
  {| uniqueName := uniqueName p; pollInterval := pollInterval p;
     client := client p; lastFillTime := lastFillTime p;
     initialized := initialized p;
     lastPositions := lastPositions p; lastPrices := m |}.

Definition with_snapshot (p : provider) (ini : bool)
    (pos prices : gmap string Q) : provider :=
  {| uniqueName := uniqueName p; pollInterval := pollInterval p;
     client := client p; lastFillTime := lastFillTime p;
     initialized := ini; lastPositions := pos; lastPrices := prices |}.

Definition less (a b : okxTradeRecord) : bool :=
  if (FillTime a =? FillTime b)%Z then String.ltb (OrdID a) (OrdID b)
  else (FillTime a <? FillTime b)%Z.

(** One iteration of [for _, trade := range trades]; the loop carries the
    provider and the local [maxFill]. *)
Definition ingestTrade (w : World) (st : provider * Z)
    (trade : okxTradeRecord) : provider * Z :=
  let p := st.1 in
  let maxFill := st.2 in
  if (FillTime trade <=? lastFillTime p)%Z then st
  else
    let symbol := formatOKXSymbol (InstID trade) in
    if String.eqb symbol "" then st
    else
      let avgPx := strconv_ParseFloat w (AvgPx trade) in
      let p :=
        if Qlt_bool 0 avgPx
        then with_lastPrices p (<[symbol := avgPx]> (lastPrices p)) else p in
      (p, if (maxFill <? FillTime trade)%Z then FillTime trade else maxFill).

Definition ingestTrades (w : World) (p : provider)
    (trades : list okxTradeRecord) : provider :=
  let st :=
    foldl (ingestTrade w) (p, lastFillTime p) (sortSlice less trades) in
  if (lastFillTime st.1 <? st.2)%Z then with_lastFillTime st.1 st.2
  else st.1.

Definition fetchAndEmit (w : World) (p : provider)
  : error * provider * list Signal :=
  match okx_tradeRecords w (uniqueName p) with
  | Err e => (Some e, p, [])
  | Ok trades =>
      match okx_asset w (uniqueName p) with
      | Err e => (Some e, p, [])
      | Ok accountValue =>
          if Qle_bool accountValue 0 then
            (Some "okx equity invalid"%string, p, [])
          else
            match okx_positionCurrent w (uniqueName p) with
            | Err e => (Some e, p, [])
            | Ok positions =>
                let p := ingestTrades w p trades in
                if negb (initialized p) then
                  (None,
                   with_snapshot p true
                     (initSnapshot w positions (lastPositions p))
                     (lastPrices p),
                   [])
                else
                  let r :=
                    diffPositions w (fun sym => sym) (fun _ => 0)
                      accountValue positions
                      {| snap := lastPositions p; cache := lastPrices p;
                         calls := 0 |} in
                  (None,
                   with_snapshot p true (snap r.1) (cache r.1),
                   r.2)
            end
      end
  end.

(** The decoded bodies of the [asset] and [position-current]
    responses. *)
Record okxAssetRow := {
  Currency : string;
  Amount : string
}.

Record okxPositionEntry := {
  InstID : string;
  MarginMode : string;
  PosSide : string;
  Pos : string;
  Lever : string
}.

Record okxPositionParent := {
  PosData : list okxPositionEntry
}.

(** [for _, asset := range result.Data] of [fetchEquity]: the first USDT
    row is returned. *)
Fixpoint equityOf (w : World) (rows : list okxAssetRow) : Result Q :=
  match rows with
  | [] => Err "okx equity not found"
  | asset :: rest =>
      if EqualFold (Currency asset) "USDT"
      then Ok (strconv_ParseFloat w (Amount asset))
      else equityOf w rest
  end.

(** [fetchEquity] from the point where the HTTP exchange and the JSON
    decoding are over: [resp] is their outcome, the [data] rows. *)
Definition fetchEquity (w : World) (resp : Result (list okxAssetRow))
  : Result Q :=
  match resp with
  | Err e => Err e
  | Ok rows => equityOf w rows
  end.

(** The [okxPositionMeta] built for one entry.  The leverage is read
    with the values that are not numbers, because the check
    [lever <= 0] lets NaN and plus infinity through to the conversion;
    the size is a number, as everywhere outside [IEEE]. *)
Definition positionOf (w : World)
    (special : string -> option IEEE.float64)
    (pf : Platform)
    (pos : okxPositionEntry) : PositionMeta :=
  let size := strconv_ParseFloat w (Pos pos) in
  let lever := parseFloat64 w special (Lever pos) in
  let lever := if IEEE.leb lever IEEE.zero then IEEE.Num 1 else lever in
  let size :=
    if String.eqb (ToLower (PosSide pos)) "short" then - size else size in
  {| Size := size; Leverage := intOfFloat pf lever;
     PosMarginMode := ToLower (MarginMode pos) |}.

(** One iteration of the inner loop of [fetchPositions]. *)
Definition addPosition (w : World)
    (special : string -> option IEEE.float64)
    (pf : Platform)
    (m : gmap string PositionMeta) (pos : okxPositionEntry)
  : gmap string PositionMeta :=
  let symbol := formatOKXSymbol (InstID pos) in
  if String.eqb symbol "" then m
  else <[symbol := positionOf w special pf pos]> m.

(** [fetchPositions] from the point where the HTTP exchange and the JSON
    decoding are over: [resp] is their outcome, the [data] entries. *)
Definition fetchPositions (w : World)
    (special : string -> option IEEE.float64)
    (pf : Platform)
    (resp : Result (list okxPositionParent))
  : Result (gmap string PositionMeta) :=
  match resp with
  | Err e => Err e
  | Ok data =>
      Ok (foldl (fun m entry =>
                   foldl (addPosition w special pf) m
                         (PosData entry))
                ∅ data)
  end.

End OKX.

(** ** The provider interface and its factory *)

Inductive Provider :=
| HyperliquidProvider (p : Hyperliquid.provider)
| OKXProvider (p : OKX.provider).

Definition NewProvider (cfg : Config) : Result Provider :=
  let httpClient :=
    match HTTPClient cfg with
    | None => {| Timeout := 10 * Second |}
    | Some c => c
    end in
  let interval :=
    if (PollInterval cfg <=? 0)%Z then (3 * Second)%Z else PollInterval cfg in
  if String.eqb (Type_ cfg) "hyperliquid_wallet"
     || String.eqb (Type_ cfg) "hyperliquid" then
    Ok (HyperliquidProvider
          (Hyperliquid.newHyperliquidProvider (Identifier cfg) interval
             httpClient))
  else if String.eqb (Type_ cfg) "okx_wallet"
          || String.eqb (Type_ cfg) "okx" then
    Ok (OKXProvider
          (OKX.newOKXProvider (Identifier cfg) interval httpClient))
  else Err "unsupported signal source type".

(** One poll cycle of whichever provider [P] is: the error returned, the
    provider afterwards and the signals sent on the channel, in order. *)
Definition fetchAndEmit (w : World) (P : Provider)
  : error * Provider * list Signal :=
  match P with
  | HyperliquidProvider p =>
      let r := Hyperliquid.fetchAndEmit w p in
      (r.1.1, HyperliquidProvider r.1.2, r.2)
  | OKXProvider p =>
      let r := OKX.fetchAndEmit w p in
      (r.1.1, OKXProvider r.1.2, r.2)
  end.

(** [Run]: the identifier check, then one poll after the other until the
    stop signal is seen.  A poll always precedes the first look at the stop
    channel, so at least one poll is made; [w0] is the world of that poll
    and [ticks] the worlds of the polls made before the stop.  The error of
    a poll is logged and dropped. *)
Definition runError (P : Provider) : string :=
  match P with
  | HyperliquidProvider _ => "hyperliquid provider requires wallet address"
  | OKXProvider _ => "okx provider requires uniqueName"
  end.

Fixpoint pollAll (ws : list World) (P : Provider) : Provider * list Signal :=
  match ws with
  | [] => (P, [])
  | w :: ws' =>
      let r := fetchAndEmit w P in
      let r' := pollAll ws' r.1.2 in
      (r'.1, r.2 ++ r'.2)
  end.

Definition Run (w0 : World) (ticks : list World) (P : Provider)
  : error * Provider * list Signal :=
  let ident :=
    match P with
    | HyperliquidProvider p => Hyperliquid.user p
    | OKXProvider p => OKX.uniqueName p
    end in
  if String.eqb ident "" then (Some (runError P), P, [])
  else
    let r := pollAll (w0 :: ticks) P in
    (None, r.1, r.2).

(** ** Vocabulary of the statements *)

(** The snapshot, the price cache and the flag of a provider, whichever
    venue it observes. *)
Definition snapshot (P : Provider) : gmap string Q :=
  match P with
  | HyperliquidProvider p => Hyperliquid.lastPositions p
  | OKXProvider p => OKX.lastPositions p
  end.

Definition priceCache (P : Provider) : gmap string Q :=
  match P with
  | HyperliquidProvider p => Hyperliquid.lastPrices p
  | OKXProvider p => OKX.lastPrices p
  end.

Definition isInitialized (P : Provider) : bool :=
  match P with
  | HyperliquidProvider p => Hyperliquid.initialized p
  | OKXProvider p => OKX.initialized p
  end.

(** The fill cursor: [lastTID] or [lastFillTime]. *)
Definition fillCursor (P : Provider) : Z :=
  match P with
  | HyperliquidProvider p => Hyperliquid.lastTID p
  | OKXProvider p => OKX.lastFillTime p
  end.

(** The symbol a signal carries for the position key [sym]. *)
Definition currSym (P : Provider) (sym : string) : string :=
  match P with
  | HyperliquidProvider _ => convertHyperliquidSymbol sym
  | OKXProvider _ => sym
  end.

(** The [Price] field of the close signal for a vanished position. *)
Definition closedPrice (P : Provider) (price : Q) : Q :=
  match P with
  | HyperliquidProvider _ => price
  | OKXProvider _ => 0
  end.

(** The fills (or trades) request of the cycle went through. *)
Definition fillsFetched (w : World) (P : Provider) : Prop :=
  match P with
  | HyperliquidProvider p =>
      exists fills, hl_userFills w (Hyperliquid.user p) = Ok fills
  | OKXProvider p =>
      exists trades, okx_tradeRecords w (OKX.uniqueName p) = Ok trades
  end.

(** The account equity the venue reports to [P]. *)
Definition fetchedEquity (w : World) (P : Provider) : Result Q :=
  match P with
  | HyperliquidProvider p =>
      match hl_clearinghouseState w (Hyperliquid.user p) with
      | Ok state => Ok (AccountValue state)
      | Err e => Err e
      end
  | OKXProvider p => okx_asset w (OKX.uniqueName p)
  end.

(** The open positions the venue reports to [P]. *)
Definition fetchedPositions (w : World) (P : Provider)
  : Result (gmap string PositionMeta) :=
  match P with
  | HyperliquidProvider p =>
      match hl_clearinghouseState w (Hyperliquid.user p) with
      | Ok state => Ok (Positions state)
      | Err e => Err e
      end
  | OKXProvider p => okx_positionCurrent w (OKX.uniqueName p)
  end.

(** The provider once the fills of the cycle are ingested (prices and
    cursor updated), before positions are compared. *)
Definition afterFills (w : World) (P : Provider) : Provider :=
  match P with
  | HyperliquidProvider p =>
      match hl_userFills w (Hyperliquid.user p) with
      | Ok fills => HyperliquidProvider (Hyperliquid.ingestFills w p fills)
      | Err _ => P
      end
  | OKXProvider p =>
      match okx_tradeRecords w (OKX.uniqueName p) with
      | Ok trades => OKXProvider (OKX.ingestTrades w p trades)
      | Err _ => P
      end
  end.

(** The price the cycle resolves for the position key [sym]: the cached
    fill price, else the market-data fallback; not positive when neither
    has one. *)
Definition priceFor (w : World) (P : Provider) (sym : string) : Q :=
  (resolvePrice w (currSym P sym) (priceCache (afterFills w P))).1.

(** [price] is the price a cycle finds for the position key [sym]: the
    price cached for its symbol when that is positive (the fills of this
    cycle included), and otherwise the price of the market-data fallback,
    when that answers with a positive one. *)
Inductive pricedAt (w : World) (P : Provider) (sym : string) (price : Q)
  : Prop :=
| priced_cached :
    at0 (priceCache (afterFills w P)) (currSym P sym) = price ->
    0 < price ->
    pricedAt w P sym price
| priced_fallback (md : MarketData) :
    at0 (priceCache (afterFills w P)) (currSym P sym) <= 0 ->
    market_Get w (currSym P sym) = Ok md ->
    CurrentPrice md = price ->
    0 < price ->
    pricedAt w P sym price.

(** Neither the cache nor the fallback has a positive price for [sym]. *)
Definition unpriced (w : World) (P : Provider) (sym : string) : Prop :=
  at0 (priceCache (afterFills w P)) (currSym P sym) <= 0
  /\ forall md, market_Get w (currSym P sym) = Ok md -> CurrentPrice md <= 0.

(** The error text of the equity check. *)
Definition equityError (P : Provider) : string :=
  match P with
  | HyperliquidProvider _ => "invalid Hyperliquid account value"
  | OKXProvider _ => "okx equity invalid"
  end.

(** The sign of [delta_size] each action stands for. *)
Definition signAgrees (s : Signal) : Prop :=
  match Action s with
  | ActionAddLong | ActionReduceShort | ActionOpenLong | ActionCloseShort =>
      0 < DeltaSize s
  | ActionAddShort | ActionReduceLong | ActionOpenShort | ActionCloseLong =>
      DeltaSize s < 0
  end.

Definition consistent (s : Signal) : Prop :=
  LeaderPosAfter s - LeaderPosBefore s == DeltaSize s /\ signAgrees s.

(** The cycle of [P] in world [w] gets past its fetches and the equity
    check on an initialized provider, and compares [positions] with the
    snapshot. *)
Definition reachesDiff (w : World) (P : Provider) (equity : Q)
    (positions : gmap string PositionMeta) : Prop :=
  fillsFetched w P
  /\ fetchedEquity w P = Ok equity
  /\ 0 < equity
  /\ fetchedPositions w P = Ok positions
  /\ isInitialized P = true.

(** No other position key at hand, fetched or in the snapshot, is sent
    under the symbol of [sym].  On OKX the symbol is the key; on Hyperliquid
    two spellings of a coin (with and without the USDT suffix) would
    share one. *)
Definition keysApart (P : Provider) (positions : gmap string PositionMeta)
    (sym : string) : Prop :=
  forall k, k ≠ sym ->
    is_Some (positions !! k) \/ is_Some (snapshot P !! k) ->
    currSym P k ≠ currSym P sym.

(** The signal [s] was sent for a position key other than [sym], one that
    was fetched or that the snapshot held. *)
Definition ofOtherKey (P : Provider) (positions : gmap string PositionMeta)
    (sym : string) (s : Signal) : Prop :=
  exists k, k ≠ sym
            /\ (is_Some (positions !! k) \/ is_Some (snapshot P !! k))
            /\ Symbol s = currSym P k.

Definition providerInterval (P : Provider) : Z :=
  match P with
  | HyperliquidProvider p => Hyperliquid.pollInterval p
  | OKXProvider p => OKX.pollInterval p
  end.

Definition providerClient (P : Provider) : Client :=
  match P with
  | HyperliquidProvider p => Hyperliquid.client p
  | OKXProvider p => OKX.client p
  end.

Definition providerIdentifier (P : Provider) : string :=
  match P with
  | HyperliquidProvider p => Hyperliquid.user p
  | OKXProvider p => OKX.uniqueName p
  end.

Definition supportedTypes : list string :=
  ["hyperliquid_wallet"; "hyperliquid"; "okx_wallet"; "okx"]%string.

(** The providers a program can hold: one made by the factory, polled
    any number of times. *)
Inductive reachable : Provider -> Prop :=
| reach_new (cfg : Config) (P : Provider) :
    NewProvider cfg = Ok P -> reachable P
| reach_poll (w : World) (P : Provider) :
    reachable P -> reachable (fetchAndEmit w P).1.2.

(** A configuration as the sizing code expects it: a positive ratio,
    amounts that are not negative, and something to follow. *)
Definition wellFormedConfig (cfg : CopyTradingConfig) : Prop :=
  0 < FollowRatio cfg /\ 0 <= MinAmount cfg /\ 0 <= MaxAmount cfg
  /\ (FollowOpen cfg || FollowAdd cfg || FollowReduce cfg = true).

(** The close that an open follows in a flip. *)
Definition closeBefore (a : SignalAction) : option SignalAction :=
  match a with
  | ActionOpenLong => Some ActionCloseShort
  | ActionOpenShort => Some ActionCloseLong
  | _ => None
  end.

(** In a list of signals, every open stands right after the close of the
    other direction on the same symbol, which brought the position to
    zero. *)
Definition flipPaired (l : list Signal) : Prop :=
  forall i s c,
    l !! i = Some s -> closeBefore (Action s) = Some c ->
    exists j s',
      i = S j /\ l !! j = Some s' /\ Action s' = c
      /\ Symbol s' = Symbol s /\ LeaderPosAfter s' = 0
      /\ LeaderPosBefore s = 0.

(** Text made of ASCII characters only. *)
Fixpoint isASCII (s : string) : bool :=
  match s with
  | EmptyString => true
  | String c s' => (nat_of_ascii c <? 128)%nat && isASCII s'
  end.

(** The character [-]. *)
Definition hyphen : ascii := "-"%char.

Fixpoint contains (c : ascii) (s : string) : bool :=
  match s with
  | EmptyString => false
  | String c' s' => Ascii.eqb c c' || contains c s'
  end.

(** ** Scenarios

    Concrete worlds and leaders on which the statements below are
    exercised. *)

(** A world in which the venue reports [equity] and [positions] to any
    leader, there are no new fills, the market-data cache knows the prices
    in [market] and nothing else, the [n]-th clock reading is [n], and
    maps are ranged over in the order [map_to_list] lists them. *)
Definition quietWorld (equity : Q) (positions : gmap string PositionMeta)
    (market : gmap string Q) : World :=
  {| hl_userFills := fun _ => Ok [];
     hl_clearinghouseState :=
       fun _ => Ok {| AccountValue := equity; Positions := positions |};
     okx_tradeRecords := fun _ => Ok [];
     okx_asset := fun _ => Ok equity;
     okx_positionCurrent := fun _ => Ok positions;
     market_Get :=
       fun sym =>
         match market !! sym with
         | Some px => Ok {| CurrentPrice := px |}
         | None => Err "no market data"
         end;
     time_Now := Z.of_nat;
     strconv_ParseFloat := fun _ => 0;
     range_positions := map_to_list;
     range_snapshot := map_to_list;
     range_positions_perm := fun m => reflexivity (map_to_list m);
     range_snapshot_perm := fun m => reflexivity (map_to_list m) |}.

(** A world like [quietWorld] in which the fills and trades requests
    return [fills] and [trades], and [strconv.ParseFloat] reads the
    numerals listed in [numerals]; any other text gives 0, as when the
    parse error is dropped. *)
Definition tapeWorld (fills : list hyperliquidFill)
    (trades : list okxTradeRecord) (numerals : gmap string Q)
    (equity : Q) (positions : gmap string PositionMeta)
    (market : gmap string Q) : World :=
  {| hl_userFills := fun _ => Ok fills;
     hl_clearinghouseState :=
       fun _ => Ok {| AccountValue := equity; Positions := positions |};
     okx_tradeRecords := fun _ => Ok trades;
     okx_asset := fun _ => Ok equity;
     okx_positionCurrent := fun _ => Ok positions;
     market_Get :=
       fun sym =>
         match market !! sym with
         | Some px => Ok {| CurrentPrice := px |}
         | None => Err "no market data"
         end;
     time_Now := Z.of_nat;
     strconv_ParseFloat := fun s => default 0 (numerals !! s);
     range_positions := map_to_list;
     range_snapshot := map_to_list;
     range_positions_perm := fun m => reflexivity (map_to_list m);
     range_snapshot_perm := fun m => reflexivity (map_to_list m) |}.

(** A world in which no request goes through. *)
Definition downWorld : World :=
  {| hl_userFills := fun _ => Err "connection refused";
     hl_clearinghouseState := fun _ => Err "connection refused";
     okx_tradeRecords := fun _ => Err "connection refused";
     okx_asset := fun _ => Err "connection refused";
     okx_positionCurrent := fun _ => Err "connection refused";
     market_Get := fun _ => Err "no market data";
     time_Now := Z.of_nat;
     strconv_ParseFloat := fun _ => 0;
     range_positions := map_to_list;
     range_snapshot := map_to_list;
     range_positions_perm := fun m => reflexivity (map_to_list m);
     range_snapshot_perm := fun m => reflexivity (map_to_list m) |}.

(** A Hyperliquid fill and an OKX trade record of which only the coin (or
    instrument), the price and the cursor field matter. *)
Definition fillOf (coin px : string) (tid : Z) : hyperliquidFill :=
  {| Coin := coin; Dir := "Open Long"; Px := px; Sz := "1";
     Time := tid; TID := tid |}.

Definition tradeOf (instID avgPx : string) (fillTime : Z) : okxTradeRecord :=
  {| InstID := instID; Side := "buy"; PosSide := "long"; AvgPx := avgPx;
     TradeSz := "1"; Value := ""; FillTime := fillTime; OrdID := "1";
     Lever := "10" |}.

(** A platform with 64-bit [int]s on which a float that does not fit
    converts to the least [int], as on amd64. *)
Definition amd64 : Platform :=
  {| intSize := Int64; outOfRange := fun _ => (- 2 ^ 63)%Z |}.

(** The text [NaN] is read as NaN, any other text as a number. *)
Definition nanText (s : string) : option IEEE.float64 :=
  if String.eqb s "NaN" then Some IEEE.NaN else None.

Definition defaultClient : Client := {| Timeout := 10 * Second |}.

(** An OKX leader seen holding [pos], with last fill prices [prices]. *)
Definition okxLeader (pos prices : gmap string Q) : Provider :=
  OKXProvider
    {| OKX.uniqueName := "leader"; OKX.pollInterval := 3 * Second;
       OKX.client := defaultClient; OKX.lastFillTime := 0;
       OKX.initialized := true;
       OKX.lastPositions := pos; OKX.lastPrices := prices |}.

(** The same on Hyperliquid. *)
Definition hlLeader (pos prices : gmap string Q) : Provider :=
  HyperliquidProvider
    {| Hyperliquid.user := "0xleader"; Hyperliquid.pollInterval := 3 * Second;
       Hyperliquid.client := defaultClient; Hyperliquid.lastTID := 0;
       Hyperliquid.initialized := true;
       Hyperliquid.lastPositions := pos; Hyperliquid.lastPrices := prices |}.

Definition cross (size : Q) (lev : Z) : PositionMeta :=
  {| Size := size; Leverage := lev; PosMarginMode := "cross" |}.

(** A decoder that stands for [encoding/json] where only the first
    character matters: a text is taken as JSON when it opens an object. *)
Definition bracesDecoder : Decoder :=
  {| json_Valid := fun s => String.prefix "{" (TrimSpace s);
     json_decode := fun _ cfg => (None, cfg) |}.

(** * Properties *)

(** ** The helpers on small inputs *)

Example convertHyperliquidSymbol_coin :
  convertHyperliquidSymbol " btc " = "BTCUSDT"%string.
Proof. reflexivity. Qed.

Example convertHyperliquidSymbol_suffixed :
  convertHyperliquidSymbol "ethUSDT" = "ETHUSDT"%string.
Proof. reflexivity. Qed.

Example convertHyperliquidSymbol_blank :
  convertHyperliquidSymbol "  " = ""%string.
Proof. reflexivity. Qed.

Example formatOKXSymbol_swap :
  formatOKXSymbol " btc-usdt-swap" = "BTCUSDT"%string.
Proof. reflexivity. Qed.

Example sortSlice_fills :
  TID <$> sortSlice Hyperliquid.less
            [ {| Coin := "BTC"; Dir := ""; Px := "1"; Sz := "1";
                 Time := 20; TID := 7 |};
              {| Coin := "ETH"; Dir := ""; Px := "1"; Sz := "1";
                 Time := 10; TID := 9 |};
              {| Coin := "SOL"; Dir := ""; Px := "1"; Sz := "1";
                 Time := 20; TID := 3 |} ]
  = [9; 3; 7]%Z.
Proof. reflexivity. Qed.

Example deriveActionFromDelta_from_flat :
  deriveActionFromDelta 0 (- 2) = Some ActionAddShort
  /\ deriveActionFromDelta 0 (5 # 10) = Some ActionAddLong
  /\ deriveActionFromDelta (- 2) 0 = Some ActionReduceShort
  /\ deriveActionFromDelta (8 # 10) (3 # 10) = Some ActionReduceLong
  /\ deriveActionFromDelta (1 # 2) (2 # 4) = None.
Proof. repeat split. Qed.

(** ** Comparisons on rationals *)

Lemma Qlt_bool_iff (x y : Q) : Qlt_bool x y = true <-> x < y.
Proof.
  unfold Qlt_bool. rewrite negb_true_iff, <- not_true_iff_false, Qle_bool_iff.
  split; [apply Qnot_le_lt | apply Qlt_not_le].
Qed.

Lemma Qlt_bool_false (x y : Q) : Qlt_bool x y = false <-> y <= x.
Proof.
  unfold Qlt_bool. rewrite negb_false_iff. apply Qle_bool_iff.
Qed.

Lemma Qle_bool_false (x y : Q) : Qle_bool x y = false <-> y < x.
Proof.
  rewrite <- not_true_iff_false, Qle_bool_iff.
  split; [apply Qnot_le_lt | apply Qlt_not_le].
Qed.

Lemma Qeq_bool_false (x y : Q) : Qeq_bool x y = false <-> ~ x == y.
Proof.
  rewrite <- not_true_iff_false, Qeq_bool_iff. reflexivity.
Qed.

(** Turns the boolean tests met in the hypotheses into statements on [Q]. *)
Ltac qprop :=
  repeat match goal with
    | H : Qlt_bool _ _ = true |- _ => apply Qlt_bool_iff in H
    | H : Qlt_bool _ _ = false |- _ => apply Qlt_bool_false in H
    | H : Qle_bool _ _ = true |- _ => apply Qle_bool_iff in H
    | H : Qle_bool _ _ = false |- _ => apply Qle_bool_false in H
    | H : Qeq_bool _ _ = true |- _ => apply Qeq_bool_iff in H
    | H : Qeq_bool _ _ = false |- _ => apply Qeq_bool_false in H
    | H : _ && _ = true |- _ => apply andb_true_iff in H; destruct H
    end.

(** ** The action derived from a change of size *)

Lemma deriveActionFromDelta_cases (prev curr : Q) :
  (curr == prev /\ deriveActionFromDelta prev curr = None)
  \/ (prev < curr /\ 0 < curr
      /\ deriveActionFromDelta prev curr = Some ActionAddLong)
  \/ (prev < curr /\ curr <= 0
      /\ deriveActionFromDelta prev curr = Some ActionReduceShort)
  \/ (curr < prev /\ curr < 0
      /\ deriveActionFromDelta prev curr = Some ActionAddShort)
  \/ (curr < prev /\ 0 <= curr
      /\ deriveActionFromDelta prev curr = Some ActionReduceLong).
Proof.
  unfold deriveActionFromDelta.
  destruct (Qeq_bool (curr - prev) 0) eqn:E0.
  { left. qprop. split; [lra | reflexivity]. }
  right.
  destruct (Qlt_bool prev curr) eqn:E1.
  { destruct (Qlt_bool 0 curr) eqn:E2; qprop; [left | right; left]; auto. }
  destruct (Qlt_bool curr prev) eqn:E3.
  { destruct (Qlt_bool curr 0) eqn:E4; qprop;
      right; right; [left | right]; auto. }
  qprop. exfalso. apply E0. lra.
Qed.

(** ** One iteration of the loops *)

Section StepFacts.
Variable w : World.
Variable conv : string -> string.
Variable sp : Q -> Q.
Variable equity : Q.

#[local] Set Default Proof Using "Type".

Abbreviation diff := (diffStep w conv equity).
Abbreviation sweep := (sweepStep w conv sp equity).
Abbreviation price_in c k := (resolvePrice w k c).1.

Lemma at0_insert (c : gmap string Q) (k k' : string) (x : Q) :
  at0 (<[k := x]> c) k' = if decide (k = k') then x else at0 c k'.
Proof. unfold at0. rewrite lookup_insert. by case_decide. Qed.

Lemma resolvePrice_fst (k : string) (c : gmap string Q) :
  price_in c k =
  if Qle_bool (at0 c k) 0 then
    match market_Get w k with
    | Ok md =>
        if Qlt_bool 0 (CurrentPrice md) then CurrentPrice md else at0 c k
    | Err _ => at0 c k
    end
  else at0 c k.
Proof.
  unfold resolvePrice.
  destruct (Qle_bool (at0 c k) 0); [| reflexivity].
  destruct (market_Get w k) as [md |]; [| reflexivity].
  by destruct (Qlt_bool 0 (CurrentPrice md)).
Qed.

(** A price, once resolved, is what every later lookup of the cycle
    resolves too: the cache is only ever filled where it had nothing, with
    the fallback's answer. *)
Lemma resolvePrice_stable (k k' : string) (c : gmap string Q) :
  price_in (resolvePrice w k c).2 k' = price_in c k'.
Proof.
  unfold resolvePrice at 2.
  destruct (Qle_bool (at0 c k) 0) eqn:Hc; [| reflexivity].
  destruct (market_Get w k) as [md |] eqn:Hm; [| reflexivity].
  destruct (Qlt_bool 0 (CurrentPrice md)) eqn:Hp; [| reflexivity].
  cbn [snd]. rewrite !resolvePrice_fst, at0_insert.
  destruct (decide (k = k')) as [<- | Hne]; [| reflexivity].
  rewrite Hc, Hm, Hp.
  destruct (Qle_bool (CurrentPrice md) 0) eqn:Hq; [| reflexivity].
  qprop. lra.
Qed.

Lemma resolvePrice_nonpos (k : string) (c : gmap string Q) :
  at0 c k <= 0 ->
  (forall md, market_Get w k = Ok md -> CurrentPrice md <= 0) ->
  price_in c k <= 0.
Proof.
  intros Hc Hm. unfold resolvePrice.
  destruct (Qle_bool (at0 c k) 0) eqn:E; [| qprop; lra].
  destruct (market_Get w k) as [md |] eqn:Em; [| exact Hc].
  destruct (Qlt_bool 0 (CurrentPrice md)) eqn:Ep; [| exact Hc].
  qprop. specialize (Hm md eq_refl). lra.
Qed.

Ltac step_cases :=
  repeat match goal with
    | |- context [Qeq_bool ?a ?b] => destruct (Qeq_bool a b) eqn:?
    | |- context [Qle_bool ?a ?b] => destruct (Qle_bool a b) eqn:?
    | |- context [Qlt_bool ?a ?b && Qlt_bool ?c ?d] =>
        destruct (Qlt_bool a b && Qlt_bool c d) eqn:?
    | |- context [deriveActionFromDelta ?a ?b] =>
        destruct (deriveActionFromDelta a b) eqn:?
    | |- context [Qlt_bool ?a ?b] => destruct (Qlt_bool a b) eqn:?
    end; cbn [fst snd snap cache calls].

Lemma diffStep_price st e k :
  price_in (cache (diff st e).1) k = price_in (cache st) k.
Proof.
  unfold diffStep.
  destruct (Qeq_bool (Size e.2 - at0 (snap st) e.1) 0); [reflexivity |].
  set (r := resolvePrice w (conv e.1) (cache st)).
  assert (Hr : price_in r.2 k = price_in (cache st) k)
    by apply resolvePrice_stable.
  step_cases; exact Hr.
Qed.

Lemma diffStep_snap st e k :
  k ≠ e.1 -> snap (diff st e).1 !! k = snap st !! k.
Proof.
  intros Hk. unfold diffStep.
  destruct (Qeq_bool (Size e.2 - at0 (snap st) e.1) 0); [reflexivity |].
  set (r := resolvePrice w (conv e.1) (cache st)).
  step_cases; try reflexivity; by rewrite lookup_insert_ne.
Qed.

Lemma diffStep_symbol st e :
  Forall (fun s => Symbol s = conv e.1) (diff st e).2.
Proof.
  unfold diffStep.
  destruct (Qeq_bool (Size e.2 - at0 (snap st) e.1) 0); [constructor |].
  set (r := resolvePrice w (conv e.1) (cache st)).
  step_cases; repeat constructor.
Qed.

Lemma diffStep_calls st e :
  calls (diff st e).1 = (calls st + length (diff st e).2)%nat.
Proof.
  unfold diffStep.
  destruct (Qeq_bool (Size e.2 - at0 (snap st) e.1) 0);
    [cbn; lia |].
  set (r := resolvePrice w (conv e.1) (cache st)).
  step_cases; cbn [length]; lia.
Qed.

Lemma diffStep_consistent st e : Forall consistent (diff st e).2.
Proof.
  unfold diffStep.
  destruct (Qeq_bool (Size e.2 - at0 (snap st) e.1) 0) eqn:Hd;
    [constructor |].
  set (r := resolvePrice w (conv e.1) (cache st)).
  set (prev := at0 (snap st) e.1) in *.
  destruct (Qle_bool r.1 0); [constructor |].
  destruct (Qlt_bool 0 prev && Qlt_bool (Size e.2) 0) eqn:F1.
  { qprop. repeat constructor; cbn; lra. }
  destruct (Qlt_bool prev 0 && Qlt_bool 0 (Size e.2)) eqn:F2.
  { qprop. repeat constructor; cbn; lra. }
  destruct (deriveActionFromDelta_cases prev (Size e.2))
    as [[_ ->] | [(? & ? & ->) | [(? & ? & ->) | [(? & ? & ->) | (? & ? & ->)]]]];
    repeat constructor; cbn; lra.
Qed.

Lemma diffStep_same st e :
  Size e.2 == at0 (snap st) e.1 -> diff st e = (st, []).
Proof.
  intros H. unfold diffStep.
  destruct (Qeq_bool (Size e.2 - at0 (snap st) e.1) 0) eqn:E;
    [reflexivity |].
  qprop. exfalso. apply E. lra.
Qed.

Lemma diffStep_noprice st e :
  price_in (cache st) (conv e.1) <= 0 ->
  (diff st e).2 = [] /\ snap (diff st e).1 = snap st.
Proof.
  intros H. unfold diffStep.
  destruct (Qeq_bool (Size e.2 - at0 (snap st) e.1) 0); [done |].
  destruct (Qle_bool (resolvePrice w (conv e.1) (cache st)).1 0) eqn:E;
    [done |].
  qprop. lra.
Qed.

Lemma diffStep_flip st e :
  let prev := at0 (snap st) e.1 in
  let price := price_in (cache st) (conv e.1) in
  (0 < prev /\ Size e.2 < 0) \/ (prev < 0 /\ 0 < Size e.2) ->
  0 < price ->
  (diff st e).2 =
    [ {| Symbol := conv e.1;
         Action := if Qlt_bool 0 prev then ActionCloseLong
                   else ActionCloseShort;
         NotionalUSD := Qabs prev * price; Price := price;
         LeaderEquity := equity; LeaderLeverage := Leverage e.2;
         MarginMode := PosMarginMode e.2;
         Timestamp := time_Now w (calls st);
         DeltaSize := - prev; LeaderPosBefore := prev;
         LeaderPosAfter := 0 |};
      {| Symbol := conv e.1;
         Action := if Qlt_bool 0 prev then ActionOpenShort
                   else ActionOpenLong;
         NotionalUSD := Qabs (Size e.2) * price; Price := price;
         LeaderEquity := equity; LeaderLeverage := Leverage e.2;
         MarginMode := PosMarginMode e.2;
         Timestamp := time_Now w (S (calls st));
         DeltaSize := Size e.2; LeaderPosBefore := 0;
         LeaderPosAfter := Size e.2 |} ]
  /\ snap (diff st e).1 = <[e.1 := Size e.2]> (snap st).
Proof.
  intros prev price Hflip Hprice. unfold diffStep.
  fold prev. fold price.
  destruct (Qeq_bool (Size e.2 - prev) 0) eqn:Hd.
  { qprop. lra. }
  destruct (Qle_bool price 0) eqn:Hp.
  { qprop. lra. }
  destruct (Qlt_bool 0 prev) eqn:H1; cbn [andb].
  - destruct (Qlt_bool (Size e.2) 0) eqn:H2; [done |]. qprop. lra.
  - destruct (Qlt_bool prev 0) eqn:H3; cbn [andb]; [| qprop; lra].
    destruct (Qlt_bool 0 (Size e.2)) eqn:H4; [done |]. qprop. lra.
Qed.

Lemma diffStep_change st e :
  let prev := at0 (snap st) e.1 in
  let price := price_in (cache st) (conv e.1) in
  ~ (0 < prev /\ Size e.2 < 0) -> ~ (prev < 0 /\ 0 < Size e.2) ->
  ~ Size e.2 == prev ->
  0 < price ->
  exists action,
    deriveActionFromDelta prev (Size e.2) = Some action
    /\ (diff st e).2 =
         [ {| Symbol := conv e.1; Action := action;
              NotionalUSD := Qabs (Size e.2 - prev) * price;
              Price := price;
              LeaderEquity := equity; LeaderLeverage := Leverage e.2;
              MarginMode := PosMarginMode e.2;
              Timestamp := time_Now w (calls st);
              DeltaSize := Size e.2 - prev; LeaderPosBefore := prev;
              LeaderPosAfter := Size e.2 |} ]
    /\ snap (diff st e).1 = <[e.1 := Size e.2]> (snap st).
Proof.
  intros prev price Hn1 Hn2 Hne Hprice. unfold diffStep.
  fold prev. fold price.
  destruct (Qeq_bool (Size e.2 - prev) 0) eqn:Hd.
  { qprop. exfalso. apply Hne. lra. }
  destruct (Qle_bool price 0) eqn:Hp.
  { qprop. lra. }
  destruct (Qlt_bool 0 prev && Qlt_bool (Size e.2) 0) eqn:F1.
  { qprop. exfalso. apply Hn1. by split. }
  destruct (Qlt_bool prev 0 && Qlt_bool 0 (Size e.2)) eqn:F2.
  { qprop. exfalso. apply Hn2. by split. }
  destruct (deriveActionFromDelta_cases prev (Size e.2))
    as [[He _] | Hc]; [contradiction |].
  destruct (deriveActionFromDelta prev (Size e.2)) as [a |] eqn:Ha.
  - by exists a.
  - exfalso. destruct Hc as [H | [H | [H | H]]];
      destruct H as (_ & _ & H); discriminate.
Qed.

(** The disappearance loop. *)

Lemma sweepStep_price pos st e k :
  price_in (cache (sweep pos st e).1) k = price_in (cache st) k.
Proof.
  unfold sweepStep. destruct (pos !! e.1); [reflexivity |].
  destruct (Qeq_bool e.2 0); [reflexivity |].
  set (r := resolvePrice w (conv e.1) (cache st)).
  assert (Hr : price_in r.2 k = price_in (cache st) k)
    by apply resolvePrice_stable.
  step_cases; exact Hr.
Qed.

Lemma sweepStep_snap pos st e :
  snap (sweep pos st e).1 =
  match pos !! e.1 with
  | Some _ => snap st
  | None => delete e.1 (snap st)
  end.
Proof.
  unfold sweepStep. destruct (pos !! e.1); [reflexivity |].
  destruct (Qeq_bool e.2 0); [reflexivity |].
  step_cases; reflexivity.
Qed.

Lemma sweepStep_symbol pos st e :
  Forall (fun s => Symbol s = conv e.1 /\ pos !! e.1 = None)
         (sweep pos st e).2.
Proof.
  unfold sweepStep. destruct (pos !! e.1); [constructor |].
  destruct (Qeq_bool e.2 0); [constructor |].
  step_cases; repeat constructor.
Qed.

Lemma sweepStep_calls pos st e :
  calls (sweep pos st e).1 = (calls st + length (sweep pos st e).2)%nat.
Proof.
  unfold sweepStep. destruct (pos !! e.1); [cbn; lia |].
  destruct (Qeq_bool e.2 0); [cbn; lia |].
  step_cases; cbn [length]; lia.
Qed.

Lemma sweepStep_consistent pos st e :
  Forall consistent (sweep pos st e).2.
Proof.
  unfold sweepStep. destruct (pos !! e.1); [constructor |].
  destruct (Qeq_bool e.2 0) eqn:H0; [constructor |].
  destruct (Qle_bool (resolvePrice w (conv e.1) (cache st)).1 0);
    [constructor |].
  destruct (Qlt_bool e.2 0) eqn:H1; qprop;
    repeat constructor; cbn; lra.
Qed.

Lemma sweepStep_present pos st e :
  is_Some (pos !! e.1) -> sweep pos st e = (st, []).
Proof. intros [meta H]. unfold sweepStep. by rewrite H. Qed.

Lemma sweepStep_noprice pos st e :
  price_in (cache st) (conv e.1) <= 0 -> (sweep pos st e).2 = [].
Proof.
  intros H. unfold sweepStep. destruct (pos !! e.1); [done |].
  destruct (Qeq_bool e.2 0); [done |].
  destruct (Qle_bool (resolvePrice w (conv e.1) (cache st)).1 0) eqn:E;
    [done |].
  qprop. lra.
Qed.

End StepFacts.

(** ** Loops *)

Section LoopFacts.
Context {A : Type}.
Variable step : Ledger -> A -> Ledger * list Signal.

Lemma runLoop_app st l1 l2 :
  runLoop step st (l1 ++ l2) =
  ((runLoop step (runLoop step st l1).1 l2).1,
   (runLoop step st l1).2 ++ (runLoop step (runLoop step st l1).1 l2).2).
Proof.
  revert st. induction l1 as [| x l1 IH]; intros st; cbn [runLoop app fst snd].
  - by destruct (runLoop step st l2).
  - rewrite IH. cbn [fst snd]. by rewrite app_assoc.
Qed.

Lemma runLoop_inv (I : Ledger -> Prop) l st :
  (forall st x, x ∈ l -> I st -> I (step st x).1) ->
  I st -> I (runLoop step st l).1.
Proof.
  revert st. induction l as [| x l IH]; intros st Hstep Hst; [done |].
  cbn [runLoop fst]. apply IH.
  - intros st' y Hy. apply Hstep. by right.
  - apply Hstep; [by left | done].
Qed.

Lemma runLoop_Forall (R : Signal -> Prop) l st :
  (forall st x, x ∈ l -> Forall R (step st x).2) ->
  Forall R (runLoop step st l).2.
Proof.
  revert st. induction l as [| x l IH]; intros st Hstep; [constructor |].
  cbn [runLoop snd]. apply Forall_app. split.
  - apply Hstep. by left.
  - apply IH. intros st' y Hy. apply Hstep. by right.
Qed.

(** As [runLoop_Forall], for a step that is quiet only while an
    invariant of the state holds. *)
Lemma runLoop_Forall_inv (I : Ledger -> Prop) (R : Signal -> Prop) l st :
  (forall st x, x ∈ l -> I st -> I (step st x).1 /\ Forall R (step st x).2) ->
  I st -> Forall R (runLoop step st l).2.
Proof.
  revert st. induction l as [| x l IH]; intros st Hstep Hst; [constructor |].
  cbn [runLoop snd]. apply Forall_app. split.
  - apply Hstep; [by left | done].
  - apply IH.
    + intros st' y Hy. apply Hstep. by right.
    + apply Hstep; [by left | done].
Qed.

Lemma runLoop_calls l st :
  (forall st x, calls (step st x).1 = (calls st + length (step st x).2)%nat) ->
  calls (runLoop step st l).1 = (calls st + length (runLoop step st l).2)%nat.
Proof.
  intros Hstep. revert st.
  induction l as [| x l IH]; intros st; cbn [runLoop fst snd].
  - cbn. lia.
  - rewrite IH, Hstep, length_app. lia.
Qed.
End LoopFacts.

(** ** Ranging over a map *)

Section RangeFacts.
Context {V : Type}.
Variables (m : gmap string V) (l : list (string * V)).
Hypothesis Hperm : l ≡ₚ map_to_list m.

Lemma range_elem k x : (k, x) ∈ l <-> m !! k = Some x.
Proof. rewrite Hperm. apply elem_of_map_to_list. Qed.

Lemma range_elem' (e : string * V) : e ∈ l <-> m !! e.1 = Some e.2.
Proof. destruct e as [k x]. apply range_elem. Qed.

Lemma range_NoDup : NoDup l.*1.
Proof. rewrite Hperm. apply NoDup_fst_map_to_list. Qed.

(** The visit of [k] splits the range in two parts that do not meet [k]. *)
Lemma range_split k x :
  m !! k = Some x ->
  exists l1 l2, l = l1 ++ (k, x) :: l2
    /\ (forall e, e ∈ l1 -> e.1 ≠ k) /\ (forall e, e ∈ l2 -> e.1 ≠ k).
Proof.
  intros Hk. apply range_elem in Hk.
  apply list_elem_of_split in Hk as (l1 & l2 & Hl).
  exists l1, l2. split; [done |].
  pose proof range_NoDup as Hnd. rewrite Hl, fmap_app, fmap_cons in Hnd.
  apply NoDup_app in Hnd as (_ & H1 & H2).
  apply NoDup_cons in H2 as [H2 _]. cbn in *.
  split; intros e He Heq.
  - apply (H1 k); [| by left]. rewrite <- Heq. by apply list_elem_of_fmap_2.
  - apply H2. rewrite <- Heq. by apply list_elem_of_fmap_2.
Qed.
End RangeFacts.

(** ** The two loops of a cycle *)

Section CycleFacts.
Variable w : World.
Variable conv : string -> string.
Variable sp : Q -> Q.
Variable equity : Q.
Variable positions : gmap string PositionMeta.

#[local] Set Default Proof Using "Type".

Abbreviation diff := (diffStep w conv equity).
Abbreviation sweep := (sweepStep w conv sp equity positions).
Abbreviation price_in c k := (resolvePrice w k c).1.
Abbreviation cycle := (diffPositions w conv sp equity positions).

Lemma diff_loop_price l st k :
  price_in (cache (runLoop diff st l).1) k = price_in (cache st) k.
Proof.
  apply (runLoop_inv diff
           (fun st' => price_in (cache st') k = price_in (cache st) k));
    [| done].
  intros st' e _ <-. apply diffStep_price.
Qed.

Lemma sweep_loop_price l st k :
  price_in (cache (runLoop sweep st l).1) k = price_in (cache st) k.
Proof.
  apply (runLoop_inv sweep
           (fun st' => price_in (cache st') k = price_in (cache st) k));
    [| done].
  intros st' e _ <-. apply sweepStep_price.
Qed.

Lemma diff_loop_snap l st k :
  (forall e, e ∈ l -> e.1 ≠ k) ->
  snap (runLoop diff st l).1 !! k = snap st !! k.
Proof.
  intros Hl.
  apply (runLoop_inv diff (fun st' => snap st' !! k = snap st !! k));
    [| done].
  intros st' e He <-. apply diffStep_snap. intros ->. by apply (Hl e).
Qed.

Lemma sweep_loop_snap_other l st k :
  (forall e, e ∈ l -> e.1 ≠ k) ->
  snap (runLoop sweep st l).1 !! k = snap st !! k.
Proof.
  intros Hl.
  apply (runLoop_inv sweep (fun st' => snap st' !! k = snap st !! k));
    [| done].
  intros st' e He <-. rewrite sweepStep_snap.
  destruct (positions !! e.1); [done |].
  apply lookup_delete_ne. by apply Hl.
Qed.

Lemma sweep_loop_snap_kept l st k :
  is_Some (positions !! k) ->
  snap (runLoop sweep st l).1 !! k = snap st !! k.
Proof.
  intros [meta Hk].
  apply (runLoop_inv sweep (fun st' => snap st' !! k = snap st !! k));
    [| done].
  intros st' e He <-. rewrite sweepStep_snap.
  destruct (positions !! e.1) eqn:Hp; [done |].
  apply lookup_delete_ne. intros Heq. rewrite Heq in Hp. congruence.
Qed.

Lemma sweep_loop_snap_gone l st k :
  snap st !! k = None -> snap (runLoop sweep st l).1 !! k = None.
Proof.
  apply (runLoop_inv sweep (fun st' => snap st' !! k = None)).
  intros st' e He Hn. rewrite sweepStep_snap.
  destruct (positions !! e.1); [done |].
  rewrite lookup_delete. by case_decide.
Qed.

(** Signals of other keys carry other symbols. *)
Lemma diff_loop_others cs l st :
  (forall e, e ∈ l -> conv e.1 ≠ cs) ->
  Forall (fun s => Symbol s ≠ cs) (runLoop diff st l).2.
Proof.
  intros Hl. apply runLoop_Forall. intros st' e He.
  eapply Forall_impl; [apply diffStep_symbol |].
  intros s ->. by apply Hl.
Qed.

Lemma sweep_loop_others cs l st :
  (forall e, e ∈ l -> positions !! e.1 = None -> conv e.1 ≠ cs) ->
  Forall (fun s => Symbol s ≠ cs) (runLoop sweep st l).2.
Proof.
  intros Hl. apply runLoop_Forall. intros st' e He.
  eapply Forall_impl; [apply sweepStep_symbol |].
  intros s [-> Hn]. by apply Hl.
Qed.

(** A symbol without a price is not heard of in the whole cycle. *)
Lemma diff_loop_silent cs l st :
  price_in (cache st) cs <= 0 ->
  Forall (fun s => Symbol s ≠ cs) (runLoop diff st l).2.
Proof.
  apply (runLoop_Forall_inv diff (fun st' => price_in (cache st') cs <= 0)).
  intros st' e _ Hp. split; [by rewrite diffStep_price |].
  destruct (decide (conv e.1 = cs)) as [<- | Hne].
  - destruct (diffStep_noprice w conv equity st' e Hp) as [-> _].
    constructor.
  - eapply Forall_impl; [apply diffStep_symbol |]. by intros s ->.
Qed.

Lemma sweep_loop_silent cs l st :
  price_in (cache st) cs <= 0 ->
  Forall (fun s => Symbol s ≠ cs) (runLoop sweep st l).2.
Proof.
  apply (runLoop_Forall_inv sweep (fun st' => price_in (cache st') cs <= 0)).
  intros st' e _ Hp. split; [by rewrite sweepStep_price |].
  destruct (decide (conv e.1 = cs)) as [<- | Hne].
  - rewrite (sweepStep_noprice w conv sp equity positions st' e Hp).
    constructor.
  - eapply Forall_impl; [apply sweepStep_symbol |]. by intros s [-> _].
Qed.

Lemma cycle_consistent st : Forall consistent (cycle st).2.
Proof.
  unfold diffPositions. cbn [snd]. apply Forall_app. split.
  - apply runLoop_Forall. intros. apply diffStep_consistent.
  - apply runLoop_Forall. intros. apply sweepStep_consistent.
Qed.

Lemma cycle_price st k :
  price_in (cache (cycle st).1) k = price_in (cache st) k.
Proof.
  unfold diffPositions. cbn [fst].
  by rewrite sweep_loop_price, diff_loop_price.
Qed.

Lemma cycle_silent st sym :
  price_in (cache st) (conv sym) <= 0 ->
  Forall (fun s => Symbol s ≠ conv sym) (cycle st).2.
Proof.
  intros Hp. unfold diffPositions. cbn [snd]. apply Forall_app. split.
  - by apply diff_loop_silent.
  - apply sweep_loop_silent. by rewrite diff_loop_price.
Qed.

(** With no price for it, a fetched key keeps its snapshot entry. *)
Lemma cycle_snap_noprice st sym :
  is_Some (positions !! sym) ->
  price_in (cache st) (conv sym) <= 0 ->
  snap (cycle st).1 !! sym = snap st !! sym.
Proof.
  intros Hin Hp. unfold diffPositions. cbn [fst].
  rewrite sweep_loop_snap_kept by done.
  apply (runLoop_inv diff
           (fun st' => snap st' !! sym = snap st !! sym
                       /\ price_in (cache st') (conv sym) <= 0));
    [| done].
  intros st' e _ [Hs Hp']. split; [| by rewrite diffStep_price].
  destruct (decide (e.1 = sym)) as [He | He].
  - rewrite <- He in Hp'.
    destruct (diffStep_noprice w conv equity st' e Hp') as [_ ->].
    by rewrite Hs.
  - rewrite diffStep_snap by done. exact Hs.
Qed.

Lemma diff_loop_same l st :
  (forall e, e ∈ l -> Size e.2 == at0 (snap st) e.1) ->
  runLoop diff st l = (st, []).
Proof.
  induction l as [| e l IH]; intros Hl; [done |].
  cbn [runLoop]. rewrite diffStep_same by (apply Hl; by left).
  cbn [fst snd]. rewrite IH; [done |].
  intros e' He'. apply Hl. by right.
Qed.

Lemma sweep_loop_present l st :
  (forall e, e ∈ l -> is_Some (positions !! e.1)) ->
  runLoop sweep st l = (st, []).
Proof.
  induction l as [| e l IH]; intros Hl; [done |].
  cbn [runLoop]. rewrite sweepStep_present by (apply Hl; by left).
  cbn [fst snd]. rewrite IH; [done |].
  intros e' He'. apply Hl. by right.
Qed.

(** Nothing changed: nothing is sent and the state stays as it is. *)
Lemma cycle_idle st :
  (forall k x, snap st !! k = Some x -> is_Some (positions !! k)) ->
  (forall k meta, positions !! k = Some meta -> Size meta == at0 (snap st) k) ->
  cycle st = (st, []).
Proof.
  intros Hdom Hsame. unfold diffPositions.
  rewrite diff_loop_same.
  - cbn [fst snd]. rewrite sweep_loop_present; [done |].
    intros e He. apply (Hdom e.1 e.2).
    by apply (range_elem' _ _ (range_snapshot_perm w (snap st))).
  - intros e He. apply (Hsame e.1).
    by apply (range_elem' _ _ (range_positions_perm w positions)).
Qed.

(** Keys that are not fetched are out of the first loop's reach. *)
Lemma diff_loop_snap_absent st k :
  positions !! k = None ->
  snap (runLoop diff st (range_positions w positions)).1 !! k = snap st !! k.
Proof.
  intros Hk. apply diff_loop_snap. intros e He Heq.
  apply (range_elem' _ _ (range_positions_perm w positions)) in He.
  rewrite Heq in He. congruence.
Qed.

(** The cycle around the visit of a fetched key: what was sent before,
    what the visit sends, what is sent after. *)
Lemma diff_entry st sym meta :
  positions !! sym = Some meta ->
  exists sa pre post,
    (cycle st).2 = pre ++ (diff sa (sym, meta)).2 ++ post
    /\ snap sa !! sym = snap st !! sym
    /\ (forall k, price_in (cache sa) k = price_in (cache st) k)
    /\ calls sa = (calls st + length pre)%nat
    /\ snap (cycle st).1 !! sym = snap (diff sa (sym, meta)).1 !! sym
    /\ ((forall k, k ≠ sym ->
            is_Some (positions !! k) \/ is_Some (snap st !! k) ->
            conv k ≠ conv sym) ->
        Forall (fun s => Symbol s ≠ conv sym) (pre ++ post)).
Proof.
  intros Hsym.
  pose proof (range_positions_perm w positions) as Hperm.
  pose proof (diff_loop_snap_absent st) as Habs.
  destruct (range_split _ _ Hperm sym meta Hsym) as (l1 & l2 & Hl & H1 & H2).
  assert (Hin : forall e, e ∈ l1 ++ (sym, meta) :: l2 ->
                          positions !! e.1 = Some e.2).
  { intros e He. rewrite <- Hl in He. by apply (range_elem' _ _ Hperm). }
  unfold diffPositions. revert Habs. rewrite Hl. intros Habs.
  rewrite runLoop_app in Habs. cbn [runLoop fst snd] in Habs.
  rewrite runLoop_app. cbn [runLoop fst snd].
  set (sa := (runLoop diff st l1).1).
  set (sb := (diff sa (sym, meta)).1).
  set (sc := (runLoop diff sb l2).1).
  fold sa sb sc in Habs.
  exists sa, (runLoop diff st l1).2,
    ((runLoop diff sb l2).2 ++ (runLoop sweep sc (range_snapshot w (snap sc))).2).
  split; [by rewrite <- !app_assoc |].
  split; [by apply diff_loop_snap |].
  split; [intros k; apply diff_loop_price |].
  split; [apply runLoop_calls; intros; apply diffStep_calls |].
  split.
  { rewrite sweep_loop_snap_kept by done. by apply diff_loop_snap. }
  intros Hdist. rewrite !Forall_app. split; [| split].
  - apply diff_loop_others. intros e He. apply Hdist; [by apply H1 |].
    left. rewrite (Hin e); [done |]. apply elem_of_app. by left.
  - apply diff_loop_others. intros e He. apply Hdist; [by apply H2 |].
    left. rewrite (Hin e); [done |]. apply elem_of_app. right. by right.
  - apply sweep_loop_others. intros e He Hnone. apply Hdist.
    + intros Heq. rewrite Heq in Hnone. congruence.
    + right. rewrite <- Habs by done.
      apply (range_elem' _ _ (range_snapshot_perm w (snap sc))) in He.
      by rewrite He.
Qed.

(** The same around the visit of a snapshot key that is not fetched. *)
Lemma sweep_entry st sym prev :
  snap st !! sym = Some prev ->
  positions !! sym = None ->
  exists sa pre post,
    (cycle st).2 = pre ++ (sweep sa (sym, prev)).2 ++ post
    /\ (forall k, price_in (cache sa) k = price_in (cache st) k)
    /\ calls sa = (calls st + length pre)%nat
    /\ snap (cycle st).1 !! sym = None
    /\ ((forall k, k ≠ sym ->
            is_Some (positions !! k) \/ is_Some (snap st !! k) ->
            conv k ≠ conv sym) ->
        Forall (fun s => Symbol s ≠ conv sym) (pre ++ post)).
Proof.
  intros Hprev Hnone.
  pose proof (diff_loop_snap_absent st) as Habs.
  unfold diffPositions.
  set (l := range_positions w positions) in *.
  assert (Hl : forall e, e ∈ l -> is_Some (positions !! e.1)).
  { intros e He.
    apply (range_elem' _ _ (range_positions_perm w positions)) in He.
    by rewrite He. }
  assert (Hc1 : calls (runLoop diff st l).1
                = (calls st + length (runLoop diff st l).2)%nat)
    by (apply runLoop_calls; intros; apply diffStep_calls).
  pose proof (fun k => diff_loop_price l st k) as Hp1.
  assert (Ho1 : (forall k, k ≠ sym ->
                   is_Some (positions !! k) \/ is_Some (snap st !! k) ->
                   conv k ≠ conv sym) ->
                Forall (fun s => Symbol s ≠ conv sym) (runLoop diff st l).2).
  { intros Hdist. apply diff_loop_others. intros e He.
    apply Hdist; [| left; by apply Hl].
    intros Heq. apply Hl in He. rewrite Heq, Hnone in He.
    by destruct He. }
  set (s1 := (runLoop diff st l).1) in *.
  set (o1 := (runLoop diff st l).2) in *.
  cbn [fst snd].
  pose proof (range_snapshot_perm w (snap s1)) as Hperm.
  assert (Hs1 : snap s1 !! sym = Some prev) by (by rewrite Habs).
  destruct (range_split _ _ Hperm sym prev Hs1) as (l1 & l2 & Hls & H1 & H2).
  assert (Hin : forall e, e ∈ l1 ++ (sym, prev) :: l2 ->
                          is_Some (snap s1 !! e.1)).
  { intros e He. rewrite <- Hls in He.
    apply (range_elem' _ _ Hperm) in He. by rewrite He. }
  rewrite Hls, runLoop_app. cbn [runLoop fst snd].
  set (sa := (runLoop sweep s1 l1).1).
  set (sb := (sweep sa (sym, prev)).1).
  exists sa, (o1 ++ (runLoop sweep s1 l1).2), (runLoop sweep sb l2).2.
  split; [by rewrite <- !app_assoc |].
  split; [intros k; unfold sa; by rewrite sweep_loop_price |].
  split.
  { unfold sa. rewrite (runLoop_calls sweep)
      by (intros; apply sweepStep_calls).
    rewrite Hc1, length_app. lia. }
  split.
  { apply sweep_loop_snap_gone. unfold sb.
    rewrite sweepStep_snap. cbn [fst]. rewrite Hnone.
    apply lookup_delete_eq. }
  intros Hdist. rewrite !Forall_app. split; [split |].
  - by apply Ho1.
  - apply sweep_loop_others. intros e He Hn.
    apply Hdist; [by apply H1 |]. right.
    rewrite <- Habs by done. apply Hin. apply elem_of_app. by left.
  - apply sweep_loop_others. intros e He Hn.
    apply Hdist; [by apply H2 |]. right.
    rewrite <- Habs by done. apply Hin. apply elem_of_app. right. by right.
Qed.
End CycleFacts.

(** ** Ingesting fills leaves the snapshot alone *)

Lemma hl_ingestFill_frame w st fill :
  Hyperliquid.initialized (Hyperliquid.ingestFill w st fill).1
    = Hyperliquid.initialized st.1
  /\ Hyperliquid.lastPositions (Hyperliquid.ingestFill w st fill).1
    = Hyperliquid.lastPositions st.1.
Proof.
  unfold Hyperliquid.ingestFill.
  destruct (TID fill <=? Hyperliquid.lastTID st.1)%Z; [done |].
  destruct (String.eqb _ _); [done |].
  by destruct (Qlt_bool _ _).
Qed.

Lemma hl_ingestFills_frame w p fills :
  Hyperliquid.initialized (Hyperliquid.ingestFills w p fills)
    = Hyperliquid.initialized p
  /\ Hyperliquid.lastPositions (Hyperliquid.ingestFills w p fills)
    = Hyperliquid.lastPositions p.
Proof.
  unfold Hyperliquid.ingestFills.
  set (l := sortSlice Hyperliquid.less fills).
  assert (H : forall st,
    Hyperliquid.initialized (foldl (Hyperliquid.ingestFill w) st l).1
      = Hyperliquid.initialized st.1
    /\ Hyperliquid.lastPositions (foldl (Hyperliquid.ingestFill w) st l).1
      = Hyperliquid.lastPositions st.1).
  { induction l as [| f l IH]; intros st; [done |].
    cbn [foldl]. destruct (IH (Hyperliquid.ingestFill w st f)) as [-> ->].
    apply hl_ingestFill_frame. }
  destruct (H (p, Hyperliquid.lastTID p)) as [H1 H2].
  by destruct (_ <? _)%Z.
Qed.

Lemma okx_ingestTrade_frame w st trade :
  OKX.initialized (OKX.ingestTrade w st trade).1 = OKX.initialized st.1
  /\ OKX.lastPositions (OKX.ingestTrade w st trade).1
    = OKX.lastPositions st.1.
Proof.
  unfold OKX.ingestTrade.
  destruct (FillTime trade <=? OKX.lastFillTime st.1)%Z; [done |].
  destruct (String.eqb _ _); [done |].
  by destruct (Qlt_bool _ _).
Qed.

Lemma okx_ingestTrades_frame w p trades :
  OKX.initialized (OKX.ingestTrades w p trades) = OKX.initialized p
  /\ OKX.lastPositions (OKX.ingestTrades w p trades) = OKX.lastPositions p.
Proof.
  unfold OKX.ingestTrades.
  set (l := sortSlice OKX.less trades).
  assert (H : forall st,
    OKX.initialized (foldl (OKX.ingestTrade w) st l).1 = OKX.initialized st.1
    /\ OKX.lastPositions (foldl (OKX.ingestTrade w) st l).1
      = OKX.lastPositions st.1).
  { induction l as [| f l IH]; intros st; [done |].
    cbn [foldl]. destruct (IH (OKX.ingestTrade w st f)) as [-> ->].
    apply okx_ingestTrade_frame. }
  destruct (H (p, OKX.lastFillTime p)) as [H1 H2].
  by destruct (_ <? _)%Z.
Qed.

(** ** The shape of a poll cycle *)

(** An initialized provider whose fetches succeed runs the two loops on
    its snapshot and on the price cache as the fills left it. *)
Lemma cycle_diff w P equity positions :
  reachesDiff w P equity positions ->
  let r := diffPositions w (currSym P) (closedPrice P) equity positions
             {| snap := snapshot P; cache := priceCache (afterFills w P);
                calls := 0 |} in
  (fetchAndEmit w P).1.1 = None
  /\ (fetchAndEmit w P).2 = r.2
  /\ snapshot (fetchAndEmit w P).1.2 = snap r.1
  /\ priceCache (fetchAndEmit w P).1.2 = cache r.1
  /\ isInitialized (fetchAndEmit w P).1.2 = true.
Proof.
  intros (Hf & He & Hpos & Hp & Hi). destruct P as [p | p]; cbn in *.
  - destruct Hf as [fills Hf].
    unfold Hyperliquid.fetchAndEmit. rewrite Hf.
    destruct (hl_clearinghouseState w (Hyperliquid.user p)) as [state |];
      [| discriminate].
    injection He as <-. injection Hp as <-.
    apply Qle_bool_false in Hpos. rewrite Hpos.
    destruct (hl_ingestFills_frame w p fills) as [-> ->].
    rewrite Hi. cbn. done.
  - destruct Hf as [trades Hf].
    unfold OKX.fetchAndEmit. rewrite Hf, He.
    apply Qle_bool_false in Hpos. rewrite Hpos, Hp.
    destruct (okx_ingestTrades_frame w p trades) as [-> ->].
    rewrite Hi. cbn. done.
Qed.

(** Whatever the cycle sends, the two loops sent it. *)
Lemma cycle_signals w P :
  (fetchAndEmit w P).2 = []
  \/ exists equity positions st,
       (fetchAndEmit w P).2
       = (diffPositions w (currSym P) (closedPrice P) equity positions st).2.
Proof.
  destruct P as [p | p]; cbn.
  - unfold Hyperliquid.fetchAndEmit.
    destruct (hl_userFills _ _); [| by left].
    destruct (hl_clearinghouseState _ _) as [state |]; [| by left].
    destruct (Qle_bool _ _); [by left |].
    destruct (negb _); [by left |]. right. cbn. eauto.
  - unfold OKX.fetchAndEmit.
    destruct (okx_tradeRecords _ _); [| by left].
    destruct (okx_asset _ _) as [eq |]; [| by left].
    destruct (Qle_bool _ _); [by left |].
    destruct (okx_positionCurrent _ _); [| by left].
    destruct (negb _); [by left |]. right. cbn. eauto.
Qed.

(** A cycle that returns an error has changed nothing and sent nothing. *)
Lemma cycle_error w P msg :
  (fetchAndEmit w P).1.1 = Some msg -> fetchAndEmit w P = (Some msg, P, []).
Proof.
  destruct P as [p | p]; cbn.
  - unfold Hyperliquid.fetchAndEmit.
    destruct (hl_userFills _ _); [| by intros [= ->]].
    destruct (hl_clearinghouseState _ _) as [state |]; [| by intros [= ->]].
    destruct (Qle_bool _ _); [by intros [= <-] |].
    destruct (negb _); cbn; discriminate.
  - unfold OKX.fetchAndEmit.
    destruct (okx_tradeRecords _ _); [| by intros [= ->]].
    destruct (okx_asset _ _) as [eq |]; [| by intros [= ->]].
    destruct (Qle_bool _ _); [by intros [= <-] |].
    destruct (okx_positionCurrent _ _); [| by intros [= ->]].
    destruct (negb _); cbn; discriminate.
Qed.

Lemma cycle_first w P equity positions :
  fillsFetched w P ->
  fetchedEquity w P = Ok equity ->
  0 < equity ->
  fetchedPositions w P = Ok positions ->
  isInitialized P = false ->
  (fetchAndEmit w P).1.1 = None
  /\ (fetchAndEmit w P).2 = []
  /\ snapshot (fetchAndEmit w P).1.2 = initSnapshot w positions (snapshot P)
  /\ isInitialized (fetchAndEmit w P).1.2 = true
  /\ priceCache (fetchAndEmit w P).1.2 = priceCache (afterFills w P)
  /\ fillCursor (fetchAndEmit w P).1.2 = fillCursor (afterFills w P).
Proof.
  intros Hf He Hpos Hp Hi. destruct P as [p | p]; cbn in *.
  - destruct Hf as [fills Hf].
    unfold Hyperliquid.fetchAndEmit. rewrite Hf.
    destruct (hl_clearinghouseState w (Hyperliquid.user p)) as [state |];
      [| discriminate].
    injection He as <-. injection Hp as <-.
    apply Qle_bool_false in Hpos. rewrite Hpos.
    destruct (hl_ingestFills_frame w p fills) as [-> ->].
    rewrite Hi. cbn. done.
  - destruct Hf as [trades Hf].
    unfold OKX.fetchAndEmit. rewrite Hf, He.
    apply Qle_bool_false in Hpos. rewrite Hpos, Hp.
    destruct (okx_ingestTrades_frame w p trades) as [-> ->].
    rewrite Hi. cbn. done.
Qed.

(** An initialized provider either gives up with an error or compares
    positions. *)
Lemma cycle_initialized w P :
  isInitialized P = true ->
  (exists msg, fetchAndEmit w P = (Some msg, P, []))
  \/ (exists equity positions, reachesDiff w P equity positions).
Proof.
  intros Hi. unfold reachesDiff. destruct P as [p | p]; cbn in *.
  - unfold Hyperliquid.fetchAndEmit.
    destruct (hl_userFills _ _) as [fills | e]; [| left; by exists e].
    destruct (hl_clearinghouseState _ _) as [state | e];
      [| left; by exists e].
    destruct (Qle_bool _ _) eqn:E; [left; by eexists |].
    apply Qle_bool_false in E. right.
    exists (AccountValue state), (Positions state). eauto 10.
  - unfold OKX.fetchAndEmit.
    destruct (okx_tradeRecords _ _) as [trades | e]; [| left; by exists e].
    destruct (okx_asset _ _) as [eq | e]; [| left; by exists e].
    destruct (Qle_bool _ _) eqn:E; [left; by eexists |].
    destruct (okx_positionCurrent _ _) as [pos | e]; [| left; by exists e].
    apply Qle_bool_false in E. right. exists eq, pos. eauto 10.
Qed.

(** The first cycle copies the fetched sizes. *)
Lemma foldl_insert_lookup (l : list (string * PositionMeta))
    (m : gmap string Q) (k : string) :
  NoDup l.*1 ->
  foldl (fun m e => <[e.1 := Size e.2]> m) m l !! k =
  match (list_to_map l : gmap string PositionMeta) !! k with
  | Some meta => Some (Size meta)
  | None => m !! k
  end.
Proof.
  revert m. induction l as [| e l IH]; intros m Hnd; [done |].
  rewrite fmap_cons in Hnd. apply NoDup_cons in Hnd as [Hne Hnd].
  cbn [foldl list_to_map foldr]. rewrite IH by done.
  rewrite (lookup_insert (list_to_map l)).
  destruct (decide (e.1 = k)) as [<- | Hk].
  - rewrite (not_elem_of_list_to_map_1 l e.1) by done.
    by rewrite lookup_insert_eq.
  - by rewrite lookup_insert_ne.
Qed.

Lemma initSnapshot_lookup w positions m k :
  initSnapshot w positions m !! k =
  match positions !! k with
  | Some meta => Some (Size meta)
  | None => m !! k
  end.
Proof.
  unfold initSnapshot.
  pose proof (range_positions_perm w positions) as Hperm.
  pose proof (range_NoDup _ _ Hperm) as Hnd.
  rewrite foldl_insert_lookup by done.
  rewrite (list_to_map_proper _ _ Hnd Hperm).
  by rewrite list_to_map_to_list.
Qed.

Lemma initSnapshot_empty w positions :
  initSnapshot w positions ∅ = Size <$> positions.
Proof.
  apply map_eq. intros k.
  rewrite initSnapshot_lookup, lookup_fmap, lookup_empty.
  by destruct (positions !! k).
Qed.

(** ** The copy-trading configuration *)

(** C8. Normalization clamps negative [min_amount] and [max_amount] to
    zero, resets a [follow_ratio] that is not positive to 100, turns the
    three [follow_] flags on when all three are off, and leaves every
    other field as it was. *)
Theorem normalize_rules (cfg : CopyTradingConfig) :
  let n := normalizeCopyTradingConfig cfg in
  (MinAmount cfg < 0 -> MinAmount n = 0)
  /\ (0 <= MinAmount cfg -> MinAmount n = MinAmount cfg)
  /\ (MaxAmount cfg < 0 -> MaxAmount n = 0)
  /\ (0 <= MaxAmount cfg -> MaxAmount n = MaxAmount cfg)
  /\ (FollowRatio cfg <= 0 -> FollowRatio n = 100)
  /\ (0 < FollowRatio cfg -> FollowRatio n = FollowRatio cfg)
  /\ (FollowOpen cfg = false -> FollowAdd cfg = false ->
      FollowReduce cfg = false ->
      FollowOpen n = true /\ FollowAdd n = true /\ FollowReduce n = true)
  /\ (FollowOpen cfg = true \/ FollowAdd cfg = true \/ FollowReduce cfg = true ->
      FollowOpen n = FollowOpen cfg /\ FollowAdd n = FollowAdd cfg
      /\ FollowReduce n = FollowReduce cfg)
  /\ SyncLeverage n = SyncLeverage cfg
  /\ SyncMarginMode n = SyncMarginMode cfg.
Proof.
  destruct cfg as [fo fa fr ratio mn mx sl sm].
  unfold normalizeCopyTradingConfig. cbn.
  destruct (Qle_bool ratio 0) eqn:Hr; cbn;
    destruct (Qlt_bool mx 0) eqn:Hx; cbn;
    destruct (Qlt_bool mn 0) eqn:Hn; cbn;
    qprop;
    destruct fo, fa, fr; cbn;
    repeat split; intros; try reflexivity; try discriminate;
    try lra; try (exfalso; lra); try (exfalso; intuition discriminate).
Qed.

Lemma normalize_rules_witness :
  let cfg := {| FollowOpen := false; FollowAdd := false; FollowReduce := false;
                FollowRatio := -5; MinAmount := -1; MaxAmount := 250;
                SyncLeverage := false; SyncMarginMode := true |} in
  let n := normalizeCopyTradingConfig cfg in
  MinAmount n = 0 /\ MaxAmount n = 250 /\ FollowRatio n = 100
  /\ FollowOpen n = true /\ FollowAdd n = true /\ FollowReduce n = true
  /\ SyncLeverage n = false.
Proof.
  intros cfg n.
  destruct (normalize_rules cfg)
    as (Hmin & _ & _ & Hmax & Hratio & _ & Hoff & _ & Hsl & _).
  split; [apply Hmin; reflexivity |].
  split; [apply Hmax; discriminate |].
  split; [apply Hratio; discriminate |].
  destruct Hoff as (Ho & Ha & Hr); [reflexivity .. |].
  repeat split; assumption.
Defined.

(** C10. A text that is empty or blank, or that is not JSON, parses to
    the default configuration: the three [follow_] flags and the two
    [sync_] flags on, ratio 100, no minimum and no maximum amount. *)
Theorem Parse_falls_back_to_default (j : Decoder) (raw : string) :
  TrimSpace raw = ""%string \/ json_Valid j raw = false ->
  ParseCopyTradingConfig j raw =
  {| FollowOpen := true; FollowAdd := true; FollowReduce := true;
     FollowRatio := 100; MinAmount := 0; MaxAmount := 0;
     SyncLeverage := true; SyncMarginMode := true |}.
Proof.
  intros [Hblank | Hbad]; unfold ParseCopyTradingConfig.
  - by rewrite Hblank.
  - destruct (String.eqb (TrimSpace raw) ""); [reflexivity |].
    unfold json_Unmarshal. by rewrite Hbad.
Qed.

Lemma Parse_falls_back_to_default_witness :
  (TrimSpace "  	 " = ""%string
   /\ ParseCopyTradingConfig bracesDecoder "  	 " = DefaultCopyTradingConfig)
  /\ (json_Valid bracesDecoder "follow everything" = false
      /\ ParseCopyTradingConfig bracesDecoder "follow everything"
         = DefaultCopyTradingConfig).
Proof.
  split; (split; [reflexivity |]).
  - apply (Parse_falls_back_to_default bracesDecoder). left. reflexivity.
  - apply (Parse_falls_back_to_default bracesDecoder). right. reflexivity.
Defined.

(** ** The provider factory *)

(** C9. [NewProvider] fails with [unsupported signal source type] exactly
    for a type outside the four supported names; for a supported type it
    returns a provider whose poll interval is the configured one, or 3
    seconds when that is not positive, and whose HTTP client is the given
    one, or one with a 10 second timeout when none is given; the provider
    holds the trimmed identifier and starts uninitialized, with an empty
    snapshot. *)
Theorem NewProvider_spec (cfg : Config) :
  (NewProvider cfg = Err "unsupported signal source type"
   <-> Type_ cfg ∉ supportedTypes)
  /\ (Type_ cfg ∈ supportedTypes ->
      exists P,
        NewProvider cfg = Ok P
        /\ providerInterval P =
             (if (PollInterval cfg <=? 0)%Z then (3 * Second)%Z
              else PollInterval cfg)
        /\ providerClient P =
             match HTTPClient cfg with
             | Some c => c
             | None => {| Timeout := (10 * Second)%Z |}
             end
        /\ providerIdentifier P = TrimSpace (Identifier cfg)
        /\ isInitialized P = false /\ snapshot P = ∅).
Proof.
  unfold NewProvider, supportedTypes.
  destruct (String.eqb_spec (Type_ cfg) "hyperliquid_wallet") as [-> | H1];
    cbn [orb].
  { split; [split; [discriminate | intros H; exfalso; apply H; set_solver] |].
    intros _. eexists. split; [reflexivity |]. by repeat split. }
  destruct (String.eqb_spec (Type_ cfg) "hyperliquid") as [-> | H2];
    cbn [orb].
  { split; [split; [discriminate | intros H; exfalso; apply H; set_solver] |].
    intros _. eexists. split; [reflexivity |]. by repeat split. }
  destruct (String.eqb_spec (Type_ cfg) "okx_wallet") as [-> | H3];
    cbn [orb].
  { split; [split; [discriminate | intros H; exfalso; apply H; set_solver] |].
    intros _. eexists. split; [reflexivity |]. by repeat split. }
  destruct (String.eqb_spec (Type_ cfg) "okx") as [-> | H4]; cbn [orb].
  { split; [split; [discriminate | intros H; exfalso; apply H; set_solver] |].
    intros _. eexists. split; [reflexivity |]. by repeat split. }
  assert (Hout : Type_ cfg ∉ ["hyperliquid_wallet"; "hyperliquid";
                              "okx_wallet"; "okx"]%string).
  { rewrite !not_elem_of_cons. repeat split; try done. apply not_elem_of_nil. }
  split; [done |]. intros Hin. contradiction.
Qed.

Lemma NewProvider_spec_witness :
  let cfg := {| Type_ := "okx_wallet"; Identifier := " leader ";
                PollInterval := 0; HTTPClient := None |} in
  Type_ cfg ∈ supportedTypes
  /\ exists P, NewProvider cfg = Ok P
       /\ providerInterval P = 3000000000%Z
       /\ providerClient P = {| Timeout := 10000000000 |}.
Proof.
  intros cfg.
  assert (Hin : Type_ cfg ∈ supportedTypes).
  { unfold supportedTypes, cfg. cbn. set_solver. }
  split; [exact Hin |].
  destruct (NewProvider_spec cfg) as [_ H].
  destruct (H Hin) as (P & HP & Hint & Hcl & _).
  exists P. split; [exact HP |]. split; [exact Hint | exact Hcl].
Defined.

(** ** The poll cycle *)

(** Over sizes that are numbers, every signal sent in a poll cycle, by
    either provider, has
    [leader_pos_after - leader_pos_before == delta_size], and its
    [delta_size] is positive for add_long, reduce_short, open_long and
    close_short, negative for add_short, reduce_long, open_short and
    close_long.  For sizes that may be NaN or infinite see
    [signals_consistent_unless_nan]. *)
Theorem signals_consistent (w : World) (P : Provider) :
  Forall consistent (fetchAndEmit w P).2.
Proof.
  destruct (cycle_signals w P) as [-> | (equity & positions & st & ->)].
  - constructor.
  - apply cycle_consistent.
Qed.

(** C7, as the code has it. When the fetched equity is not positive the
    cycle returns an error, sends nothing and leaves the provider exactly
    as it was (cursor, price cache and snapshot included).  The error text
    is [okx equity invalid] on OKX and [invalid Hyperliquid account value]
    on Hyperliquid. *)
Theorem nonpositive_equity_aborts (w : World) (P : Provider) (equity : Q) :
  fillsFetched w P ->
  fetchedEquity w P = Ok equity ->
  equity <= 0 ->
  fetchAndEmit w P = (Some (equityError P), P, []).
Proof.
  intros Hf He Hle. apply Qle_bool_iff in Hle.
  destruct P as [p | p]; cbn in *.
  - destruct Hf as [fills Hf]. unfold Hyperliquid.fetchAndEmit. rewrite Hf.
    destruct (hl_clearinghouseState w (Hyperliquid.user p)) as [state |];
      [| discriminate].
    injection He as <-. by rewrite Hle.
  - destruct Hf as [trades Hf]. unfold OKX.fetchAndEmit.
    by rewrite Hf, He, Hle.
Qed.

(** A provider is born with an empty snapshot and keeps it empty until
    its first complete cycle. *)
Lemma cycle_success_initializes w P :
  (fetchAndEmit w P).1.1 = None -> isInitialized (fetchAndEmit w P).1.2 = true.
Proof.
  destruct P as [p | p]; cbn.
  - unfold Hyperliquid.fetchAndEmit.
    destruct (hl_userFills _ _); [| discriminate].
    destruct (hl_clearinghouseState _ _) as [state |]; [| discriminate].
    destruct (Qle_bool _ _); [discriminate |].
    by destruct (negb _).
  - unfold OKX.fetchAndEmit.
    destruct (okx_tradeRecords _ _); [| discriminate].
    destruct (okx_asset _ _) as [eq |]; [| discriminate].
    destruct (Qle_bool _ _); [discriminate |].
    destruct (okx_positionCurrent _ _); [| discriminate].
    by destruct (negb _).
Qed.

Lemma uninitialized_snapshot_empty P :
  reachable P -> isInitialized P = false -> snapshot P = ∅.
Proof.
  induction 1 as [cfg P Hnew | w P Hreach IH]; intros Hi.
  - unfold NewProvider in Hnew.
    destruct (_ || _); [by injection Hnew as <- |].
    destruct (_ || _); [by injection Hnew as <- | discriminate].
  - destruct (fetchAndEmit w P).1.1 as [msg |] eqn:Herr.
    + rewrite (cycle_error w P msg Herr) in Hi |- *. by apply IH.
    + apply cycle_success_initializes in Herr. congruence.
Qed.

(** C3. A provider that was never initialized, polled with positions [P]:
    the first cycle sends nothing, copies the sizes of [P] into the
    snapshot and sets the flag, and changes nothing else beyond what the
    fills of the cycle did to the price cache and the cursor; a second
    cycle that fetches the same [P] sends nothing and leaves the snapshot as
    it is. *)
Theorem first_poll_then_idle (w1 w2 : World) (P : Provider) (equity : Q)
    (positions : gmap string PositionMeta) :
  reachable P ->
  isInitialized P = false ->
  fillsFetched w1 P ->
  fetchedEquity w1 P = Ok equity ->
  0 < equity ->
  fetchedPositions w1 P = Ok positions ->
  fetchedPositions w2 (fetchAndEmit w1 P).1.2 = Ok positions ->
  (fetchAndEmit w1 P).2 = []
  /\ isInitialized (fetchAndEmit w1 P).1.2 = true
  /\ snapshot (fetchAndEmit w1 P).1.2 = Size <$> positions
  /\ priceCache (fetchAndEmit w1 P).1.2 = priceCache (afterFills w1 P)
  /\ fillCursor (fetchAndEmit w1 P).1.2 = fillCursor (afterFills w1 P)
  /\ (fetchAndEmit w2 (fetchAndEmit w1 P).1.2).2 = []
  /\ snapshot (fetchAndEmit w2 (fetchAndEmit w1 P).1.2).1.2
     = snapshot (fetchAndEmit w1 P).1.2.
Proof.
  intros Hreachable Hi Hf He Hpos Hp Hp2.
  pose proof (uninitialized_snapshot_empty P Hreachable Hi) as Hempty.
  destruct (cycle_first w1 P equity positions Hf He Hpos Hp Hi)
    as (_ & Hsig & Hsnap & Hini & Hcache & Hcursor).
  rewrite Hempty, initSnapshot_empty in Hsnap.
  set (P1 := (fetchAndEmit w1 P).1.2) in *.
  split; [done |]. split; [done |]. split; [done |].
  split; [done |]. split; [done |].
  destruct (cycle_initialized w2 P1 Hini)
    as [[msg ->] | (equity2 & positions2 & Hreach)]; [done |].
  assert (positions2 = positions) as ->.
  { destruct Hreach as (_ & _ & _ & Hp2' & _). congruence. }
  destruct (cycle_diff w2 P1 equity2 positions Hreach)
    as (_ & -> & -> & _).
  rewrite cycle_idle; [done | |]; cbn [snap]; rewrite Hsnap.
  - intros k x Hk. rewrite lookup_fmap in Hk.
    destruct (positions !! k); [by eexists | discriminate].
  - intros k meta Hk. unfold at0. rewrite lookup_fmap, Hk. cbn. reflexivity.
Qed.

(** C5. A fetched position for whose symbol neither the price cache
    (fills of this cycle included) nor the market-data fallback has a
    positive price: the cycle sends no signal for that symbol and the
    snapshot entry of the position is what it was. *)
Theorem no_price_no_signal (w : World) (P : Provider)
    (positions : gmap string PositionMeta) (sym : string)
    (meta : PositionMeta) :
  isInitialized P = true ->
  fetchedPositions w P = Ok positions ->
  positions !! sym = Some meta ->
  at0 (priceCache (afterFills w P)) (currSym P sym) <= 0 ->
  (forall md, market_Get w (currSym P sym) = Ok md -> CurrentPrice md <= 0) ->
  Forall (fun s => Symbol s ≠ currSym P sym) (fetchAndEmit w P).2
  /\ snapshot (fetchAndEmit w P).1.2 !! sym = snapshot P !! sym.
Proof.
  intros Hi Hp Hsym Hcache Hmarket.
  destruct (cycle_initialized w P Hi)
    as [[msg ->] | (equity & positions' & Hreach)]; [by split |].
  assert (positions' = positions) as ->.
  { destruct Hreach as (_ & _ & _ & Hp' & _). congruence. }
  destruct (cycle_diff w P equity positions Hreach) as (_ & -> & -> & _).
  pose proof (resolvePrice_nonpos w _ _ Hcache Hmarket) as Hno.
  split.
  - by apply cycle_silent.
  - by apply cycle_snap_noprice.
Qed.

(** ** The signals around the visit of a key, key by key *)

Section CycleKeys.
Variable w : World.
Variable conv : string -> string.
Variable sp : Q -> Q.
Variable equity : Q.
Variable positions : gmap string PositionMeta.

#[local] Set Default Proof Using "Type".

Abbreviation diff := (diffStep w conv equity).
Abbreviation sweep := (sweepStep w conv sp equity positions).
Abbreviation price_in c k := (resolvePrice w k c).1.
Abbreviation cycle := (diffPositions w conv sp equity positions).

(** Every signal of a loop is sent under the symbol of a key it
    visits. *)
Lemma diff_loop_keys l st :
  Forall (fun s => exists e, e ∈ l /\ Symbol s = conv e.1)
         (runLoop diff st l).2.
Proof.
  apply runLoop_Forall. intros st' e He.
  eapply Forall_impl; [apply diffStep_symbol |].
  intros s Hs. by exists e.
Qed.

Lemma sweep_loop_keys l st :
  Forall (fun s => exists e, e ∈ l /\ positions !! e.1 = None
                             /\ Symbol s = conv e.1)
         (runLoop sweep st l).2.
Proof.
  apply runLoop_Forall. intros st' e He.
  eapply Forall_impl; [apply sweepStep_symbol |].
  intros s [Hs Hn]. by exists e.
Qed.

(** A signal sent for a key other than [sym]. *)
Abbreviation otherKey st sym :=
  (fun s : Signal =>
     exists k, k ≠ sym
               /\ (is_Some (positions !! k) \/ is_Some (snap st !! k))
               /\ Symbol s = conv k).

(** The cycle around the visit of a fetched key: what is sent before and
    after is sent for other keys. *)
Lemma diff_entry_keys st sym meta :
  positions !! sym = Some meta ->
  exists sa pre post,
    (cycle st).2 = pre ++ (diff sa (sym, meta)).2 ++ post
    /\ snap sa !! sym = snap st !! sym
    /\ (forall k, price_in (cache sa) k = price_in (cache st) k)
    /\ calls sa = (calls st + length pre)%nat
    /\ snap (cycle st).1 !! sym = snap (diff sa (sym, meta)).1 !! sym
    /\ Forall (otherKey st sym) (pre ++ post).
Proof.
  intros Hsym.
  pose proof (range_positions_perm w positions) as Hperm.
  pose proof (diff_loop_snap_absent w conv equity positions st) as Habs.
  destruct (range_split _ _ Hperm sym meta Hsym) as (l1 & l2 & Hl & H1 & H2).
  assert (Hin : forall e, e ∈ l1 ++ (sym, meta) :: l2 ->
                          positions !! e.1 = Some e.2).
  { intros e He. rewrite <- Hl in He. by apply (range_elem' _ _ Hperm). }
  unfold diffPositions. revert Habs. rewrite Hl. intros Habs.
  rewrite runLoop_app in Habs. cbn [runLoop fst snd] in Habs.
  rewrite runLoop_app. cbn [runLoop fst snd].
  set (sa := (runLoop diff st l1).1).
  set (sb := (diff sa (sym, meta)).1).
  set (sc := (runLoop diff sb l2).1).
  fold sa sb sc in Habs.
  exists sa, (runLoop diff st l1).2,
    ((runLoop diff sb l2).2 ++ (runLoop sweep sc (range_snapshot w (snap sc))).2).
  split; [by rewrite <- !app_assoc |].
  split; [by apply diff_loop_snap |].
  split; [intros k; apply diff_loop_price |].
  split; [apply runLoop_calls; intros; apply diffStep_calls |].
  split.
  { rewrite sweep_loop_snap_kept by done.
    by apply diff_loop_snap. }
  rewrite !Forall_app. split; [| split].
  - eapply Forall_impl; [apply diff_loop_keys |].
    intros s (e & He & Hs). exists e.1. split; [by apply H1 |].
    split; [| done]. left. rewrite (Hin e); [done |].
    apply elem_of_app. by left.
  - eapply Forall_impl; [apply diff_loop_keys |].
    intros s (e & He & Hs). exists e.1. split; [by apply H2 |].
    split; [| done]. left. rewrite (Hin e); [done |].
    apply elem_of_app. right. by right.
  - eapply Forall_impl; [apply sweep_loop_keys |].
    intros s (e & He & Hnone & Hs). exists e.1. split.
    + intros Heq. rewrite Heq in Hnone. congruence.
    + split; [| done]. right. rewrite <- Habs by done.
      apply (range_elem' _ _ (range_snapshot_perm w (snap sc))) in He.
      by rewrite He.
Qed.

End CycleKeys.

(** ** The price of a key *)

Lemma pricedAt_priceFor w P sym price :
  pricedAt w P sym price -> priceFor w P sym = price /\ 0 < price.
Proof.
  intros [Hc Hp | md Hc Hm Hmd Hp]; (split; [| done]);
    unfold priceFor, resolvePrice.
  - rewrite Hc. apply Qle_bool_false in Hp as Hb. by rewrite Hb.
  - apply Qle_bool_iff in Hc as Hb. rewrite Hb, Hm, Hmd.
    apply Qlt_bool_iff in Hp as Hb'. by rewrite Hb'.
Qed.

Lemma unpriced_priceFor w P sym : unpriced w P sym -> priceFor w P sym <= 0.
Proof. intros [Hc Hm]. by apply resolvePrice_nonpos. Qed.

(** A key has a price or it has none. *)
Lemma priced_or_unpriced w P sym :
  (exists price, pricedAt w P sym price) \/ unpriced w P sym.
Proof.
  destruct (Qlt_le_dec 0 (at0 (priceCache (afterFills w P)) (currSym P sym)))
    as [Hc | Hc].
  { left. eexists. by apply priced_cached. }
  destruct (market_Get w (currSym P sym)) as [md | e] eqn:Hm.
  - destruct (Qlt_le_dec 0 (CurrentPrice md)) as [Hp | Hp].
    + left. exists (CurrentPrice md). by eapply priced_fallback.
    + right. split; [done |]. intros md' Heq. rewrite Hm in Heq.
      injection Heq as Heq. by subst md'.
  - right. split; [done |]. intros md' Heq. rewrite Hm in Heq.
    discriminate Heq.
Qed.

Lemma others_apart P positions sym l :
  keysApart P positions sym ->
  Forall (ofOtherKey P positions sym) l ->
  Forall (fun s => Symbol s ≠ currSym P sym) l.
Proof.
  intros Hapart Hl. eapply Forall_impl; [exact Hl |].
  intros s (k & Hk & Hin & ->). by apply Hapart.
Qed.
(** The size the snapshot holds for a key, and the price resolved for it,
    are still those of the start of the cycle when the key is visited. *)
Lemma at0_eq (m m' : gmap string Q) (k : string) :
  m !! k = m' !! k -> at0 m k = at0 m' k.
Proof. unfold at0. by intros ->. Qed.

(** On OKX the symbol is the key, so keys are always apart. *)
Lemma keysApart_okx (p : OKX.provider)
    (positions : gmap string PositionMeta) (sym : string) :
  keysApart (OKXProvider p) positions sym.
Proof. intros k Hk _. exact Hk. Qed.

Lemma Qlt_bool_pos (x : Q) : 0 < x -> Qlt_bool 0 x = true.
Proof. apply Qlt_bool_iff. Qed.

Lemma Qlt_bool_neg (x : Q) : x < 0 -> Qlt_bool 0 x = false.
Proof. intros H. apply Qlt_bool_false. lra. Qed.

(** C2, as the code has it. A position whose sign flips between two
    polls.  With a price (cached, or else from the market-data fallback)
    the cycle sends exactly two signals for it, next to each other: first
    the close of the old direction, then the open of the new one, with the
    fields below; each is stamped with its own clock reading, the close
    with the reading that follows those of the signals sent before it, the
    open with the next one.  Every other signal of the cycle is sent for
    another position key, so that none carries the symbol unless another
    key at hand converts to it (never so on OKX); the snapshot takes the
    new size.  Without a price no signal of the cycle carries the symbol,
    and the snapshot entry stays as it was. *)
Theorem flip_emits_close_then_open (w : World) (P : Provider) (equity : Q)
    (positions : gmap string PositionMeta) (sym : string)
    (meta : PositionMeta) :
  let prev := at0 (snapshot P) sym in
  reachesDiff w P equity positions ->
  positions !! sym = Some meta ->
  (0 < prev /\ Size meta < 0) \/ (prev < 0 /\ 0 < Size meta) ->
  (forall price,
     pricedAt w P sym price ->
     exists closeAction openAction pre post,
       (fetchAndEmit w P).2 =
         pre ++
         [ {| Symbol := currSym P sym; Action := closeAction;
              NotionalUSD := Qabs prev * price; Price := price;
              LeaderEquity := equity; LeaderLeverage := Leverage meta;
              MarginMode := PosMarginMode meta;
              Timestamp := time_Now w (length pre);
              DeltaSize := - prev; LeaderPosBefore := prev;
              LeaderPosAfter := 0 |};
           {| Symbol := currSym P sym; Action := openAction;
              NotionalUSD := Qabs (Size meta) * price; Price := price;
              LeaderEquity := equity; LeaderLeverage := Leverage meta;
              MarginMode := PosMarginMode meta;
              Timestamp := time_Now w (S (length pre));
              DeltaSize := Size meta; LeaderPosBefore := 0;
              LeaderPosAfter := Size meta |} ]
         ++ post
       /\ (0 < prev ->
           closeAction = ActionCloseLong /\ openAction = ActionOpenShort)
       /\ (prev < 0 ->
           closeAction = ActionCloseShort /\ openAction = ActionOpenLong)
       /\ Forall (ofOtherKey P positions sym) (pre ++ post)
       /\ (keysApart P positions sym ->
           Forall (fun s => Symbol s ≠ currSym P sym) (pre ++ post))
       /\ snapshot (fetchAndEmit w P).1.2 !! sym = Some (Size meta))
  /\ (unpriced w P sym ->
      Forall (fun s => Symbol s ≠ currSym P sym) (fetchAndEmit w P).2
      /\ snapshot (fetchAndEmit w P).1.2 !! sym = snapshot P !! sym).
Proof.
  intros prev Hreach Hsym Hflip.
  destruct (cycle_diff w P equity positions Hreach) as (_ & -> & -> & _).
  split.
  - intros price [Hpr Hprice]%pricedAt_priceFor.
    unfold priceFor in Hpr.
    destruct (diff_entry_keys w (currSym P) (closedPrice P) equity positions
                {| snap := snapshot P; cache := priceCache (afterFills w P);
                   calls := 0 |} sym meta Hsym)
      as (sa & pre & post & Hout & Hsnap & Hpc & Hcalls & Hfin & Hothers).
    cbn [snap cache calls] in *.
    apply at0_eq in Hsnap. specialize (Hpc (currSym P sym)).
    rewrite Hpr in Hpc.
    destruct (diffStep_flip w (currSym P) equity sa (sym, meta))
      as [Hstep Hsnap'];
      cbn [fst snd]; rewrite ?Hsnap, ?Hpc; [done | done |].
    cbn [fst snd] in Hstep, Hsnap'.
    rewrite Hsnap, Hpc, Hcalls in Hstep. fold prev in Hstep.
    eexists _, _, pre, post. split; [by rewrite Hout, Hstep |].
    split.
    { intros Hpos. by rewrite (Qlt_bool_pos prev Hpos). }
    split.
    { intros Hneg. by rewrite (Qlt_bool_neg prev Hneg). }
    split; [exact Hothers |].
    split; [intros Hapart; by apply (others_apart P positions sym) |].
    rewrite Hfin, Hsnap'. apply lookup_insert_eq.
  - intros Hno%unpriced_priceFor. unfold priceFor in Hno. split.
    + by apply cycle_silent.
    + by apply cycle_snap_noprice.
Qed.

(** C4, as the code has it. A change between two sizes that is not a
    flip, with a price (cached, or else from the market-data fallback):
    the cycle sends exactly one signal for the position.  Its action is
    add_long when the size grew to a positive one, reduce_short when it
    grew to a size that is not positive, add_short when it fell to a
    negative one, reduce_long when it fell to a size that is not
    negative; its notional is [|new - prev| * price].  Every other signal
    of the cycle is sent for another position key, so that none carries
    the symbol unless another key at hand converts to it (never so on
    OKX); the snapshot takes the new size.  The sizes here are numbers;
    for a size that is NaN see [nan_size_sends_nothing]. *)
Theorem change_emits_one_signal (w : World) (P : Provider) (equity : Q)
    (positions : gmap string PositionMeta) (sym : string)
    (meta : PositionMeta) (price : Q) :
  let prev := at0 (snapshot P) sym in
  reachesDiff w P equity positions ->
  positions !! sym = Some meta ->
  ~ (0 < prev /\ Size meta < 0) ->
  ~ (prev < 0 /\ 0 < Size meta) ->
  ~ Size meta == prev ->
  pricedAt w P sym price ->
  exists action pre post,
    (fetchAndEmit w P).2 =
      pre ++
      [ {| Symbol := currSym P sym; Action := action;
           NotionalUSD := Qabs (Size meta - prev) * price; Price := price;
           LeaderEquity := equity; LeaderLeverage := Leverage meta;
           MarginMode := PosMarginMode meta;
           Timestamp := time_Now w (length pre);
           DeltaSize := Size meta - prev; LeaderPosBefore := prev;
           LeaderPosAfter := Size meta |} ]
      ++ post
    /\ (prev < Size meta -> 0 < Size meta -> action = ActionAddLong)
    /\ (prev < Size meta -> Size meta <= 0 -> action = ActionReduceShort)
    /\ (Size meta < prev -> Size meta < 0 -> action = ActionAddShort)
    /\ (Size meta < prev -> 0 <= Size meta -> action = ActionReduceLong)
    /\ Forall (ofOtherKey P positions sym) (pre ++ post)
    /\ (keysApart P positions sym ->
        Forall (fun s => Symbol s ≠ currSym P sym) (pre ++ post))
    /\ snapshot (fetchAndEmit w P).1.2 !! sym = Some (Size meta).
Proof.
  intros prev Hreach Hsym Hn1 Hn2 Hne [Hpr Hprice]%pricedAt_priceFor.
  unfold priceFor in Hpr.
  destruct (cycle_diff w P equity positions Hreach) as (_ & -> & -> & _).
  destruct (diff_entry_keys w (currSym P) (closedPrice P) equity positions
              {| snap := snapshot P; cache := priceCache (afterFills w P);
                 calls := 0 |} sym meta Hsym)
    as (sa & pre & post & Hout & Hsnap & Hpc & Hcalls & Hfin & Hothers).
  cbn [snap cache calls] in *.
  apply at0_eq in Hsnap. specialize (Hpc (currSym P sym)).
  rewrite Hpr in Hpc.
  destruct (diffStep_change w (currSym P) equity sa (sym, meta))
    as (action & Hact & Hstep & Hsnap');
    cbn [fst snd]; rewrite ?Hsnap, ?Hpc; [done .. |].
  cbn [fst snd] in Hact, Hstep, Hsnap'.
  rewrite Hsnap in Hact. rewrite Hsnap, Hpc, Hcalls in Hstep.
  fold prev in Hact.
  exists action, pre, post. split; [by rewrite Hout, Hstep |].
  assert (Hcls := deriveActionFromDelta_cases prev (Size meta)).
  rewrite Hact in Hcls.
  repeat split.
  - intros H1 H2.
    destruct Hcls as [[_ ?] | [(_ & _ & ?) | [(_ & ? & ?) | [(? & _ & ?) | (? & _ & ?)]]]];
      try congruence; exfalso; lra.
  - intros H1 H2.
    destruct Hcls as [[_ ?] | [(_ & ? & ?) | [(_ & _ & ?) | [(? & _ & ?) | (? & _ & ?)]]]];
      try congruence; exfalso; lra.
  - intros H1 H2.
    destruct Hcls as [[_ ?] | [(? & _ & ?) | [(? & _ & ?) | [(_ & _ & ?) | (_ & ? & ?)]]]];
      try congruence; exfalso; lra.
  - intros H1 H2.
    destruct Hcls as [[_ ?] | [(? & _ & ?) | [(? & _ & ?) | [(_ & ? & ?) | (_ & _ & ?)]]]];
      try congruence; exfalso; lra.
  - exact Hothers.
  - intros Hapart. by apply (others_apart P positions sym).
  - rewrite Hfin, Hsnap'. apply lookup_insert_eq.
Qed.


(** ** The statements at work *)

Lemma nonpositive_equity_aborts_witness :
  let w := quietWorld (-5) ∅ ∅ in
  let P := okxLeader {[ "BTCUSDT"%string := 8 # 10 ]} ∅ in
  fetchedEquity w P = Ok (-5)
  /\ fetchAndEmit w P = (Some "okx equity invalid"%string, P, []).
Proof.
  intros w P. split; [reflexivity |].
  apply (nonpositive_equity_aborts w P (-5)).
  - by exists [].
  - reflexivity.
  - discriminate.
Defined.

(** C7 as the specification words it names one error text,
    [equity invalid]; the Hyperliquid provider returns another one. *)
Lemma equity_error_text_counterexample :
  let w := quietWorld 0 ∅ ∅ in
  fetchedEquity w (hlLeader ∅ ∅) = Ok 0
  /\ (fetchAndEmit w (hlLeader ∅ ∅)).1.1
     = Some "invalid Hyperliquid account value"%string
  /\ (fetchAndEmit w (hlLeader ∅ ∅)).1.1 ≠ Some "equity invalid"%string
  /\ (fetchAndEmit w (okxLeader ∅ ∅)).1.1 ≠ Some "equity invalid"%string.
Proof.
  intros w. split; [reflexivity |]. split; [reflexivity |].
  split; discriminate.
Qed.

Lemma first_poll_then_idle_witness :
  let positions : gmap string PositionMeta :=
    {[ "BTC"%string := cross (5 # 10) 10 ]} in
  let w := quietWorld 1000 positions ∅ in
  let cfg := {| Type_ := "hyperliquid_wallet"; Identifier := "0xleader";
                PollInterval := 0; HTTPClient := None |} in
  let P := HyperliquidProvider
             (Hyperliquid.newHyperliquidProvider "0xleader" (3 * Second)
                defaultClient) in
  (NewProvider cfg = Ok P /\ isInitialized P = false)
  /\ (fetchAndEmit w P).2 = []
  /\ snapshot (fetchAndEmit w P).1.2 = {[ "BTC"%string := 5 # 10 ]}
  /\ (fetchAndEmit w (fetchAndEmit w P).1.2).2 = [].
Proof.
  intros positions w cfg P.
  assert (Hnew : NewProvider cfg = Ok P) by reflexivity.
  split; [by split |].
  destruct (first_poll_then_idle w w P 1000 positions)
    as (H1 & _ & H3 & _ & _ & H4 & _); try reflexivity.
  - exact (reach_new cfg P Hnew).
  - by exists [].
  - split; [exact H1 |]. split; [| exact H4].
    rewrite H3. reflexivity.
Defined.

Lemma no_price_no_signal_witness :
  let positions : gmap string PositionMeta :=
    {[ "BTCUSDT"%string := cross (8 # 10) 10 ]} in
  let w := quietWorld 1000 positions ∅ in
  let P := okxLeader {[ "BTCUSDT"%string := 5 # 10 ]} ∅ in
  at0 (priceCache (afterFills w P)) "BTCUSDT" <= 0
  /\ Forall (fun s => Symbol s ≠ "BTCUSDT"%string) (fetchAndEmit w P).2
  /\ snapshot (fetchAndEmit w P).1.2 !! "BTCUSDT"%string = Some (5 # 10).
Proof.
  intros positions w P.
  assert (Hc : at0 (priceCache (afterFills w P)) "BTCUSDT" <= 0)
    by discriminate.
  split; [exact Hc |].
  apply (no_price_no_signal w P positions "BTCUSDT" (cross (8 # 10) 10));
    try reflexivity; [exact Hc |].
  intros md Hmd. discriminate Hmd.
Defined.

Lemma flip_emits_close_then_open_witness :
  let positions : gmap string PositionMeta :=
    {[ "BTCUSDT"%string := cross (- (2 # 10)) 10 ]} in
  let w := quietWorld 100000 positions {[ "BTCUSDT"%string := 60000 ]} in
  let P := okxLeader {[ "BTCUSDT"%string := 8 # 10 ]} ∅ in
  reachesDiff w P 100000 positions
  /\ (0 < at0 (snapshot P) "BTCUSDT" /\ - (2 # 10) < 0)
  /\ at0 (priceCache (afterFills w P)) "BTCUSDT" <= 0
  /\ market_Get w "BTCUSDT" = Ok {| CurrentPrice := 60000 |}
  /\ exists pre close open post,
       (fetchAndEmit w P).2 = pre ++ [close; open] ++ post
       /\ Action close = ActionCloseLong /\ Action open = ActionOpenShort
       /\ NotionalUSD close == 48000 /\ NotionalUSD open == 12000
       /\ Timestamp open = (Timestamp close + 1)%Z.
Proof.
  intros positions w P.
  assert (Hreach : reachesDiff w P 100000 positions).
  { split; [by exists [] |]. by repeat split. }
  assert (Hpos : 0 < at0 (snapshot P) "BTCUSDT") by reflexivity.
  assert (Hflip : 0 < at0 (snapshot P) "BTCUSDT" /\ - (2 # 10) < 0)
    by (by split).
  assert (Hcache : at0 (priceCache (afterFills w P)) "BTCUSDT" <= 0)
    by (by vm_compute).
  assert (Hmarket : market_Get w "BTCUSDT" = Ok {| CurrentPrice := 60000 |})
    by reflexivity.
  assert (Hprice : pricedAt w P "BTCUSDT" 60000).
  { by apply (priced_fallback w P "BTCUSDT" 60000 {| CurrentPrice := 60000 |}). }
  split; [exact Hreach |]. split; [exact Hflip |].
  split; [exact Hcache |]. split; [exact Hmarket |].
  destruct (flip_emits_close_then_open w P 100000 positions "BTCUSDT"
              (cross (- (2 # 10)) 10) Hreach eq_refl (or_introl Hflip))
    as [Hpriced _].
  destruct (Hpriced 60000 Hprice)
    as (ca & oa & pre & post & Hout & Hlong & _).
  destruct (Hlong Hpos) as [-> ->].
  eexists pre, _, _, post. split; [exact Hout |].
  repeat split; try reflexivity.
  cbn [Timestamp]. unfold w, quietWorld. cbn [time_Now]. lia.
Defined.

(** C2 as the specification words it fails twice. The two signals of a
    flip are stamped by two readings of the clock, which need not agree;
    and a flip for which no price can be found sends nothing at all. *)
Lemma flip_claim_counterexample :
  let positions : gmap string PositionMeta :=
    {[ "BTCUSDT"%string := cross (- (2 # 10)) 10 ]} in
  let w := quietWorld 100000 positions ∅ in
  let P := okxLeader {[ "BTCUSDT"%string := 8 # 10 ]}
                     {[ "BTCUSDT"%string := 60000 ]} in
  let P0 := okxLeader {[ "BTCUSDT"%string := 8 # 10 ]} ∅ in
  (0 < at0 (snapshot P) "BTCUSDT"
   /\ fetchedPositions w P = Ok positions
   /\ - (2 # 10) < 0)
  /\ (exists close open,
        (fetchAndEmit w P).2 = [close; open]
        /\ Action close = ActionCloseLong /\ Action open = ActionOpenShort
        /\ Timestamp close = 0%Z /\ Timestamp open = 1%Z
        /\ Timestamp close ≠ Timestamp open)
  /\ (fetchedPositions w P0 = Ok positions
      /\ snapshot P0 = snapshot P
      /\ (fetchAndEmit w P0).2 = []).
Proof.
  intros positions w P P0.
  split; [by repeat split |]. split.
  - eexists _, _. split; [vm_compute; reflexivity |].
    repeat split; discriminate.
  - repeat split; vm_compute; reflexivity.
Qed.

Lemma change_emits_one_signal_witness :
  let positions : gmap string PositionMeta :=
    {[ "BTC"%string := cross (8 # 10) 10;
       "BTCUSDT"%string := cross 3 5 ]} in
  let w := quietWorld 100000 positions {[ "BTCUSDT"%string := 60000 ]} in
  let P := hlLeader {[ "BTC"%string := 5 # 10; "BTCUSDT"%string := 1 ]} ∅ in
  reachesDiff w P 100000 positions
  /\ ~ (8 # 10) == at0 (snapshot P) "BTC"
  /\ at0 (priceCache (afterFills w P)) "BTCUSDT" <= 0
  /\ market_Get w "BTCUSDT" = Ok {| CurrentPrice := 60000 |}
  /\ length (fetchAndEmit w P).2 = 2%nat
  /\ exists s pre post,
       (fetchAndEmit w P).2 = pre ++ [s] ++ post
       /\ Symbol s = "BTCUSDT"%string
       /\ Action s = ActionAddLong
       /\ NotionalUSD s == 18000
       /\ LeaderPosBefore s == 5 # 10 /\ LeaderPosAfter s == 8 # 10.
Proof.
  intros positions w P.
  assert (Hreach : reachesDiff w P 100000 positions).
  { split; [by exists [] |]. by repeat split. }
  assert (Hne : ~ (8 # 10) == at0 (snapshot P) "BTC") by discriminate.
  assert (Hcache : at0 (priceCache (afterFills w P)) "BTCUSDT" <= 0)
    by (by vm_compute).
  assert (Hmarket : market_Get w "BTCUSDT" = Ok {| CurrentPrice := 60000 |})
    by reflexivity.
  assert (Hprice : pricedAt w P "BTC" 60000).
  { by apply (priced_fallback w P "BTC" 60000 {| CurrentPrice := 60000 |}). }
  split; [exact Hreach |]. split; [exact Hne |].
  split; [exact Hcache |]. split; [exact Hmarket |].
  split; [by vm_compute |].
  destruct (change_emits_one_signal w P 100000 positions "BTC"
              (cross (8 # 10) 10) 60000 Hreach eq_refl)
    as (action & pre & post & Hout & Hadd & _);
    [intros [_ H]; discriminate H | intros [H _]; discriminate H
    | exact Hne | exact Hprice |].
  eexists _, pre, post. split; [exact Hout |].
  split; [reflexivity |]. split; [| by repeat split].
  apply Hadd; reflexivity.
Defined.


(** * Further properties of the observers *)

(** ** What one iteration sends *)

Section StepMore.
Variable w : World.
Variable conv : string -> string.
Variable sp : Q -> Q.
Variable equity : Q.

#[local] Set Default Proof Using "Type".

Abbreviation diff := (diffStep w conv equity).
Abbreviation sweep := (sweepStep w conv sp equity).
Abbreviation price_in c k := (resolvePrice w k c).1.

Lemma Qabs_pos (x : Q) : ~ x == 0 -> 0 < Qabs x.
Proof.
  intros Hx. apply Qabs_case; intros H; [| lra].
  destruct (Qlt_le_dec 0 x) as [Hlt | Hle]; [exact Hlt |].
  exfalso. apply Hx. lra.
Qed.

Lemma notional_pos (x price : Q) : ~ x == 0 -> 0 < price -> 0 < Qabs x * price.
Proof.
  intros Hx Hp. apply Qabs_pos in Hx.
  by apply Qmult_lt_0_compat.
Qed.

(** The cache only ever receives positive prices. *)
Lemma resolvePrice_positive k c :
  (forall j x, c !! j = Some x -> 0 < x) ->
  forall j x, (resolvePrice w k c).2 !! j = Some x -> 0 < x.
Proof.
  intros Hc j x. unfold resolvePrice.
  destruct (Qle_bool (at0 c k) 0); [| apply Hc].
  destruct (market_Get w k) as [md |]; [| apply Hc].
  destruct (Qlt_bool 0 (CurrentPrice md)) eqn:Hp; [| apply Hc].
  cbn [snd]. rewrite lookup_insert. case_decide.
  - intros [= <-]. by apply Qlt_bool_iff.
  - apply Hc.
Qed.

Lemma diffStep_cache st e :
  cache (diff st e).1 = cache st
  \/ cache (diff st e).1 = (resolvePrice w (conv e.1) (cache st)).2.
Proof.
  unfold diffStep.
  destruct (Qeq_bool _ _); [by left |]. right.
  destruct (Qle_bool _ _); [done |].
  destruct (_ && _); [done |]. destruct (_ && _); [done |].
  by destruct (deriveActionFromDelta _ _).
Qed.

Lemma sweepStep_cache pos st e :
  cache (sweep pos st e).1 = cache st
  \/ cache (sweep pos st e).1 = (resolvePrice w (conv e.1) (cache st)).2.
Proof.
  unfold sweepStep. destruct (pos !! e.1); [by left |].
  destruct (Qeq_bool _ _); [by left |]. right.
  by destruct (Qle_bool _ _).
Qed.

Lemma diffStep_positive st e :
  0 < equity ->
  Forall (fun s => 0 < NotionalUSD s /\ 0 < LeaderEquity s /\ 0 < Price s)
         (diff st e).2.
Proof.
  intros Heq. unfold diffStep.
  set (prev := at0 (snap st) e.1).
  set (price := (resolvePrice w (conv e.1) (cache st)).1).
  destruct (Qeq_bool (Size e.2 - prev) 0) eqn:Hd; [constructor |].
  destruct (Qle_bool price 0) eqn:Hp; [constructor |].
  apply Qle_bool_false in Hp. apply Qeq_bool_false in Hd.
  assert (Hdelta : ~ Size e.2 - prev == 0) by exact Hd.
  destruct (Qlt_bool 0 prev && Qlt_bool (Size e.2) 0) eqn:F1.
  { qprop. repeat constructor; cbn [NotionalUSD LeaderEquity Price]; try assumption;
      apply notional_pos; try assumption; lra. }
  destruct (Qlt_bool prev 0 && Qlt_bool 0 (Size e.2)) eqn:F2.
  { qprop. repeat constructor; cbn [NotionalUSD LeaderEquity Price]; try assumption;
      apply notional_pos; try assumption; lra. }
  destruct (deriveActionFromDelta prev (Size e.2)); [| constructor].
  repeat constructor; cbn [NotionalUSD LeaderEquity Price]; try assumption. by apply notional_pos.
Qed.

Lemma sweepStep_positive pos st e :
  0 < equity ->
  (forall x, 0 < x -> 0 <= sp x) ->
  Forall (fun s => 0 < NotionalUSD s /\ 0 < LeaderEquity s /\ 0 <= Price s)
         (sweep pos st e).2.
Proof.
  intros Heq Hsp. unfold sweepStep. destruct (pos !! e.1); [constructor |].
  destruct (Qeq_bool e.2 0) eqn:H0; [constructor |].
  destruct (Qle_bool _ 0) eqn:Hp; [constructor |].
  apply Qle_bool_false in Hp. apply Qeq_bool_false in H0.
  repeat constructor; cbn [NotionalUSD LeaderEquity Price]; try assumption.
  - by apply notional_pos.
  - by apply Hsp.
Qed.

(** The [i]-th signal of an iteration is stamped with the [i]-th clock
    reading after those taken before. *)
Lemma diffStep_stamps st e i s :
  (diff st e).2 !! i = Some s -> Timestamp s = time_Now w (calls st + i).
Proof.
  unfold diffStep.
  destruct (Qeq_bool _ _); [done |].
  destruct (Qle_bool _ _); [done |].
  destruct (_ && _).
  { destruct i as [| [| i]]; cbn; intros [= <-]; cbn; f_equal; lia. }
  destruct (_ && _).
  { destruct i as [| [| i]]; cbn; intros [= <-]; cbn; f_equal; lia. }
  destruct (deriveActionFromDelta _ _); [| done].
  destruct i as [| i]; cbn; intros [= <-]; cbn; f_equal; lia.
Qed.

Lemma sweepStep_stamps pos st e i s :
  (sweep pos st e).2 !! i = Some s -> Timestamp s = time_Now w (calls st + i).
Proof.
  unfold sweepStep. destruct (pos !! e.1); [done |].
  destruct (Qeq_bool _ _); [done |].
  destruct (Qle_bool _ _); [done |].
  destruct i as [| i]; cbn; intros [= <-]; cbn; f_equal; lia.
Qed.

(** With a price, the visit of a fetched key leaves its size in the
    snapshot. *)
Lemma diffStep_catchup st e :
  0 < price_in (cache st) (conv e.1) ->
  at0 (snap (diff st e).1) e.1 == Size e.2.
Proof.
  intros Hp. unfold diffStep.
  destruct (Qeq_bool (Size e.2 - at0 (snap st) e.1) 0) eqn:Hd.
  { qprop. cbn [fst]. lra. }
  destruct (Qle_bool _ 0) eqn:Hq; [qprop; lra |].
  assert (Hin : at0 (<[e.1 := Size e.2]> (snap st)) e.1 == Size e.2).
  { unfold at0. rewrite lookup_insert_eq. reflexivity. }
  destruct (_ && _); [exact Hin |]. destruct (_ && _); [exact Hin |].
  destruct (deriveActionFromDelta _ _); exact Hin.
Qed.

Lemma closeBefore_derive prev curr a :
  deriveActionFromDelta prev curr = Some a -> closeBefore a = None.
Proof.
  unfold deriveActionFromDelta.
  destruct (Qeq_bool _ _); [done |].
  destruct (Qlt_bool prev curr).
  { destruct (Qlt_bool 0 curr); by intros [= <-]. }
  destruct (Qlt_bool curr prev); [| done].
  destruct (Qlt_bool curr 0); by intros [= <-].
Qed.

Lemma diffStep_paired st e : flipPaired (diff st e).2.
Proof.
  unfold diffStep, flipPaired.
  destruct (Qeq_bool _ _); [by intros [] |].
  destruct (Qle_bool _ _); [by intros [] |].
  destruct (_ && _).
  { intros [| [| i]] s c; cbn; intros [= <-]; cbn; intros [= <-].
    eexists 0%nat, _. by repeat split. }
  destruct (_ && _).
  { intros [| [| i]] s c; cbn; intros [= <-]; cbn; intros [= <-].
    eexists 0%nat, _. by repeat split. }
  destruct (deriveActionFromDelta _ _) as [a |] eqn:Ha; [| by intros []].
  intros [| i] s c; cbn; intros [= <-]; cbn.
  by rewrite (closeBefore_derive _ _ _ Ha).
Qed.

Lemma sweepStep_paired pos st e : flipPaired (sweep pos st e).2.
Proof.
  unfold sweepStep, flipPaired. destruct (pos !! e.1); [by intros [] |].
  destruct (Qeq_bool _ _); [by intros [] |].
  destruct (Qle_bool _ _); [by intros [] |].
  intros [| i] s c; cbn; intros [= <-]; cbn.
  by destruct (Qlt_bool e.2 0).
Qed.


End StepMore.

Lemma flipPaired_nil : flipPaired [].
Proof. by intros []. Qed.

Lemma flipPaired_app (l1 l2 : list Signal) :
  flipPaired l1 -> flipPaired l2 -> flipPaired (l1 ++ l2).
Proof.
  intros H1 H2 i s c Hi Hc.
  apply lookup_app_Some in Hi as [Hi | [Hge Hi]].
  - destruct (H1 i s c Hi Hc) as (j & s' & -> & Hj & Hrest).
    exists j, s'. split; [done |]. split; [| done].
    by apply lookup_app_l_Some.
  - destruct (H2 _ s c Hi Hc) as (j & s' & Hij & Hj & Hrest).
    exists (length l1 + j)%nat, s'. split; [lia |]. split; [| done].
    rewrite lookup_app_r by lia.
    replace (length l1 + j - length l1)%nat with j by lia. done.
Qed.

(** ** What a whole cycle sends *)

Section LoopMore.
Context {A : Type}.
Variable w : World.
Variable step : Ledger -> A -> Ledger * list Signal.

#[local] Set Default Proof Using "Type".

Lemma runLoop_stamps l st :
  (forall st x, calls (step st x).1 = (calls st + length (step st x).2)%nat) ->
  (forall st x i s, (step st x).2 !! i = Some s ->
                    Timestamp s = time_Now w (calls st + i)) ->
  forall i s, (runLoop step st l).2 !! i = Some s ->
              Timestamp s = time_Now w (calls st + i).
Proof.
  intros Hcalls Hstep. revert st.
  induction l as [| x l IH]; intros st i s; cbn [runLoop snd]; [done |].
  intros Hi. apply lookup_app_Some in Hi as [Hi | [Hge Hi]].
  - by apply (Hstep st x).
  - apply IH in Hi. rewrite Hi, Hcalls. f_equal. lia.
Qed.

Lemma runLoop_paired l st :
  (forall st x, flipPaired (step st x).2) ->
  flipPaired (runLoop step st l).2.
Proof.
  intros Hstep. revert st.
  induction l as [| x l IH]; intros st; cbn [runLoop snd].
  - apply flipPaired_nil.
  - apply flipPaired_app; [apply Hstep | apply IH].
Qed.

End LoopMore.

Section CycleMore.
Variable w : World.
Variable conv : string -> string.
Variable sp : Q -> Q.
Variable equity : Q.
Variable positions : gmap string PositionMeta.

#[local] Set Default Proof Using "Type".

Abbreviation diff := (diffStep w conv equity).
Abbreviation sweep := (sweepStep w conv sp equity positions).
Abbreviation price_in c k := (resolvePrice w k c).1.
Abbreviation cycle := (diffPositions w conv sp equity positions).

Lemma cycle_cache_positive st :
  (forall j x, cache st !! j = Some x -> 0 < x) ->
  forall j x, cache (cycle st).1 !! j = Some x -> 0 < x.
Proof.
  intros Hst. unfold diffPositions. cbn [fst].
  apply (runLoop_inv sweep
           (fun st' => forall j x, cache st' !! j = Some x -> 0 < x)).
  { intros st' e _ Hc.
    destruct (sweepStep_cache w conv sp equity positions st' e) as [-> | ->];
      [done | by apply resolvePrice_positive]. }
  apply (runLoop_inv diff
           (fun st' => forall j x, cache st' !! j = Some x -> 0 < x));
    [| done].
  intros st' e _ Hc.
  destruct (diffStep_cache w conv equity st' e) as [-> | ->];
    [done | by apply resolvePrice_positive].
Qed.

Lemma cycle_signals_positive st :
  0 < equity ->
  (forall x, 0 < x -> 0 <= sp x) ->
  Forall (fun s => 0 < NotionalUSD s /\ 0 < LeaderEquity s /\ 0 <= Price s)
         (cycle st).2.
Proof.
  intros Heq Hsp. unfold diffPositions. cbn [snd]. apply Forall_app. split.
  - apply runLoop_Forall. intros st' e _.
    eapply Forall_impl; [by apply diffStep_positive |].
    intros s (? & ? & ?). repeat split; try done. lra.
  - apply runLoop_Forall. intros st' e _. by apply sweepStep_positive.
Qed.

Lemma cycle_stamps st i s :
  (cycle st).2 !! i = Some s -> Timestamp s = time_Now w (calls st + i).
Proof.
  unfold diffPositions. cbn [snd]. intros Hi.
  apply lookup_app_Some in Hi as [Hi | [Hge Hi]].
  - revert Hi. apply (runLoop_stamps w diff).
    + intros. apply diffStep_calls.
    + intros st' e. apply diffStep_stamps.
  - apply (runLoop_stamps w sweep) in Hi.
    + rewrite Hi. rewrite (runLoop_calls diff)
        by (intros; apply diffStep_calls).
      f_equal. lia.
    + intros. apply sweepStep_calls.
    + intros st' e. apply sweepStep_stamps.
Qed.

Lemma cycle_paired st : flipPaired (cycle st).2.
Proof.
  unfold diffPositions. cbn [snd]. apply flipPaired_app.
  - apply runLoop_paired. intros. apply diffStep_paired.
  - apply runLoop_paired. intros. apply sweepStep_paired.
Qed.

(** After the cycle the snapshot has no key that was not fetched. *)
Lemma cycle_keys_fetched st k :
  positions !! k = None -> snap (cycle st).1 !! k = None.
Proof.
  intros Hk. destruct (snap st !! k) as [prev |] eqn:Hs.
  - destruct (sweep_entry w conv sp equity positions st k prev Hs Hk)
      as (_ & _ & _ & _ & _ & _ & H & _). exact H.
  - unfold diffPositions. cbn [fst]. apply sweep_loop_snap_gone.
    by rewrite diff_loop_snap_absent.
Qed.

Lemma cycle_catchup st sym meta :
  positions !! sym = Some meta ->
  0 < price_in (cache st) (conv sym) ->
  at0 (snap (cycle st).1) sym == Size meta.
Proof.
  intros Hsym Hp.
  destruct (diff_entry w conv sp equity positions st sym meta Hsym)
    as (sa & pre & post & _ & _ & Hpr & _ & Hfin & _).
  rewrite (at0_eq _ _ _ Hfin).
  apply (diffStep_catchup w conv equity sa (sym, meta)).
  cbn [fst]. by rewrite Hpr.
Qed.

(** Every signal carries the symbol of a key that was fetched or that
    the snapshot held. *)
Lemma cycle_symbols st :
  Forall (fun s => exists k,
            (is_Some (positions !! k) \/ is_Some (snap st !! k))
            /\ Symbol s = conv k)
         (cycle st).2.
Proof.
  unfold diffPositions. cbn [snd]. apply Forall_app. split.
  - apply runLoop_Forall. intros st' e He.
    eapply Forall_impl; [apply diffStep_symbol |].
    intros s Hs. exists e.1. split; [left | done].
    apply (range_elem' _ _ (range_positions_perm w positions)) in He.
    by rewrite He.
  - apply runLoop_Forall. intros st' e He.
    eapply Forall_impl; [apply sweepStep_symbol |].
    intros s [Hs Hn]. exists e.1. split; [right | done].
    apply (range_elem' _ _ (range_snapshot_perm w _)) in He.
    rewrite diff_loop_snap_absent in He by done. by rewrite He.
Qed.


End CycleMore.

(** ** Ingesting fills *)

Lemma foldl_inv {A B : Type} (f : A -> B -> A) (I : A -> Prop)
    (l : list B) (a : A) :
  (forall a x, x ∈ l -> I a -> I (f a x)) -> I a -> I (foldl f a l).
Proof.
  revert a. induction l as [| x l IH]; intros a Hf Ha; [done |].
  cbn [foldl]. apply IH.
  - intros a' y Hy. apply Hf. by right.
  - apply Hf; [by left | done].
Qed.

Lemma insertBy_perm {A : Type} (less : A -> A -> bool) (x : A) (l : list A) :
  insertBy less x l ≡ₚ x :: l.
Proof.
  induction l as [| y l IH]; [done |]. cbn [insertBy].
  destruct (less y x); [| done].
  rewrite IH. apply Permutation_swap.
Qed.

(** Sorting keeps the elements. *)
Lemma sortSlice_perm {A : Type} (less : A -> A -> bool) (l : list A) :
  sortSlice less l ≡ₚ l.
Proof.
  unfold sortSlice. induction l as [| x l IH]; [done |].
  cbn [foldr]. by rewrite insertBy_perm, IH.
Qed.

(** The Hyperliquid loop over fills: what it keeps, how far the cursor
    goes, where cached prices come from. *)
Lemma hl_ingestFill_inv w p0 (fills : list hyperliquidFill) st fill :
  let I := fun st : Hyperliquid.provider * Z =>
    Hyperliquid.user st.1 = Hyperliquid.user p0
    /\ Hyperliquid.pollInterval st.1 = Hyperliquid.pollInterval p0
    /\ Hyperliquid.client st.1 = Hyperliquid.client p0
    /\ (Hyperliquid.lastTID p0 <= Hyperliquid.lastTID st.1)%Z
    /\ (Hyperliquid.lastTID p0 <= st.2)%Z
    /\ (Hyperliquid.lastTID st.1 = Hyperliquid.lastTID p0
        \/ exists f, f ∈ fills /\ Hyperliquid.lastTID st.1 = TID f)
    /\ (st.2 = Hyperliquid.lastTID p0 \/ exists f, f ∈ fills /\ st.2 = TID f)
    /\ (forall k x, Hyperliquid.lastPrices st.1 !! k = Some x ->
          Hyperliquid.lastPrices p0 !! k = Some x
          \/ exists f, f ∈ fills
               /\ convertHyperliquidSymbol (Coin f) = k
               /\ Hyperliquid.price w f = x /\ 0 < x
               /\ (Hyperliquid.lastTID p0 < TID f)%Z) in
  fill ∈ fills -> I st -> I (Hyperliquid.ingestFill w st fill).
Proof.
  intros I Hin (Hu & Hpi & Hc & Hmono & Hmax & Hcur & Hmx & Hprov).
  unfold I, Hyperliquid.ingestFill.
  destruct (TID fill <=? Hyperliquid.lastTID st.1)%Z eqn:Hle; [done |].
  apply Z.leb_gt in Hle.
  destruct (String.eqb _ _) eqn:Hsym; cbn [fst snd].
  { cbn. repeat split; try done; try lia. right. by exists fill. }
  apply String.eqb_neq in Hsym.
  assert (Hmx' : (Hyperliquid.lastTID p0
                  <= if (st.2 <? TID fill)%Z then TID fill else st.2)%Z
                 /\ ((if (st.2 <? TID fill)%Z then TID fill else st.2)
                     = Hyperliquid.lastTID p0
                     \/ exists f, f ∈ fills
                          /\ (if (st.2 <? TID fill)%Z then TID fill else st.2)
                             = TID f)).
  { destruct (st.2 <? TID fill)%Z eqn:E; [| done].
    split; [lia |]. right. by exists fill. }
  destruct Hmx' as [Hmx1 Hmx2].
  destruct (Qlt_bool 0 (Hyperliquid.price w fill)) eqn:Hpx; cbn;
    repeat split; try done.
  intros k x. rewrite lookup_insert. case_decide as Hk.
  - intros [= <-]. right. exists fill.
    repeat split; try done; [by apply Qlt_bool_iff | lia].
  - apply Hprov.
Qed.

Lemma hl_ingestFill_high w st fill (bound : Z) :
  (TID fill <= Z.max (Hyperliquid.lastTID
                        (Hyperliquid.ingestFill w st fill).1)
                     (Hyperliquid.ingestFill w st fill).2)%Z
  /\ ((bound <= Z.max (Hyperliquid.lastTID st.1) st.2)%Z ->
      (bound <= Z.max (Hyperliquid.lastTID
                         (Hyperliquid.ingestFill w st fill).1)
                      (Hyperliquid.ingestFill w st fill).2)%Z).
Proof.
  unfold Hyperliquid.ingestFill.
  destruct (TID fill <=? Hyperliquid.lastTID st.1)%Z eqn:Hle.
  { apply Z.leb_le in Hle. split; [lia | done]. }
  apply Z.leb_gt in Hle.
  destruct (String.eqb _ _); cbn [fst snd].
  { cbn. split; lia. }
  destruct (Qlt_bool _ _); cbn;
    destruct (st.2 <? TID fill)%Z eqn:E;
    try apply Z.ltb_lt in E; try apply Z.ltb_ge in E; split; lia.
Qed.

Lemma hl_ingestFills_final w p fills :
  let st := foldl (Hyperliquid.ingestFill w) (p, Hyperliquid.lastTID p)
                  (sortSlice Hyperliquid.less fills) in
  Hyperliquid.lastTID (Hyperliquid.ingestFills w p fills)
    = Z.max (Hyperliquid.lastTID st.1) st.2
  /\ Hyperliquid.lastPrices (Hyperliquid.ingestFills w p fills)
     = Hyperliquid.lastPrices st.1
  /\ Hyperliquid.user (Hyperliquid.ingestFills w p fills)
     = Hyperliquid.user st.1
  /\ Hyperliquid.pollInterval (Hyperliquid.ingestFills w p fills)
     = Hyperliquid.pollInterval st.1
  /\ Hyperliquid.client (Hyperliquid.ingestFills w p fills)
     = Hyperliquid.client st.1.
Proof.
  intros st. unfold Hyperliquid.ingestFills. fold st.
  destruct (Hyperliquid.lastTID st.1 <? st.2)%Z eqn:E; cbn.
  - apply Z.ltb_lt in E. repeat split. lia.
  - apply Z.ltb_ge in E. repeat split. lia.
Qed.

(** After the loop the cursor is at or past every fill. *)
Lemma hl_ingestFills_high w p fills f :
  f ∈ fills -> (TID f <= Hyperliquid.lastTID (Hyperliquid.ingestFills w p fills))%Z.
Proof.
  intros Hf. destruct (hl_ingestFills_final w p fills) as [-> _].
  rewrite <- (sortSlice_perm Hyperliquid.less fills) in Hf.
  revert Hf. generalize (p, Hyperliquid.lastTID p).
  induction (sortSlice Hyperliquid.less fills) as [| x l IH]; intros st Hf.
  { by apply elem_of_nil in Hf. }
  cbn [foldl]. apply elem_of_cons in Hf as [-> | Hf]; [| by apply IH].
  apply (foldl_inv (Hyperliquid.ingestFill w)
           (fun st' => (TID x <= Z.max (Hyperliquid.lastTID st'.1) st'.2)%Z)).
  - intros a y _. apply hl_ingestFill_high.
  - apply (hl_ingestFill_high w st x 0).
Qed.

Lemma hl_ingestFills_inv w p fills :
  let p' := Hyperliquid.ingestFills w p fills in
  Hyperliquid.user p' = Hyperliquid.user p
  /\ Hyperliquid.pollInterval p' = Hyperliquid.pollInterval p
  /\ Hyperliquid.client p' = Hyperliquid.client p
  /\ (Hyperliquid.lastTID p <= Hyperliquid.lastTID p')%Z
  /\ (Hyperliquid.lastTID p' = Hyperliquid.lastTID p
      \/ exists f, f ∈ fills /\ Hyperliquid.lastTID p' = TID f)
  /\ (forall k x, Hyperliquid.lastPrices p' !! k = Some x ->
        Hyperliquid.lastPrices p !! k = Some x
        \/ exists f, f ∈ fills
             /\ convertHyperliquidSymbol (Coin f) = k
             /\ Hyperliquid.price w f = x /\ 0 < x
             /\ (Hyperliquid.lastTID p < TID f)%Z).
Proof.
  intros p'.
  destruct (hl_ingestFills_final w p fills) as (Ht & Hp & Hu & Hpi & Hc).
  fold p' in Ht, Hp, Hu, Hpi, Hc. rewrite Ht, Hp, Hu, Hpi, Hc.
  pose proof (foldl_inv (Hyperliquid.ingestFill w) _
                (sortSlice Hyperliquid.less fills)
                (p, Hyperliquid.lastTID p)
                (fun a x Hx => hl_ingestFill_inv w p fills a x
                   (proj1 (elem_of_Permutation_proper _ _ _
                             (sortSlice_perm _ fills)) Hx)))
    as Hinv.
  cbn beta in Hinv.
  destruct Hinv as (Hu' & Hpi' & Hc' & Hmono & Hmax & Hcur & Hmx & Hprov).
  { cbn. repeat split; try done; try lia; by left. }
  repeat split; try done; try lia.
  destruct (Z.max_spec (Hyperliquid.lastTID
                          (foldl (Hyperliquid.ingestFill w)
                             (p, Hyperliquid.lastTID p)
                             (sortSlice Hyperliquid.less fills)).1)
              (foldl (Hyperliquid.ingestFill w)
                 (p, Hyperliquid.lastTID p)
                 (sortSlice Hyperliquid.less fills)).2)
    as [[_ ->] | [_ ->]]; done.
Qed.

(** Fills at or before the cursor are passed over. *)
Lemma hl_ingestFills_stale w p fills :
  (forall f, f ∈ fills -> (TID f <= Hyperliquid.lastTID p)%Z) ->
  Hyperliquid.ingestFills w p fills = p.
Proof.
  intros Hstale. unfold Hyperliquid.ingestFills.
  assert (Hfold : foldl (Hyperliquid.ingestFill w) (p, Hyperliquid.lastTID p)
                        (sortSlice Hyperliquid.less fills)
                  = (p, Hyperliquid.lastTID p)).
  { apply (foldl_inv (Hyperliquid.ingestFill w)
             (fun st => st = (p, Hyperliquid.lastTID p))); [| done].
    intros a x Hx ->. unfold Hyperliquid.ingestFill. cbn [fst snd].
    rewrite (sortSlice_perm _ fills) in Hx. apply Hstale in Hx.
    apply Z.leb_le in Hx. by rewrite Hx. }
  rewrite Hfold. cbn [fst snd]. by rewrite Z.ltb_irrefl.
Qed.

(** The OKX loop over trades. *)
Lemma okx_ingestTrade_inv w p0 (trades : list okxTradeRecord) st trade :
  let I := fun st : OKX.provider * Z =>
    OKX.uniqueName st.1 = OKX.uniqueName p0
    /\ OKX.pollInterval st.1 = OKX.pollInterval p0
    /\ OKX.client st.1 = OKX.client p0
    /\ OKX.lastFillTime st.1 = OKX.lastFillTime p0
    /\ (OKX.lastFillTime p0 <= st.2)%Z
    /\ (st.2 = OKX.lastFillTime p0 \/ exists t, t ∈ trades /\ st.2 = FillTime t)
    /\ (forall k x, OKX.lastPrices st.1 !! k = Some x ->
          OKX.lastPrices p0 !! k = Some x
          \/ exists t, t ∈ trades
               /\ formatOKXSymbol (InstID t) = k
               /\ strconv_ParseFloat w (AvgPx t) = x /\ 0 < x
               /\ (OKX.lastFillTime p0 < FillTime t)%Z) in
  trade ∈ trades -> I st -> I (OKX.ingestTrade w st trade).
Proof.
  intros I Hin (Hu & Hpi & Hc & Hcur & Hmax & Hmx & Hprov).
  unfold I, OKX.ingestTrade.
  destruct (FillTime trade <=? OKX.lastFillTime st.1)%Z eqn:Hle; [done |].
  apply Z.leb_gt in Hle.
  destruct (String.eqb _ _) eqn:Hsym; [done |]. cbn [fst snd].
  assert (Hmx' : (OKX.lastFillTime p0
                  <= if (st.2 <? FillTime trade)%Z then FillTime trade
                     else st.2)%Z
                 /\ ((if (st.2 <? FillTime trade)%Z then FillTime trade
                      else st.2) = OKX.lastFillTime p0
                     \/ exists t, t ∈ trades
                          /\ (if (st.2 <? FillTime trade)%Z
                              then FillTime trade else st.2) = FillTime t)).
  { destruct (st.2 <? FillTime trade)%Z eqn:E; [| done].
    split; [lia |]. right. by exists trade. }
  destruct Hmx' as [Hmx1 Hmx2].
  destruct (Qlt_bool 0 (strconv_ParseFloat w (AvgPx trade))) eqn:Hpx; cbn;
    repeat split; try done.
  intros k x. rewrite lookup_insert. case_decide as Hk.
  - intros [= <-]. right. exists trade.
    repeat split; try done; [by apply Qlt_bool_iff | lia].
  - apply Hprov.
Qed.

Lemma okx_ingestTrade_high w st trade (bound : Z) :
  (formatOKXSymbol (InstID trade) ≠ ""%string ->
   (FillTime trade <= Z.max (OKX.lastFillTime st.1)
                            (OKX.ingestTrade w st trade).2)%Z)
  /\ OKX.lastFillTime (OKX.ingestTrade w st trade).1 = OKX.lastFillTime st.1
  /\ ((bound <= st.2)%Z -> (bound <= (OKX.ingestTrade w st trade).2)%Z).
Proof.
  unfold OKX.ingestTrade.
  destruct (FillTime trade <=? OKX.lastFillTime st.1)%Z eqn:Hle.
  { apply Z.leb_le in Hle. repeat split; [lia | done]. }
  apply Z.leb_gt in Hle.
  destruct (String.eqb _ _) eqn:Hsym.
  { apply String.eqb_eq in Hsym. repeat split; done. }
  destruct (Qlt_bool _ _); cbn;
    destruct (st.2 <? FillTime trade)%Z eqn:E;
    try apply Z.ltb_lt in E; try apply Z.ltb_ge in E; repeat split; lia.
Qed.

Lemma okx_ingestTrades_final w p trades :
  let st := foldl (OKX.ingestTrade w) (p, OKX.lastFillTime p)
                  (sortSlice OKX.less trades) in
  OKX.lastFillTime (OKX.ingestTrades w p trades)
    = Z.max (OKX.lastFillTime st.1) st.2
  /\ OKX.lastPrices (OKX.ingestTrades w p trades) = OKX.lastPrices st.1
  /\ OKX.uniqueName (OKX.ingestTrades w p trades) = OKX.uniqueName st.1
  /\ OKX.pollInterval (OKX.ingestTrades w p trades) = OKX.pollInterval st.1
  /\ OKX.client (OKX.ingestTrades w p trades) = OKX.client st.1.
Proof.
  intros st. unfold OKX.ingestTrades. fold st.
  destruct (OKX.lastFillTime st.1 <? st.2)%Z eqn:E; cbn.
  - apply Z.ltb_lt in E. repeat split. lia.
  - apply Z.ltb_ge in E. repeat split. lia.
Qed.

Lemma okx_ingestTrades_inv w p trades :
  let p' := OKX.ingestTrades w p trades in
  OKX.uniqueName p' = OKX.uniqueName p
  /\ OKX.pollInterval p' = OKX.pollInterval p
  /\ OKX.client p' = OKX.client p
  /\ (OKX.lastFillTime p <= OKX.lastFillTime p')%Z
  /\ (OKX.lastFillTime p' = OKX.lastFillTime p
      \/ exists t, t ∈ trades /\ OKX.lastFillTime p' = FillTime t)
  /\ (forall k x, OKX.lastPrices p' !! k = Some x ->
        OKX.lastPrices p !! k = Some x
        \/ exists t, t ∈ trades
             /\ formatOKXSymbol (InstID t) = k
             /\ strconv_ParseFloat w (AvgPx t) = x /\ 0 < x
             /\ (OKX.lastFillTime p < FillTime t)%Z).
Proof.
  intros p'.
  destruct (okx_ingestTrades_final w p trades) as (Ht & Hp & Hu & Hpi & Hc).
  fold p' in Ht, Hp, Hu, Hpi, Hc. rewrite Ht, Hp, Hu, Hpi, Hc.
  pose proof (foldl_inv (OKX.ingestTrade w) _
                (sortSlice OKX.less trades) (p, OKX.lastFillTime p)
                (fun a x Hx => okx_ingestTrade_inv w p trades a x
                   (proj1 (elem_of_Permutation_proper _ _ _
                             (sortSlice_perm _ trades)) Hx)))
    as Hinv.
  cbn beta in Hinv.
  destruct Hinv as (Hu' & Hpi' & Hc' & Hcur & Hmax & Hmx & Hprov).
  { cbn. repeat split; try done; try lia; by left. }
  rewrite Hcur. repeat split; try done; try lia.
  destruct (Z.max_spec (OKX.lastFillTime p)
              (foldl (OKX.ingestTrade w) (p, OKX.lastFillTime p)
                 (sortSlice OKX.less trades)).2)
    as [[_ ->] | [_ ->]]; [done | by left].
Qed.

(** After the loop the cursor is at or past every trade that names an
    instrument. *)
Lemma okx_ingestTrades_high w p trades t :
  t ∈ trades -> formatOKXSymbol (InstID t) ≠ ""%string ->
  (FillTime t <= OKX.lastFillTime (OKX.ingestTrades w p trades))%Z.
Proof.
  intros Ht Hsym. destruct (okx_ingestTrades_final w p trades) as [-> _].
  rewrite <- (sortSlice_perm OKX.less trades) in Ht.
  assert (Hcur : forall l st,
             OKX.lastFillTime (foldl (OKX.ingestTrade w) st l).1
             = OKX.lastFillTime st.1).
  { induction l as [| x l IH]; intros st; [done |]. cbn [foldl].
    rewrite IH. apply (okx_ingestTrade_high w st x 0). }
  rewrite Hcur. cbn [fst].
  revert Ht.
  assert (Hgen : forall l st, OKX.lastFillTime st.1 = OKX.lastFillTime p ->
             t ∈ l ->
             (FillTime t <= Z.max (OKX.lastFillTime p)
                                  (foldl (OKX.ingestTrade w) st l).2)%Z).
  { induction l as [| x l IH]; intros st Hst Ht.
    { by apply elem_of_nil in Ht. }
    cbn [foldl]. apply elem_of_cons in Ht as [-> | Ht].
    - destruct (okx_ingestTrade_high w st x 0) as (Hhigh & _ & _).
      specialize (Hhigh Hsym). rewrite Hst in Hhigh.
      destruct (Z.le_gt_cases (FillTime x) (OKX.lastFillTime p)); [lia |].
      assert (Hb : (FillTime x <= (OKX.ingestTrade w st x).2)%Z) by lia.
      assert (Hm : (FillTime x
                    <= (foldl (OKX.ingestTrade w)
                          (OKX.ingestTrade w st x) l).2)%Z).
      { apply (foldl_inv (OKX.ingestTrade w)
                 (fun st' => (FillTime x <= st'.2)%Z)); [| done].
        intros a y _. apply okx_ingestTrade_high. }
      lia.
    - apply IH; [| done].
      destruct (okx_ingestTrade_high w st x 0) as (_ & -> & _). done. }
  intros Ht. by apply Hgen.
Qed.

(** Trades at or before the cursor, and trades that name no instrument,
    are passed over. *)
Lemma okx_ingestTrades_stale w p trades :
  (forall t, t ∈ trades ->
     (FillTime t <= OKX.lastFillTime p)%Z
     \/ formatOKXSymbol (InstID t) = ""%string) ->
  OKX.ingestTrades w p trades = p.
Proof.
  intros Hstale. unfold OKX.ingestTrades.
  assert (Hfold : foldl (OKX.ingestTrade w) (p, OKX.lastFillTime p)
                        (sortSlice OKX.less trades)
                  = (p, OKX.lastFillTime p)).
  { apply (foldl_inv (OKX.ingestTrade w)
             (fun st => st = (p, OKX.lastFillTime p))); [| done].
    intros a x Hx ->. unfold OKX.ingestTrade. cbn [fst snd].
    rewrite (sortSlice_perm _ trades) in Hx.
    destruct (FillTime x <=? OKX.lastFillTime p)%Z eqn:E; [done |].
    apply Z.leb_gt in E.
    destruct (Hstale x Hx) as [H | ->]; [lia | done]. }
  rewrite Hfold. cbn [fst snd]. by rewrite Z.ltb_irrefl.
Qed.

(** ** The poll cycle as a whole *)

(** Fill ingestion, whatever the venue. *)
Lemma afterFills_frame w P :
  snapshot (afterFills w P) = snapshot P
  /\ isInitialized (afterFills w P) = isInitialized P
  /\ providerIdentifier (afterFills w P) = providerIdentifier P
  /\ providerInterval (afterFills w P) = providerInterval P
  /\ providerClient (afterFills w P) = providerClient P
  /\ (fillCursor P <= fillCursor (afterFills w P))%Z
  /\ ((forall k x, priceCache P !! k = Some x -> 0 < x) ->
      forall k x, priceCache (afterFills w P) !! k = Some x -> 0 < x).
Proof.
  destruct P as [p | p]; cbn.
  - destruct (hl_userFills w (Hyperliquid.user p)) as [fills |];
      [| by repeat split].
    cbn. destruct (hl_ingestFills_frame w p fills) as [-> ->].
    destruct (hl_ingestFills_inv w p fills)
      as (-> & -> & -> & Hmono & _ & Hprov).
    repeat split; try done.
    intros Hpos k x Hk. destruct (Hprov k x Hk) as [H | (f & _ & _ & _ & H & _)];
      [by apply (Hpos k) | done].
  - destruct (okx_tradeRecords w (OKX.uniqueName p)) as [trades |];
      [| by repeat split].
    cbn. destruct (okx_ingestTrades_frame w p trades) as [-> ->].
    destruct (okx_ingestTrades_inv w p trades)
      as (-> & -> & -> & Hmono & _ & Hprov).
    repeat split; try done.
    intros Hpos k x Hk. destruct (Hprov k x Hk) as [H | (f & _ & _ & _ & H & _)];
      [by apply (Hpos k) | done].
Qed.

(** The three ways a cycle can end. *)
Lemma cycle_outcomes w P :
  (exists msg, fetchAndEmit w P = (Some msg, P, []))
  \/ (exists equity positions,
        isInitialized P = false
        /\ fillsFetched w P /\ fetchedEquity w P = Ok equity /\ 0 < equity
        /\ fetchedPositions w P = Ok positions)
  \/ (exists equity positions, reachesDiff w P equity positions).
Proof.
  destruct (isInitialized P) eqn:Hi.
  { destruct (cycle_initialized w P Hi) as [H | H]; [by left | by right; right]. }
  unfold reachesDiff. destruct P as [p | p]; cbn in *.
  - unfold Hyperliquid.fetchAndEmit.
    destruct (hl_userFills _ _) as [fills | e]; [| left; by exists e].
    destruct (hl_clearinghouseState _ _) as [state | e];
      [| left; by exists e].
    destruct (Qle_bool _ _) eqn:E; [left; by eexists |].
    apply Qle_bool_false in E. right. left.
    exists (AccountValue state), (Positions state). eauto 10.
  - unfold OKX.fetchAndEmit.
    destruct (okx_tradeRecords _ _) as [trades | e]; [| left; by exists e].
    destruct (okx_asset _ _) as [eq | e]; [| left; by exists e].
    destruct (Qle_bool _ _) eqn:E; [left; by eexists |].
    destruct (okx_positionCurrent _ _) as [pos | e]; [| left; by exists e].
    apply Qle_bool_false in E. right. left. exists eq, pos. eauto 10.
Qed.

(** What a cycle leaves of the provider besides snapshot and prices. *)
Lemma cycle_rest w P :
  providerIdentifier (fetchAndEmit w P).1.2 = providerIdentifier P
  /\ providerInterval (fetchAndEmit w P).1.2 = providerInterval P
  /\ providerClient (fetchAndEmit w P).1.2 = providerClient P
  /\ (fillCursor (fetchAndEmit w P).1.2 = fillCursor P
      \/ fillCursor (fetchAndEmit w P).1.2 = fillCursor (afterFills w P)).
Proof.
  destruct (afterFills_frame w P) as (_ & _ & Hid & Hint & Hcl & _).
  destruct P as [p | p]; cbn in *.
  - unfold Hyperliquid.fetchAndEmit.
    destruct (hl_userFills _ _) as [fills |]; [| by repeat split; try left].
    destruct (hl_clearinghouseState _ _) as [state |];
      [| by repeat split; try left].
    destruct (Qle_bool _ _); [by repeat split; try left |].
    destruct (negb _); cbn; repeat split; try done; by right.
  - unfold OKX.fetchAndEmit.
    destruct (okx_tradeRecords _ _) as [trades |];
      [| by repeat split; try left].
    destruct (okx_asset _ _) as [eq |]; [| by repeat split; try left].
    destruct (Qle_bool _ _); [by repeat split; try left |].
    destruct (okx_positionCurrent _ _); [| by repeat split; try left].
    destruct (negb _); cbn; repeat split; try done; by right.
Qed.

Lemma closedPrice_nonneg P x : 0 < x -> 0 <= closedPrice P x.
Proof. destruct P; cbn; intros; lra. Qed.

(** A cycle keeps cached prices positive. *)
Lemma cycle_prices_positive w P :
  (forall k x, priceCache P !! k = Some x -> 0 < x) ->
  forall k x, priceCache (fetchAndEmit w P).1.2 !! k = Some x -> 0 < x.
Proof.
  intros Hpos.
  destruct (afterFills_frame w P) as (_ & _ & _ & _ & _ & _ & Hfills).
  specialize (Hfills Hpos).
  destruct (cycle_outcomes w P)
    as [[msg ->] | [(equity & positions & Hi & Hf & He & Hq & Hp) | (equity & positions & Hreach)]];
    [done | |].
  - destruct (cycle_first w P equity positions Hf He Hq Hp Hi)
      as (_ & _ & _ & _ & -> & _). exact Hfills.
  - destruct (cycle_diff w P equity positions Hreach) as (_ & _ & _ & -> & _).
    by apply cycle_cache_positive.
Qed.

(** X1. A cycle that returns an error, whatever the error (a failed
    request, an equity that is not positive), has sent nothing and has left
    the provider exactly as it was: the cycles that follow run as if it had
    not taken place. *)
Theorem failed_cycle_changes_nothing (w : World) (P : Provider)
    (msg : string) :
  (fetchAndEmit w P).1.1 = Some msg ->
  fetchAndEmit w P = (Some msg, P, [])
  /\ forall w', fetchAndEmit w' (fetchAndEmit w P).1.2 = fetchAndEmit w' P.
Proof.
  intros Herr. pose proof (cycle_error w P msg Herr) as H.
  split; [exact H |]. intros w'. by rewrite H.
Qed.

Lemma failed_cycle_changes_nothing_witness :
  let w := quietWorld 0 ∅ ∅ in
  let P := hlLeader {[ "BTC"%string := 5 # 10 ]} ∅ in
  (fetchAndEmit w P).1.1 = Some "invalid Hyperliquid account value"%string
  /\ (fetchAndEmit w P).1.2 = P /\ (fetchAndEmit w P).2 = [].
Proof.
  intros w P.
  assert (H : (fetchAndEmit w P).1.1
              = Some "invalid Hyperliquid account value"%string)
    by reflexivity.
  split; [exact H |].
  destruct (failed_cycle_changes_nothing w P _ H) as [-> _]. by split.
Defined.

(** X2. A provider that is not initialized sends nothing in a cycle,
    however many positions the leader holds. *)
Theorem uninitialized_cycle_silent (w : World) (P : Provider) :
  isInitialized P = false -> (fetchAndEmit w P).2 = [].
Proof.
  intros Hi.
  destruct (cycle_outcomes w P)
    as [[msg ->] | [(equity & positions & _ & Hf & He & Hq & Hp) | (equity & positions & Hreach)]];
    [done | |].
  - by destruct (cycle_first w P equity positions Hf He Hq Hp Hi) as (_ & -> & _).
  - destruct Hreach as (_ & _ & _ & _ & Hi'). congruence.
Qed.

Lemma uninitialized_cycle_silent_witness :
  let positions : gmap string PositionMeta :=
    {[ "BTCUSDT"%string := cross (5 # 10) 10;
       "ETHUSDT"%string := cross (- 2) 5 ]} in
  let w := quietWorld 1000 positions
             {[ "BTCUSDT"%string := 60000; "ETHUSDT"%string := 3000 ]} in
  let P := OKXProvider (OKX.newOKXProvider "leader" (3 * Second)
                          defaultClient) in
  isInitialized P = false /\ (fetchAndEmit w P).2 = [].
Proof.
  intros positions w P. split; [reflexivity |].
  by apply (uninitialized_cycle_silent w P).
Defined.

(** X3. After a cycle the provider is initialized exactly if it was
    before or the cycle returned no error; identifier, poll interval and
    HTTP client are never changed. *)
Theorem initialized_after_cycle (w : World) (P : Provider) :
  (isInitialized (fetchAndEmit w P).1.2 = true
   <-> isInitialized P = true \/ (fetchAndEmit w P).1.1 = None)
  /\ providerIdentifier (fetchAndEmit w P).1.2 = providerIdentifier P
  /\ providerInterval (fetchAndEmit w P).1.2 = providerInterval P
  /\ providerClient (fetchAndEmit w P).1.2 = providerClient P.
Proof.
  split; [| by destruct (cycle_rest w P) as (? & ? & ? & _)].
  destruct (fetchAndEmit w P).1.1 as [msg |] eqn:Herr.
  - rewrite (cycle_error w P msg Herr). cbn. split; [by left |].
    by intros [H | H].
  - split; [by right |]. intros _. by apply cycle_success_initializes.
Qed.

(** X4. The fill cursor never moves back in a cycle. *)
Theorem cursor_never_decreases (w : World) (P : Provider) :
  (fillCursor P <= fillCursor (fetchAndEmit w P).1.2)%Z.
Proof.
  destruct (afterFills_frame w P) as (_ & _ & _ & _ & _ & Hmono & _).
  destruct (cycle_rest w P) as (_ & _ & _ & [-> | ->]); [lia | done].
Qed.

(** X5. Every price a provider holds in its cache is positive, at any
    point of its life. *)
Theorem reachable_prices_positive (P : Provider) (k : string) (x : Q) :
  reachable P -> priceCache P !! k = Some x -> 0 < x.
Proof.
  intros Hreach. revert k x.
  induction Hreach as [cfg P Hnew | w P Hreach IH].
  - unfold NewProvider in Hnew.
    destruct (_ || _); [by injection Hnew as <- |].
    destruct (_ || _); [by injection Hnew as <- | discriminate].
  - by apply cycle_prices_positive.
Qed.

Lemma reachable_prices_positive_witness :
  let cfg := {| Type_ := "okx"; Identifier := "leader";
                PollInterval := 0; HTTPClient := None |} in
  let positions : gmap string PositionMeta :=
    {[ "BTCUSDT"%string := cross (5 # 10) 10 ]} in
  let w1 := quietWorld 1000 positions ∅ in
  let w2 := quietWorld 1000 ({[ "BTCUSDT"%string := cross (8 # 10) 10 ]})
              {[ "BTCUSDT"%string := 60000 ]} in
  exists P,
    NewProvider cfg = Ok P
    /\ priceCache (fetchAndEmit w2 (fetchAndEmit w1 P).1.2).1.2
         !! "BTCUSDT"%string = Some 60000
    /\ 0 < 60000.
Proof.
  intros cfg positions w1 w2.
  exists (OKXProvider (OKX.newOKXProvider "leader" (3 * Second)
                         defaultClient)).
  split; [reflexivity |].
  assert (Hc : priceCache
                 (fetchAndEmit w2
                    (fetchAndEmit w1
                       (OKXProvider (OKX.newOKXProvider "leader" (3 * Second)
                                       defaultClient))).1.2).1.2
               !! "BTCUSDT"%string = Some 60000) by (vm_compute; reflexivity).
  split; [exact Hc |].
  eapply reachable_prices_positive; [| exact Hc].
  apply reach_poll, reach_poll. by apply (reach_new cfg).
Defined.

(** The price fields of the signals of one iteration. *)
Lemma diffStep_price_field w conv equity st e :
  Forall (fun s => 0 < Price s) (diffStep w conv equity st e).2.
Proof.
  unfold diffStep.
  destruct (Qeq_bool _ _); [constructor |].
  destruct (Qle_bool _ _) eqn:Hp; [constructor |].
  apply Qle_bool_false in Hp.
  destruct (_ && _); [by repeat constructor |].
  destruct (_ && _); [by repeat constructor |].
  destruct (deriveActionFromDelta _ _); by repeat constructor.
Qed.

Lemma sweepStep_price_field w conv sp equity pos st e :
  Forall (fun s => exists x, 0 < x /\ Price s = sp x
                             /\ LeaderLeverage s = 0%Z
                             /\ MarginMode s = ""%string)
         (sweepStep w conv sp equity pos st e).2.
Proof.
  unfold sweepStep. destruct (pos !! e.1); [constructor |].
  destruct (Qeq_bool e.2 0); [constructor |].
  destruct (Qle_bool _ _) eqn:Hp; [constructor |].
  apply Qle_bool_false in Hp.
  repeat constructor. by eexists.
Qed.

(** X6. The price field of every signal of a cycle is positive, but for
    the OKX close of a position that is gone, which leaves the field at
    zero: a price that is zero or negative stops the iteration before
    anything is sent.  Over floats the two loops do the same as long as
    the cache holds no NaN, and no write to the cache puts one there:
    [float_signal_prices_positive]. *)
Theorem signal_prices_positive (w : World) (P : Provider) :
  Forall (fun s => 0 < Price s
                   \/ (Price s = 0 /\ LeaderLeverage s = 0%Z
                       /\ MarginMode s = ""%string
                       /\ exists p, P = OKXProvider p))
         (fetchAndEmit w P).2.
Proof.
  destruct (cycle_signals w P) as [-> | (equity & positions & st & ->)];
    [constructor |].
  unfold diffPositions. cbn [snd]. apply Forall_app. split.
  - apply runLoop_Forall. intros st' e _.
    eapply Forall_impl; [apply diffStep_price_field |]. auto.
  - apply runLoop_Forall. intros st' e _.
    eapply Forall_impl; [apply sweepStep_price_field |].
    intros s (x & Hx & Hp & Hl & Hm). destruct P as [p | p]; cbn in Hp.
    + left. by rewrite Hp.
    + right. repeat split; try done. by exists p.
Qed.


(** X7. The signals of a cycle are stamped in the order they are sent:
    the [i]-th signal carries the [i]-th reading of the clock. *)
Theorem signals_stamped_in_order (w : World) (P : Provider) (i : nat)
    (s : Signal) :
  (fetchAndEmit w P).2 !! i = Some s -> Timestamp s = time_Now w i.
Proof.
  destruct (cycle_outcomes w P)
    as [[msg ->] | [(equity & positions & Hi & Hf & He & Hq & Hp) | (equity & positions & Hreach)]];
    [done | |].
  - by destruct (cycle_first w P equity positions Hf He Hq Hp Hi) as (_ & -> & _).
  - destruct (cycle_diff w P equity positions Hreach) as (_ & -> & _).
    intros Hs. by apply cycle_stamps in Hs.
Qed.

Lemma signals_stamped_in_order_witness :
  let positions : gmap string PositionMeta :=
    {[ "BTCUSDT"%string := cross (- (2 # 10)) 10 ]} in
  let w := quietWorld 100000 positions ∅ in
  let P := okxLeader {[ "BTCUSDT"%string := 8 # 10 ]}
                     {[ "BTCUSDT"%string := 60000 ]} in
  exists s, (fetchAndEmit w P).2 !! 1%nat = Some s
            /\ Action s = ActionOpenShort /\ Timestamp s = 1%Z.
Proof.
  intros positions w P.
  assert (Ha : Action <$> (fetchAndEmit w P).2 !! 1%nat
               = Some ActionOpenShort) by (vm_compute; reflexivity).
  destruct ((fetchAndEmit w P).2 !! 1%nat) as [s |] eqn:Hs;
    [| discriminate Ha].
  injection Ha as Ha.
  exists s. split; [reflexivity |]. split; [exact Ha |].
  exact (signals_stamped_in_order w P 1 s Hs).
Defined.

(** X8. After a cycle that compared positions, the snapshot holds no key
    that was not among the fetched positions. *)
Theorem snapshot_keys_are_fetched (w : World) (P : Provider) (equity : Q)
    (positions : gmap string PositionMeta) (k : string) :
  reachesDiff w P equity positions ->
  positions !! k = None ->
  snapshot (fetchAndEmit w P).1.2 !! k = None.
Proof.
  intros Hreach Hk.
  destruct (cycle_diff w P equity positions Hreach) as (_ & _ & -> & _).
  by apply cycle_keys_fetched.
Qed.

Lemma snapshot_keys_are_fetched_witness :
  let positions : gmap string PositionMeta :=
    {[ "BTCUSDT"%string := cross (8 # 10) 10 ]} in
  let w := quietWorld 100000 positions ∅ in
  let P := okxLeader {[ "BTCUSDT"%string := 8 # 10;
                        "ETHUSDT"%string := - 2;
                        "SOLUSDT"%string := 0 ]} ∅ in
  reachesDiff w P 100000 positions
  /\ snapshot (fetchAndEmit w P).1.2 !! "ETHUSDT"%string = None
  /\ snapshot (fetchAndEmit w P).1.2 !! "SOLUSDT"%string = None.
Proof.
  intros positions w P.
  assert (Hreach : reachesDiff w P 100000 positions).
  { split; [by exists [] |]. by repeat split. }
  split; [exact Hreach |].
  split; by apply (snapshot_keys_are_fetched w P 100000 positions).
Defined.

(** X9. After a cycle that compared positions, the snapshot entry of a
    fetched position for which a price resolves is the fetched size. *)
Theorem snapshot_catches_up (w : World) (P : Provider) (equity : Q)
    (positions : gmap string PositionMeta) (sym : string)
    (meta : PositionMeta) :
  reachesDiff w P equity positions ->
  positions !! sym = Some meta ->
  0 < priceFor w P sym ->
  at0 (snapshot (fetchAndEmit w P).1.2) sym == Size meta.
Proof.
  intros Hreach Hsym Hp.
  destruct (cycle_diff w P equity positions Hreach) as (_ & _ & -> & _).
  by apply cycle_catchup.
Qed.

Lemma snapshot_catches_up_witness :
  let positions : gmap string PositionMeta :=
    {[ "BTC"%string := cross (- (2 # 10)) 10 ]} in
  let w := quietWorld 100000 positions {[ "BTCUSDT"%string := 60000 ]} in
  let P := hlLeader {[ "BTC"%string := 8 # 10 ]} ∅ in
  reachesDiff w P 100000 positions
  /\ 0 < priceFor w P "BTC"
  /\ at0 (snapshot (fetchAndEmit w P).1.2) "BTC" == - (2 # 10).
Proof.
  intros positions w P.
  assert (Hreach : reachesDiff w P 100000 positions).
  { split; [by exists [] |]. by repeat split. }
  assert (Hp : 0 < priceFor w P "BTC") by reflexivity.
  split; [exact Hreach |]. split; [exact Hp |].
  exact (snapshot_catches_up w P 100000 positions "BTC"
           (cross (- (2 # 10)) 10) Hreach eq_refl Hp).
Defined.

(** X10. Once a cycle has compared positions for all of which a price
    resolved, a further cycle that fetches the same positions sends
    nothing and leaves the snapshot as it is. *)
Theorem repeat_poll_silent (w1 w2 : World) (P : Provider) (equity : Q)
    (positions : gmap string PositionMeta) :
  reachesDiff w1 P equity positions ->
  (forall sym meta, positions !! sym = Some meta -> 0 < priceFor w1 P sym) ->
  fetchedPositions w2 (fetchAndEmit w1 P).1.2 = Ok positions ->
  (fetchAndEmit w2 (fetchAndEmit w1 P).1.2).2 = []
  /\ snapshot (fetchAndEmit w2 (fetchAndEmit w1 P).1.2).1.2
     = snapshot (fetchAndEmit w1 P).1.2.
Proof.
  intros Hreach Hprices Hp2.
  destruct (cycle_diff w1 P equity positions Hreach)
    as (_ & _ & Hsnap & _ & Hini).
  set (P1 := (fetchAndEmit w1 P).1.2) in *.
  destruct (cycle_initialized w2 P1 Hini)
    as [[msg ->] | (equity2 & positions2 & Hreach2)]; [done |].
  assert (positions2 = positions) as ->.
  { destruct Hreach2 as (_ & _ & _ & Hp2' & _). congruence. }
  destruct (cycle_diff w2 P1 equity2 positions Hreach2) as (_ & -> & -> & _).
  rewrite cycle_idle; [done | |]; cbn [snap]; rewrite Hsnap.
  - intros k x Hk. destruct (positions !! k) eqn:Hpk; [by eexists |].
    by rewrite cycle_keys_fetched in Hk.
  - intros k meta Hk. symmetry. apply cycle_catchup; [done |].
    by apply (Hprices k meta).
Qed.

Lemma repeat_poll_silent_witness :
  let positions : gmap string PositionMeta :=
    {[ "BTCUSDT"%string := cross (- (2 # 10)) 10 ]} in
  let w := quietWorld 100000 positions ∅ in
  let P := okxLeader {[ "BTCUSDT"%string := 8 # 10;
                        "ETHUSDT"%string := - 2 ]}
                     {[ "BTCUSDT"%string := 60000;
                        "ETHUSDT"%string := 3000 ]} in
  reachesDiff w P 100000 positions
  /\ length (fetchAndEmit w P).2 = 3%nat
  /\ (fetchAndEmit w (fetchAndEmit w P).1.2).2 = [].
Proof.
  intros positions w P.
  assert (Hreach : reachesDiff w P 100000 positions).
  { split; [by exists [] |]. by repeat split. }
  split; [exact Hreach |]. split; [reflexivity |].
  apply (repeat_poll_silent w w P 100000 positions Hreach); [| reflexivity].
  intros sym meta Hsym.
  apply lookup_singleton_Some in Hsym as [<- _]. reflexivity.
Defined.

(** X11. In the signals of a cycle an open never stands alone: it comes
    right after the close of the other direction on the same symbol, the
    two halves of a flip. *)
Theorem opens_follow_closes (w : World) (P : Provider) :
  flipPaired (fetchAndEmit w P).2.
Proof.
  destruct (cycle_signals w P) as [-> | (equity & positions & st & ->)].
  - apply flipPaired_nil.
  - apply cycle_paired.
Qed.

Lemma opens_follow_closes_witness :
  let positions : gmap string PositionMeta :=
    {[ "BTCUSDT"%string := cross (- (2 # 10)) 10 ]} in
  let w := quietWorld 100000 positions ∅ in
  let P := okxLeader {[ "BTCUSDT"%string := 8 # 10 ]}
                     {[ "BTCUSDT"%string := 60000 ]} in
  exists open close,
    (fetchAndEmit w P).2 !! 1%nat = Some open
    /\ Action open = ActionOpenShort
    /\ (fetchAndEmit w P).2 !! 0%nat = Some close
    /\ Action close = ActionCloseLong
    /\ Symbol close = Symbol open.
Proof.
  intros positions w P.
  assert (Ha : Action <$> (fetchAndEmit w P).2 !! 1%nat
               = Some ActionOpenShort) by (vm_compute; reflexivity).
  destruct ((fetchAndEmit w P).2 !! 1%nat) as [open |] eqn:Ho;
    [| discriminate Ha].
  injection Ha as Ha.
  pose proof (opens_follow_closes w P 1%nat open ActionCloseLong Ho) as Hx.
  rewrite Ha in Hx.
  destruct (Hx eq_refl) as (j & close & Hj & Hc & Hac & Hsym & _).
  injection Hj as <-.
  exists open, close.
  split; [reflexivity |].
  split; [exact Ha |].
  split; [exact Hc |].
  split; [exact Hac | exact Hsym].
Defined.



(** ** Where the fields of a signal come from *)

Section CycleFields.
Variable w : World.
Variable conv : string -> string.
Variable sp : Q -> Q.
Variable equity : Q.
Variable positions : gmap string PositionMeta.

#[local] Set Default Proof Using "Type".

Abbreviation diff := (diffStep w conv equity).
Abbreviation sweep := (sweepStep w conv sp equity positions).
Abbreviation cycle := (diffPositions w conv sp equity positions).

Lemma diffStep_fields st e :
  Forall (fun s => LeaderEquity s = equity
                   /\ Symbol s = conv e.1
                   /\ LeaderLeverage s = Leverage e.2
                   /\ MarginMode s = PosMarginMode e.2)
         (diff st e).2.
Proof.
  unfold diffStep.
  destruct (Qeq_bool _ _); [constructor |].
  destruct (Qle_bool _ _); [constructor |].
  destruct (_ && _); [by repeat constructor |].
  destruct (_ && _); [by repeat constructor |].
  destruct (deriveActionFromDelta _ _); by repeat constructor.
Qed.

Lemma sweepStep_fields st e :
  Forall (fun s => LeaderEquity s = equity
                   /\ Symbol s = conv e.1
                   /\ LeaderLeverage s = 0%Z
                   /\ MarginMode s = ""%string
                   /\ LeaderPosAfter s = 0
                   /\ positions !! e.1 = None)
         (sweep st e).2.
Proof.
  unfold sweepStep. destruct (positions !! e.1) eqn:Hp; [constructor |].
  destruct (Qeq_bool e.2 0); [constructor |].
  destruct (Qle_bool _ _); [constructor |].
  by repeat constructor.
Qed.

Lemma cycle_fields st :
  Forall (fun s =>
            LeaderEquity s = equity
            /\ ((exists k meta,
                   positions !! k = Some meta
                   /\ Symbol s = conv k
                   /\ LeaderLeverage s = Leverage meta
                   /\ MarginMode s = PosMarginMode meta)
                \/ (exists k,
                      positions !! k = None /\ is_Some (snap st !! k)
                      /\ Symbol s = conv k
                      /\ LeaderLeverage s = 0%Z
                      /\ MarginMode s = ""%string
                      /\ LeaderPosAfter s = 0)))
         (cycle st).2.
Proof.
  unfold diffPositions. cbn [snd]. apply Forall_app. split.
  - apply runLoop_Forall. intros st' e He.
    eapply Forall_impl; [apply diffStep_fields |].
    intros s (Heq & Hs & Hl & Hm). split; [done |].
    left. exists e.1, e.2. split; [| done].
    by apply (range_elem' _ _ (range_positions_perm w positions)) in He.
  - apply runLoop_Forall. intros st' e He.
    eapply Forall_impl; [apply sweepStep_fields |].
    intros s (Heq & Hs & Hl & Hm & Ha & Hn). split; [done |].
    right. exists e.1. split; [done |]. split; [| done].
    apply (range_elem' _ _ (range_snapshot_perm w _)) in He.
    rewrite diff_loop_snap_absent in He by done. by rewrite He.
Qed.
End CycleFields.

(** X13. Where the fields of a signal come from, in a cycle that compares
    positions: the equity is the one fetched in the cycle; symbol,
    leverage and margin mode are those of one fetched position, or, for
    the close of a position that is gone, the symbol of a snapshot key
    that was not fetched, leverage 0 and no margin mode. *)
Theorem signal_fields_come_from_positions (w : World) (P : Provider)
    (equity : Q) (positions : gmap string PositionMeta) (s : Signal) :
  reachesDiff w P equity positions ->
  s ∈ (fetchAndEmit w P).2 ->
  LeaderEquity s = equity
  /\ ((exists k meta,
         positions !! k = Some meta
         /\ Symbol s = currSym P k
         /\ LeaderLeverage s = Leverage meta
         /\ MarginMode s = PosMarginMode meta)
      \/ (exists k,
            positions !! k = None /\ is_Some (snapshot P !! k)
            /\ Symbol s = currSym P k
            /\ LeaderLeverage s = 0%Z
            /\ MarginMode s = ""%string
            /\ LeaderPosAfter s = 0)).
Proof.
  intros Hreach Hs.
  destruct (cycle_diff w P equity positions Hreach) as (_ & Hsig & _).
  rewrite Hsig in Hs.
  pose proof (cycle_fields w (currSym P) (closedPrice P) equity positions
                {| snap := snapshot P; cache := priceCache (afterFills w P);
                   calls := 0 |}) as Hall.
  rewrite Forall_forall in Hall. exact (Hall s Hs).
Qed.

Lemma signal_fields_come_from_positions_witness :
  let positions : gmap string PositionMeta :=
    {[ "BTCUSDT"%string := cross 2 10 ]} in
  let w := quietWorld 100000 positions ∅ in
  let P := okxLeader {[ "BTCUSDT"%string := 1; "ETHUSDT"%string := 5 ]}
                     {[ "BTCUSDT"%string := 60000;
                        "ETHUSDT"%string := 3000 ]} in
  Forall (fun s => LeaderEquity s = 100000) (fetchAndEmit w P).2
  /\ length (fetchAndEmit w P).2 = 2%nat.
Proof.
  intros positions w P. split; [| by vm_compute].
  apply Forall_forall. intros s Hs.
  apply (signal_fields_come_from_positions w P 100000 positions s);
    [| exact Hs].
  repeat split; try reflexivity. by exists [].
Defined.

(** ** Fill ingestion: what the cursor and the price cache hold *)

(** A step of the OKX loop keeps a positive price cached under [k]. *)
Lemma okx_ingestTrade_keeps w st trade k :
  (exists y, OKX.lastPrices st.1 !! k = Some y /\ 0 < y) ->
  exists y, OKX.lastPrices (OKX.ingestTrade w st trade).1 !! k = Some y
            /\ 0 < y.
Proof.
  intros (y & Hy & Hpos). unfold OKX.ingestTrade.
  destruct (_ <=? _)%Z; [by exists y |].
  destruct (String.eqb _ _); [by exists y |].
  destruct (Qlt_bool 0 _) eqn:E; cbn; [| by exists y].
  destruct (decide (formatOKXSymbol (InstID trade) = k)) as [<- | Hne].
  - rewrite lookup_insert_eq. eexists. split; [done |].
    by apply Qlt_bool_iff.
  - rewrite lookup_insert_ne by done. by exists y.
Qed.

Lemma okx_ingestTrades_keeps w st trades k :
  (exists y, OKX.lastPrices st.1 !! k = Some y /\ 0 < y) ->
  exists y, OKX.lastPrices (foldl (OKX.ingestTrade w) st trades).1 !! k
            = Some y /\ 0 < y.
Proof.
  revert st. induction trades as [| t l IH]; intros st H; [done |].
  cbn. apply IH. by apply okx_ingestTrade_keeps.
Qed.

(** The OKX loop never moves [p.lastFillTime]. *)
Lemma okx_ingestTrades_cursor_fixed w st trades :
  OKX.lastFillTime (foldl (OKX.ingestTrade w) st trades).1
  = OKX.lastFillTime st.1.
Proof.
  revert st. induction trades as [| t l IH]; intros st; [done |].
  cbn. rewrite IH.
  by destruct (okx_ingestTrade_high w st t 0) as (_ & -> & _).
Qed.

(** The same for the Hyperliquid loop. *)
Lemma hl_ingestFill_keeps w st fill k :
  (exists y, Hyperliquid.lastPrices st.1 !! k = Some y /\ 0 < y) ->
  exists y, Hyperliquid.lastPrices (Hyperliquid.ingestFill w st fill).1 !! k
            = Some y /\ 0 < y.
Proof.
  intros (y & Hy & Hpos). unfold Hyperliquid.ingestFill.
  destruct (_ <=? _)%Z; [by exists y |].
  destruct (String.eqb _ _); [by exists y |].
  destruct (Qlt_bool 0 _) eqn:E; cbn; [| by exists y].
  destruct (decide (convertHyperliquidSymbol (Coin fill) = k)) as [<- | Hne].
  - rewrite lookup_insert_eq. eexists. split; [done |].
    by apply Qlt_bool_iff.
  - rewrite lookup_insert_ne by done. by exists y.
Qed.

Lemma hl_ingestFills_keeps w st fills k :
  (exists y, Hyperliquid.lastPrices st.1 !! k = Some y /\ 0 < y) ->
  exists y, Hyperliquid.lastPrices (foldl (Hyperliquid.ingestFill w) st fills).1
              !! k = Some y /\ 0 < y.
Proof.
  revert st. induction fills as [| f l IH]; intros st H; [done |].
  cbn. apply IH. by apply hl_ingestFill_keeps.
Qed.

(** The Hyperliquid loop moves [p.lastTID] only at a fill without a
    coin. *)
Lemma hl_ingestFills_cursor_fixed w st fills :
  (forall f, f ∈ fills -> convertHyperliquidSymbol (Coin f) ≠ ""%string) ->
  Hyperliquid.lastTID (foldl (Hyperliquid.ingestFill w) st fills).1
  = Hyperliquid.lastTID st.1.
Proof.
  revert st. induction fills as [| f l IH]; intros st Hall; [done |].
  cbn. rewrite IH by (intros f' Hf'; apply Hall; by right).
  unfold Hyperliquid.ingestFill.
  destruct (_ <=? _)%Z; [done |].
  destruct (String.eqb_spec (convertHyperliquidSymbol (Coin f)) "")
    as [He | _].
  { exfalso. apply (Hall f); [by left | done]. }
  by destruct (Qlt_bool 0 _).
Qed.


(** X14. Ingesting the same fill response a second time changes nothing:
    after one pass the cursor stands at or above every fill that could
    still move it or the price cache. *)
Theorem reingest_changes_nothing (w : World) (P : Provider) :
  afterFills w (afterFills w P) = afterFills w P.
Proof.
  destruct P as [p | p]; cbn.
  - destruct (hl_userFills w (Hyperliquid.user p)) as [fills | e] eqn:Hf;
      cbn; [| by rewrite Hf].
    destruct (hl_ingestFills_inv w p fills) as (Hu & _).
    rewrite Hu, Hf. f_equal. apply hl_ingestFills_stale.
    intros f Hin. by apply hl_ingestFills_high.
  - destruct (okx_tradeRecords w (OKX.uniqueName p)) as [trades | e] eqn:Hf;
      cbn; [| by rewrite Hf].
    destruct (okx_ingestTrades_inv w p trades) as (Hu & _).
    rewrite Hu, Hf. f_equal. apply okx_ingestTrades_stale.
    intros t Hin.
    destruct (decide (formatOKXSymbol (InstID t) = ""%string)) as [He | Hne];
      [by right | left; by apply okx_ingestTrades_high].
Qed.

(** X15. After ingestion the cursor covers the response: on Hyperliquid
    [lastTID] is at least the id of every fill fetched, on OKX
    [lastFillTime] is at least the time of every trade fetched that names
    an instrument. *)
Theorem cursor_covers_fills (w : World) :
  (forall p fills f,
     f ∈ fills ->
     (TID f <= Hyperliquid.lastTID (Hyperliquid.ingestFills w p fills))%Z)
  /\ (forall p trades t,
        t ∈ trades -> formatOKXSymbol (InstID t) ≠ ""%string ->
        (FillTime t <= OKX.lastFillTime (OKX.ingestTrades w p trades))%Z).
Proof.
  split.
  - intros p fills f. apply hl_ingestFills_high.
  - intros p trades t. apply okx_ingestTrades_high.
Qed.

Lemma cursor_covers_fills_witness :
  let w := quietWorld 1000 ∅ ∅ in
  let p := Hyperliquid.newHyperliquidProvider "0xleader" (3 * Second)
             defaultClient in
  let q := OKX.newOKXProvider "leader" (3 * Second) defaultClient in
  let fills := [fillOf "ETH" "3000" 9; fillOf "BTC" "60000" 7] in
  let trades := [tradeOf "ETH-USDT-SWAP" "3000" 9;
                 tradeOf "BTC-USDT-SWAP" "60000" 7] in
  (7 <= Hyperliquid.lastTID (Hyperliquid.ingestFills w p fills))%Z
  /\ (7 <= OKX.lastFillTime (OKX.ingestTrades w q trades))%Z.
Proof.
  intros w p q fills trades.
  destruct (cursor_covers_fills w) as [Hh Ho]. split.
  - apply (Hh p fills (fillOf "BTC" "60000" 7)).
    apply list_elem_of_lookup. exists 1%nat. reflexivity.
  - apply (Ho q trades (tradeOf "BTC-USDT-SWAP" "60000" 7)).
    + apply list_elem_of_lookup. exists 1%nat. reflexivity.
    + vm_compute. discriminate.
Defined.

(** X16. Ingestion puts nothing into the price cache but fill prices: an
    entry of the cache afterwards either was there before, or is the
    positive price of a fetched fill beyond the old cursor, filed under
    the symbol of that fill. *)
Theorem cached_prices_come_from_fills (w : World) :
  (forall p fills k x,
     Hyperliquid.lastPrices (Hyperliquid.ingestFills w p fills) !! k = Some x ->
     Hyperliquid.lastPrices p !! k = Some x
     \/ exists f, f ∈ fills
          /\ convertHyperliquidSymbol (Coin f) = k
          /\ Hyperliquid.price w f = x /\ 0 < x
          /\ (Hyperliquid.lastTID p < TID f)%Z)
  /\ (forall p trades k x,
        OKX.lastPrices (OKX.ingestTrades w p trades) !! k = Some x ->
        OKX.lastPrices p !! k = Some x
        \/ exists t, t ∈ trades
             /\ formatOKXSymbol (InstID t) = k
             /\ strconv_ParseFloat w (AvgPx t) = x /\ 0 < x
             /\ (OKX.lastFillTime p < FillTime t)%Z).
Proof.
  split.
  - intros p fills. by destruct (hl_ingestFills_inv w p fills) as (_ & _ & _ & _ & _ & H).
  - intros p trades. by destruct (okx_ingestTrades_inv w p trades) as (_ & _ & _ & _ & _ & H).
Qed.

Lemma cached_prices_come_from_fills_witness :
  let w := tapeWorld [] [] {[ "60000"%string := 60000 ]} 1000 ∅ ∅ in
  let q := OKX.newOKXProvider "leader" (3 * Second) defaultClient in
  let trades := [tradeOf "BTC-USDT-SWAP" "60000" 7] in
  exists x t,
    OKX.lastPrices (OKX.ingestTrades w q trades) !! "BTCUSDT"%string = Some x
    /\ t ∈ trades /\ strconv_ParseFloat w (AvgPx t) = x /\ 0 < x.
Proof.
  intros w q trades.
  destruct (OKX.lastPrices (OKX.ingestTrades w q trades) !! "BTCUSDT"%string)
    as [x |] eqn:Hx.
  - destruct (cached_prices_come_from_fills w) as [_ Ho].
    destruct (Ho q trades "BTCUSDT"%string x Hx)
      as [Hold | (t & Hin & _ & Hpx & Hpos & _)].
    + exfalso. revert Hold. vm_compute. discriminate.
    + by exists x, t.
  - exfalso.
    assert (Hs : is_Some (OKX.lastPrices (OKX.ingestTrades w q trades)
                            !! "BTCUSDT"%string)) by (vm_compute; eauto).
    rewrite Hx in Hs. by destruct Hs.
Defined.

(** X17. On OKX no priced trade is lost: a fetched trade beyond the
    cursor that names an instrument and has a positive average price
    leaves a positive price in the cache under its symbol. *)
Theorem okx_new_trade_is_priced (w : World) (p : OKX.provider)
    (trades : list okxTradeRecord) (t : okxTradeRecord) :
  t ∈ trades ->
  (OKX.lastFillTime p < FillTime t)%Z ->
  formatOKXSymbol (InstID t) ≠ ""%string ->
  0 < strconv_ParseFloat w (AvgPx t) ->
  exists y,
    OKX.lastPrices (OKX.ingestTrades w p trades)
      !! formatOKXSymbol (InstID t) = Some y
    /\ 0 < y.
Proof.
  intros Hin Hnew Hsym Hpx.
  destruct (okx_ingestTrades_final w p trades) as (_ & -> & _).
  rewrite <- (sortSlice_perm OKX.less trades) in Hin.
  apply list_elem_of_split in Hin as (l1 & l2 & Hsplit). rewrite Hsplit.
  rewrite foldl_app. cbn [foldl].
  apply okx_ingestTrades_keeps.
  set (st := foldl (OKX.ingestTrade w) (p, OKX.lastFillTime p) l1).
  assert (Hc : OKX.lastFillTime st.1 = OKX.lastFillTime p)
    by apply okx_ingestTrades_cursor_fixed.
  unfold OKX.ingestTrade. rewrite Hc.
  destruct (Z.leb_spec (FillTime t) (OKX.lastFillTime p)) as [Hle | _];
    [lia |].
  destruct (String.eqb_spec (formatOKXSymbol (InstID t)) "") as [He | _];
    [done |].
  apply Qlt_bool_iff in Hpx as Hb. rewrite Hb.
  cbn. rewrite lookup_insert_eq. eauto.
Qed.

Lemma okx_new_trade_is_priced_witness :
  let w := tapeWorld [] [] {[ "60000"%string := 60000 ]} 1000 ∅ ∅ in
  let q := OKX.newOKXProvider "leader" (3 * Second) defaultClient in
  let trades := [tradeOf "" "1" 9; tradeOf "BTC-USDT-SWAP" "60000" 7] in
  exists y,
    OKX.lastPrices (OKX.ingestTrades w q trades) !! "BTCUSDT"%string = Some y
    /\ 0 < y.
Proof.
  intros w q trades.
  apply (okx_new_trade_is_priced w q trades
           (tradeOf "BTC-USDT-SWAP" "60000" 7)).
  - apply list_elem_of_lookup. exists 1%nat. reflexivity.
  - reflexivity.
  - vm_compute. discriminate.
  - reflexivity.
Defined.

(** X18. On Hyperliquid the same holds when every fill of the response
    names a coin: a fill without one moves [lastTID] in the middle of the
    loop, and fills with a lower id that come later in time are then
    passed over. *)
Theorem hl_new_fill_is_priced (w : World) (p : Hyperliquid.provider)
    (fills : list hyperliquidFill) (f : hyperliquidFill) :
  (forall f', f' ∈ fills -> convertHyperliquidSymbol (Coin f') ≠ ""%string) ->
  f ∈ fills ->
  (Hyperliquid.lastTID p < TID f)%Z ->
  0 < Hyperliquid.price w f ->
  exists y,
    Hyperliquid.lastPrices (Hyperliquid.ingestFills w p fills)
      !! convertHyperliquidSymbol (Coin f) = Some y
    /\ 0 < y.
Proof.
  intros Hall Hin Hnew Hpx.
  destruct (hl_ingestFills_final w p fills) as (_ & -> & _).
  assert (Hall' : forall f', f' ∈ sortSlice Hyperliquid.less fills ->
                    convertHyperliquidSymbol (Coin f') ≠ ""%string).
  { intros f' Hf'. apply Hall. by rewrite <- (sortSlice_perm Hyperliquid.less). }
  rewrite <- (sortSlice_perm Hyperliquid.less fills) in Hin.
  apply list_elem_of_split in Hin as (l1 & l2 & Hsplit).
  rewrite Hsplit in Hall' |- *.
  rewrite foldl_app. cbn [foldl].
  apply hl_ingestFills_keeps.
  set (st := foldl (Hyperliquid.ingestFill w) (p, Hyperliquid.lastTID p) l1).
  assert (Hc : Hyperliquid.lastTID st.1 = Hyperliquid.lastTID p).
  { apply hl_ingestFills_cursor_fixed. intros f' Hf'. apply Hall'.
    apply elem_of_app. by left. }
  unfold Hyperliquid.ingestFill. rewrite Hc.
  destruct (Z.leb_spec (TID f) (Hyperliquid.lastTID p)) as [Hle | _];
    [lia |].
  destruct (String.eqb_spec (convertHyperliquidSymbol (Coin f)) "")
    as [He | _].
  { exfalso. apply (Hall' f); [| done]. apply elem_of_app. right. by left. }
  apply Qlt_bool_iff in Hpx as Hb. rewrite Hb.
  cbn. rewrite lookup_insert_eq. eauto.
Qed.

Lemma hl_new_fill_is_priced_witness :
  let w := tapeWorld [] [] {[ "60000"%string := 60000 ]} 1000 ∅ ∅ in
  let p := Hyperliquid.newHyperliquidProvider "0xleader" (3 * Second)
             defaultClient in
  let fills := [fillOf "eth" "0" 9; fillOf "BTC" "60000" 7] in
  exists y,
    Hyperliquid.lastPrices (Hyperliquid.ingestFills w p fills)
      !! "BTCUSDT"%string = Some y
    /\ 0 < y.
Proof.
  intros w p fills.
  apply (hl_new_fill_is_priced w p fills (fillOf "BTC" "60000" 7)).
  - intros f' Hin. apply list_elem_of_lookup in Hin as [i Hi].
    destruct i as [| [| i]]; cbn in Hi; [| | done];
      injection Hi as <-; vm_compute; discriminate.
  - apply list_elem_of_lookup. exists 1%nat. reflexivity.
  - reflexivity.
  - reflexivity.
Defined.

(** A fill without a coin that comes first in time but has the higher id:
    the priced fill after it is passed over, and its price is not
    cached. *)
Example hl_fill_behind_blank_is_passed_over :
  let w := tapeWorld [] [] {[ "60000"%string := 60000 ]} 1000 ∅ ∅ in
  let p := Hyperliquid.newHyperliquidProvider "0xleader" (3 * Second)
             defaultClient in
  let blank := {| Coin := " "; Dir := ""; Px := "1"; Sz := "1";
                  Time := 1; TID := 9 |} in
  let btc := {| Coin := "BTC"; Dir := "Open Long"; Px := "60000"; Sz := "1";
                Time := 2; TID := 7 |} in
  Hyperliquid.lastPrices (Hyperliquid.ingestFills w p [btc; blank])
    !! "BTCUSDT"%string = None
  /\ Hyperliquid.lastTID (Hyperliquid.ingestFills w p [btc; blank]) = 9%Z.
Proof. by vm_compute. Qed.

(** ** Symbols: trimming, case and the suffix *)

Lemma isSpace_upperChar (c : ascii) : isSpace (upperChar c) = isSpace c.
Proof. by destruct c as [[] [] [] [] [] [] [] []]. Qed.

Lemma isSpace_lowerChar (c : ascii) : isSpace (lowerChar c) = isSpace c.
Proof. by destruct c as [[] [] [] [] [] [] [] []]. Qed.

Lemma upperChar_idem (c : ascii) : upperChar (upperChar c) = upperChar c.
Proof. by destruct c as [[] [] [] [] [] [] [] []]. Qed.

Lemma upperChar_lowerChar (c : ascii) : upperChar (lowerChar c) = upperChar c.
Proof. by destruct c as [[] [] [] [] [] [] [] []]. Qed.

Lemma append_cons (c : ascii) (s t : string) :
  (String c s ++ t)%string = String c (s ++ t).
Proof. reflexivity. Qed.

Lemma append_nil_l (t : string) : ("" ++ t)%string = t.
Proof. reflexivity. Qed.

Lemma append_nil_inv (s t : string) :
  (s ++ t)%string = ""%string -> s = ""%string /\ t = ""%string.
Proof. destruct s; [by rewrite append_nil_l | by rewrite append_cons]. Qed.

Lemma mapString_app (f : ascii -> ascii) (s t : string) :
  mapString f (s ++ t) = (mapString f s ++ mapString f t)%string.
Proof.
  induction s as [| c s IH]; [done |].
  cbn [mapString]. by rewrite !append_cons, <- IH.
Qed.

Lemma mapString_compose (f g h : ascii -> ascii) (s : string) :
  (forall c, f (g c) = h c) -> mapString f (mapString g s) = mapString h s.
Proof. intros H. induction s as [| c s IH]; cbn; [done | by rewrite H, IH]. Qed.

Lemma mapString_nil (f : ascii -> ascii) (s : string) :
  mapString f s = ""%string <-> s = ""%string.
Proof. by destruct s. Qed.

Lemma ToUpper_idem (s : string) : ToUpper (ToUpper s) = ToUpper s.
Proof. apply mapString_compose, upperChar_idem. Qed.

Lemma ToUpper_ToLower (s : string) : ToUpper (ToLower s) = ToUpper s.
Proof. apply mapString_compose, upperChar_lowerChar. Qed.

Lemma trimLeft_length (s : string) :
  (String.length (trimLeft s) <= String.length s)%nat.
Proof.
  induction s as [| c s IH]; cbn; [done |].
  destruct (isSpace c); cbn; lia.
Qed.

Lemma trimLeft_head (a : ascii) (s : string) :
  trimLeft (String a s) = String a s <-> isSpace a = false.
Proof.
  cbn. destruct (isSpace a) eqn:E; [| done].
  split; [| done]. intros H.
  pose proof (trimLeft_length s) as Hl. rewrite H in Hl. cbn in Hl. lia.
Qed.

Lemma trimLeft_idem (s : string) : trimLeft (trimLeft s) = trimLeft s.
Proof.
  induction s as [| c s IH]; [done |].
  cbn. destruct (isSpace c) eqn:E; [done |]. by apply trimLeft_head.
Qed.

Lemma trimRight_head (s : string) :
  trimLeft s = s -> trimLeft (trimRight s) = trimRight s.
Proof.
  destruct s as [| a s]; [done |].
  intros H%trimLeft_head. cbn [trimRight].
  destruct (trimRight s); rewrite ?H; by apply trimLeft_head.
Qed.

Lemma trimRight_idem (s : string) : trimRight (trimRight s) = trimRight s.
Proof.
  induction s as [| c s IH]; [done |].
  cbn [trimRight]. destruct (trimRight s) as [| a t] eqn:E.
  - destruct (isSpace c) eqn:Ec; [done |]. cbn. by rewrite Ec.
  - cbn [trimRight] in *. by rewrite IH.
Qed.

Lemma TrimSpace_idem (s : string) : TrimSpace (TrimSpace s) = TrimSpace s.
Proof.
  unfold TrimSpace.
  rewrite (trimRight_head (trimLeft s)) by apply trimLeft_idem.
  apply trimRight_idem.
Qed.

Lemma trimLeft_map (f : ascii -> ascii) (s : string) :
  (forall c, isSpace (f c) = isSpace c) ->
  trimLeft (mapString f s) = mapString f (trimLeft s).
Proof.
  intros H. induction s as [| c s IH]; [done |].
  cbn. rewrite H. by destruct (isSpace c).
Qed.

Lemma trimRight_map (f : ascii -> ascii) (s : string) :
  (forall c, isSpace (f c) = isSpace c) ->
  trimRight (mapString f s) = mapString f (trimRight s).
Proof.
  intros H. induction s as [| c s IH]; [done |].
  cbn [mapString trimRight]. rewrite IH, H.
  destruct (trimRight s); cbn; [by destruct (isSpace c) | done].
Qed.

Lemma TrimSpace_map (f : ascii -> ascii) (s : string) :
  (forall c, isSpace (f c) = isSpace c) ->
  TrimSpace (mapString f s) = mapString f (TrimSpace s).
Proof.
  intros H. unfold TrimSpace. by rewrite trimLeft_map, trimRight_map.
Qed.

Lemma trimRight_app (s t : string) :
  trimRight t = t -> t ≠ ""%string -> trimRight (s ++ t) = (s ++ t)%string.
Proof.
  intros Ht Hne. induction s as [| c s IH]; [done |].
  rewrite append_cons. cbn [trimRight]. rewrite IH.
  destruct (s ++ t)%string eqn:E; [| done].
  by apply append_nil_inv in E as [_ ?].
Qed.

Lemma trimLeft_app (s t : string) :
  trimLeft s = s -> s ≠ ""%string -> trimLeft (s ++ t) = (s ++ t)%string.
Proof.
  destruct s as [| a s]; [done |].
  intros H%trimLeft_head _. rewrite append_cons. by apply trimLeft_head.
Qed.

Lemma TrimSpace_app (s t : string) :
  TrimSpace s = s -> s ≠ ""%string ->
  trimRight t = t -> t ≠ ""%string ->
  TrimSpace (s ++ t) = (s ++ t)%string.
Proof.
  intros Hs Hne Ht Hnt. unfold TrimSpace.
  assert (Hl : trimLeft s = s).
  { rewrite <- Hs. unfold TrimSpace.
    apply trimRight_head, trimLeft_idem. }
  rewrite trimLeft_app by done. by apply trimRight_app.
Qed.

Lemma length_app (s t : string) :
  String.length (s ++ t) = (String.length s + String.length t)%nat.
Proof.
  induction s as [| c s IH]; [done |].
  rewrite append_cons. cbn [String.length Nat.add]. by rewrite IH.
Qed.

Lemma substring_app_r (s t : string) (n : nat) :
  substring (String.length s) n (s ++ t) = substring 0 n t.
Proof.
  induction s as [| c s IH]; [done |].
  rewrite append_cons. by cbn [String.length substring].
Qed.

Lemma substring_full (t : string) : substring 0 (String.length t) t = t.
Proof. induction t as [| c t IH]; cbn; [done | by rewrite IH]. Qed.

Lemma HasSuffix_app (s t : string) : HasSuffix (s ++ t) t = true.
Proof.
  unfold HasSuffix. rewrite length_app.
  apply andb_true_iff. split; [apply Nat.leb_le; lia |].
  rewrite Nat.add_sub, substring_app_r, substring_full.
  apply String.eqb_refl.
Qed.

(** What [convertHyperliquidSymbol] returns. *)
Lemma convertHyperliquidSymbol_cases (coin : string) :
  (TrimSpace coin = ""%string /\ convertHyperliquidSymbol coin = ""%string)
  \/ (TrimSpace coin ≠ ""%string
      /\ convertHyperliquidSymbol coin ≠ ""%string
      /\ HasSuffix (convertHyperliquidSymbol coin) "USDT" = true
      /\ ToUpper (convertHyperliquidSymbol coin) = convertHyperliquidSymbol coin
      /\ TrimSpace (convertHyperliquidSymbol coin)
         = convertHyperliquidSymbol coin).
Proof.
  unfold convertHyperliquidSymbol.
  destruct (String.eqb_spec (TrimSpace coin) "") as [He | Hne]; [by left |].
  right. split; [done |].
  assert (Hu : ToUpper (TrimSpace coin) ≠ ""%string).
  { intros H. by apply mapString_nil in H. }
  assert (Ht : TrimSpace (ToUpper (TrimSpace coin))
               = ToUpper (TrimSpace coin)).
  { unfold ToUpper. rewrite TrimSpace_map by apply isSpace_upperChar.
    by rewrite TrimSpace_idem. }
  destruct (HasSuffix (ToUpper (TrimSpace coin)) "USDT") eqn:Hs.
  - repeat split; try done. apply ToUpper_idem.
  - repeat split.
    + by destruct (ToUpper (TrimSpace coin)).
    + apply HasSuffix_app.
    + unfold ToUpper at 1. rewrite mapString_app.
      fold (ToUpper (ToUpper (TrimSpace coin))). by rewrite ToUpper_idem.
    + by apply TrimSpace_app.
Qed.

(** Removing the hyphens leaves none. *)
Lemma replace_hyphen_none (s : string) :
  contains hyphen (ReplaceAll s "-" "") = false.
Proof.
  cbn [ReplaceAll]. induction s as [| c s IH]; [done |].
  cbn [replaceFrom String.prefix String.length Nat.sub].
  destruct (ascii_dec "-" c) as [<- | Hne].
  - assert (Hp : String.prefix "" s = true) by (by destruct s).
    by rewrite Hp, append_nil_l.
  - cbn [contains]. rewrite IH, orb_false_r. by apply Ascii.eqb_neq.
Qed.

Lemma formatOKXSymbol_no_hyphen (instID : string) :
  contains hyphen (formatOKXSymbol instID) = false.
Proof.
  unfold formatOKXSymbol.
  destruct (String.eqb _ _); [done | apply replace_hyphen_none].
Qed.

Lemma convertHyperliquidSymbol_map (f : ascii -> ascii) (coin : string) :
  (forall c, isSpace (f c) = isSpace c) ->
  (forall c, upperChar (f c) = upperChar c) ->
  convertHyperliquidSymbol (mapString f coin) = convertHyperliquidSymbol coin.
Proof.
  intros Hsp Hup. unfold convertHyperliquidSymbol.
  rewrite TrimSpace_map by done.
  unfold ToUpper. rewrite (mapString_compose upperChar f upperChar) by done.
  by destruct (TrimSpace coin).
Qed.

Lemma formatOKXSymbol_map (f : ascii -> ascii) (instID : string) :
  (forall c, isSpace (f c) = isSpace c) ->
  (forall c, upperChar (f c) = upperChar c) ->
  formatOKXSymbol (mapString f instID) = formatOKXSymbol instID.
Proof.
  intros Hsp Hup. unfold formatOKXSymbol.
  rewrite TrimSpace_map by done.
  unfold ToUpper. rewrite (mapString_compose upperChar f upperChar) by done.
  by destruct (TrimSpace instID).
Qed.

(** X19. The symbol made of a Hyperliquid coin is blank exactly for a
    blank coin, and otherwise ends in USDT. *)
Theorem hl_symbol_shape (coin : string) :
  (convertHyperliquidSymbol coin = ""%string <-> TrimSpace coin = ""%string)
  /\ (TrimSpace coin ≠ ""%string ->
      HasSuffix (convertHyperliquidSymbol coin) "USDT" = true).
Proof.
  destruct (convertHyperliquidSymbol_cases coin)
    as [[Ht Hc] | (Ht & Hc & Hs & _)]; split; try done.
Qed.

Lemma hl_symbol_shape_witness :
  HasSuffix (convertHyperliquidSymbol " btc ") "USDT" = true.
Proof.
  apply (hl_symbol_shape " btc "). vm_compute. discriminate.
Defined.

(** X20. A symbol is its own symbol: [convertHyperliquidSymbol] applied
    to one of its results returns it unchanged. *)
Theorem hl_symbol_idempotent (coin : string) :
  convertHyperliquidSymbol (convertHyperliquidSymbol coin)
  = convertHyperliquidSymbol coin.
Proof.
  destruct (convertHyperliquidSymbol_cases coin)
    as [[_ ->] | (_ & Hne & Hs & Hu & Ht)]; [done |].
  unfold convertHyperliquidSymbol at 1.
  rewrite Ht, Hu, Hs.
  by destruct (String.eqb_spec (convertHyperliquidSymbol coin) "").
Qed.

(** X21. The symbol made of an OKX instrument id has no hyphen left. *)
Theorem okx_symbol_has_no_hyphen (instID : string) :
  contains hyphen (formatOKXSymbol instID) = false.
Proof. apply formatOKXSymbol_no_hyphen. Qed.

(** X22. For ASCII text, letter case and surrounding white space do not
    show in a symbol.  In particular the key under which [normalize] files
    a Hyperliquid position, the upper-cased coin, is sent under the symbol
    under which the fills of that coin are priced.  (Beyond ASCII Go's
    [strings.ToLower] and [strings.ToUpper] do not always undo each
    other.) *)
Theorem symbols_ignore_case_and_padding (s : string) :
  isASCII s = true ->
  (convertHyperliquidSymbol (ToUpper s) = convertHyperliquidSymbol s
   /\ convertHyperliquidSymbol (ToLower s) = convertHyperliquidSymbol s
   /\ convertHyperliquidSymbol (TrimSpace s) = convertHyperliquidSymbol s)
  /\ (formatOKXSymbol (ToUpper s) = formatOKXSymbol s
      /\ formatOKXSymbol (ToLower s) = formatOKXSymbol s
      /\ formatOKXSymbol (TrimSpace s) = formatOKXSymbol s).
Proof.
  intros _. split; repeat split.
  - apply convertHyperliquidSymbol_map;
      [apply isSpace_upperChar | apply upperChar_idem].
  - apply convertHyperliquidSymbol_map;
      [apply isSpace_lowerChar | apply upperChar_lowerChar].
  - unfold convertHyperliquidSymbol. by rewrite TrimSpace_idem.
  - apply formatOKXSymbol_map;
      [apply isSpace_upperChar | apply upperChar_idem].
  - apply formatOKXSymbol_map;
      [apply isSpace_lowerChar | apply upperChar_lowerChar].
  - unfold formatOKXSymbol. by rewrite TrimSpace_idem.
Qed.

Lemma symbols_ignore_case_and_padding_witness :
  convertHyperliquidSymbol (ToUpper " btc ") = convertHyperliquidSymbol " btc "
  /\ formatOKXSymbol (ToLower " BTC-usdt-SWAP ")
     = formatOKXSymbol " BTC-usdt-SWAP ".
Proof.
  split.
  - by apply (symbols_ignore_case_and_padding " btc ").
  - by apply (symbols_ignore_case_and_padding " BTC-usdt-SWAP ").
Defined.

(** ** The configuration after normalization *)

Lemma Default_wellFormed : wellFormedConfig DefaultCopyTradingConfig.
Proof. repeat split; cbn; lra. Qed.

Lemma normalize_wellFormed (cfg : CopyTradingConfig) :
  wellFormedConfig (normalizeCopyTradingConfig cfg).
Proof.
  destruct cfg as [fo fa fr ratio mn mx sl sm].
  unfold normalizeCopyTradingConfig, wellFormedConfig. cbn.
  destruct (Qle_bool ratio 0) eqn:Hr; cbn;
    destruct (Qlt_bool mx 0) eqn:Hx; cbn;
    destruct (Qlt_bool mn 0) eqn:Hn; cbn;
    qprop;
    destruct fo, fa, fr; cbn;
    repeat split; try reflexivity; lra.
Qed.

Lemma normalize_fixes_wellFormed (cfg : CopyTradingConfig) :
  wellFormedConfig cfg -> normalizeCopyTradingConfig cfg = cfg.
Proof.
  destruct cfg as [fo fa fr ratio mn mx sl sm].
  unfold normalizeCopyTradingConfig, wellFormedConfig. cbn.
  intros (Hr & Hn & Hx & Hf).
  apply Qle_bool_false in Hr. rewrite Hr. cbn.
  apply Qlt_bool_false in Hx. rewrite Hx. cbn.
  apply Qlt_bool_false in Hn. rewrite Hn. cbn.
  by destruct fo, fa, fr.
Qed.

(** X23. [normalizeCopyTradingConfig] returns a configuration with a
    positive ratio, amounts that are not negative and at least one kind
    of action followed; a configuration that is so already is returned
    as it is. *)
Theorem normalized_config_is_wellformed (cfg : CopyTradingConfig) :
  wellFormedConfig (normalizeCopyTradingConfig cfg)
  /\ (wellFormedConfig cfg -> normalizeCopyTradingConfig cfg = cfg).
Proof.
  split; [apply normalize_wellFormed | apply normalize_fixes_wellFormed].
Qed.

Lemma normalized_config_is_wellformed_witness :
  let cfg := {| FollowOpen := false; FollowAdd := true; FollowReduce := false;
                FollowRatio := 50; MinAmount := 10; MaxAmount := 0;
                SyncLeverage := false; SyncMarginMode := false |} in
  normalizeCopyTradingConfig cfg = cfg.
Proof.
  intros cfg. apply (normalized_config_is_wellformed cfg).
  repeat split; cbn; lra.
Defined.

(** X24. Whatever text is stored, [ParseCopyTradingConfig] returns a
    well-formed configuration, unless the decoder accepts the text as
    JSON and then fails on a value (the fields decoded up to there are
    then returned as they are). *)
Theorem parsed_config_is_wellformed (j : Decoder) (raw : string) :
  (json_Valid j raw = true ->
   (json_decode j raw DefaultCopyTradingConfig).1 = None) ->
  wellFormedConfig (ParseCopyTradingConfig j raw).
Proof.
  intros Hdec. unfold ParseCopyTradingConfig, json_Unmarshal.
  destruct (String.eqb _ _); [apply Default_wellFormed |].
  destruct (json_Valid j raw); [| apply Default_wellFormed].
  specialize (Hdec eq_refl).
  destruct (json_decode j raw DefaultCopyTradingConfig) as [[e |] cfg];
    [discriminate | apply normalize_wellFormed].
Qed.

Lemma parsed_config_is_wellformed_witness :
  wellFormedConfig (ParseCopyTradingConfig bracesDecoder "{}").
Proof.
  apply (parsed_config_is_wellformed bracesDecoder "{}").
  intros _. reflexivity.
Defined.

(** ** Decoding the venue responses *)

Lemma truncate_nonneg (x : Q) : 0 < x -> (0 <= truncate x)%Z.
Proof.
  intros Hx. unfold truncate. apply Z.quot_pos; [| lia].
  unfold Qlt in Hx. cbn in Hx. lia.
Qed.

Lemma truncate_below (x : Q) (b : Z) :
  0 < x -> x < inject_Z b -> (truncate x < b)%Z.
Proof.
  intros H0 Hb. unfold truncate.
  unfold Qlt in H0, Hb. cbn in H0, Hb.
  rewrite Z.quot_div_nonneg by lia.
  apply Z.div_lt_upper_bound; lia.
Qed.

Lemma intLimit_large (n : IntSize) : (1 < intLimit n)%Z.
Proof. by destruct n. Qed.

(** A positive float below the limit of an [int] converts to its whole
    part, on any platform. *)
Lemma intOfFloat_fits (pf : Platform) (x : Q) :
  0 < x -> x < inject_Z (intLimit (intSize pf)) ->
  intOfFloat pf (IEEE.Num x) = truncate x /\ (0 <= truncate x)%Z.
Proof.
  intros H0 Hb. pose proof (truncate_nonneg x H0) as Hn.
  pose proof (truncate_below x _ H0 Hb) as Hlt.
  pose proof (intLimit_large (intSize pf)) as Hl.
  split; [| done]. unfold intOfFloat, fitsInt.
  destruct (Z.leb_spec (- intLimit (intSize pf)) (truncate x)); [| lia].
  destruct (Z.ltb_spec (truncate x) (intLimit (intSize pf))); [done | lia].
Qed.

Lemma intOfFloat_small (pf : Platform) (z : Z) :
  (0 <= z <= 1)%Z -> intOfFloat pf (IEEE.Num (inject_Z z)) = z.
Proof.
  intros Hz. pose proof (intLimit_large (intSize pf)) as Hl.
  assert (Ht : truncate (inject_Z z) = z).
  { unfold truncate. cbn. apply Z.quot_1_r. }
  unfold intOfFloat, fitsInt. rewrite Ht.
  destruct (Z.leb_spec (- intLimit (intSize pf)) z); [| lia].
  destruct (Z.ltb_spec z (intLimit (intSize pf))); [done | lia].
Qed.

Lemma intOfFloat_fraction (pf : Platform) (x : Q) :
  0 < x -> x < 1 -> intOfFloat pf (IEEE.Num x) = 0%Z.
Proof.
  intros H0 H1. pose proof (intLimit_large (intSize pf)) as Hl.
  assert (Ht : truncate x = 0%Z).
  { unfold truncate. apply Z.quot_small.
    unfold Qlt in *. cbn in *. lia. }
  unfold intOfFloat, fitsInt. rewrite Ht.
  destruct (Z.leb_spec (- intLimit (intSize pf)) 0); [| lia].
  destruct (Z.ltb_spec 0 (intLimit (intSize pf))); [done | lia].
Qed.

(** The entry [normalize] files for an asset. *)
Lemma hl_addAsset_lookup w oor m a k :
  Hyperliquid.addAsset w oor m a !! k
  = if decide (ToUpper (Hyperliquid.Coin a) = k)
    then Some {| Size := strconv_ParseFloat w (Hyperliquid.Szi a);
                 Leverage :=
                   Z.max 1 (intOfFloat oor
                              (IEEE.Num (Hyperliquid.LeverageValue a)));
                 PosMarginMode := Hyperliquid.LeverageType a |}
    else m !! k.
Proof.
  unfold Hyperliquid.addAsset. rewrite lookup_insert.
  case_decide; [| done]. do 2 f_equal.
  destruct (Z.leb_spec
              (intOfFloat oor (IEEE.Num (Hyperliquid.LeverageValue a))) 0);
    lia.
Qed.

Lemma hl_addAssets_other w oor l m k :
  (forall b, b ∈ l -> ToUpper (Hyperliquid.Coin b) ≠ k) ->
  foldl (Hyperliquid.addAsset w oor) m l !! k = m !! k.
Proof.
  revert m. induction l as [| a l IH]; intros m Hl; [done |].
  cbn [foldl]. rewrite IH by (intros b Hb; apply Hl; by right).
  rewrite hl_addAsset_lookup. case_decide as He; [| done].
  exfalso. apply (Hl a); [by left | done].
Qed.

Lemma hl_addAssets_entries w oor l m k meta :
  foldl (Hyperliquid.addAsset w oor) m l !! k = Some meta ->
  m !! k = Some meta
  \/ exists a, a ∈ l /\ k = ToUpper (Hyperliquid.Coin a)
       /\ Size meta = strconv_ParseFloat w (Hyperliquid.Szi a)
       /\ PosMarginMode meta = Hyperliquid.LeverageType a
       /\ Leverage meta
          = Z.max 1 (intOfFloat oor
                       (IEEE.Num (Hyperliquid.LeverageValue a))).
Proof.
  revert m. induction l as [| a l IH]; intros m; [by left |].
  cbn [foldl]. intros [H | (b & Hb & H)]%IH.
  - rewrite hl_addAsset_lookup in H. case_decide as He; [| by left].
    injection H as <-. right. exists a. split; [by left | done].
  - right. exists b. split; [by right | done].
Qed.

Lemma hl_addAssets_dom w oor l m k :
  is_Some (foldl (Hyperliquid.addAsset w oor) m l !! k)
  <-> is_Some (m !! k)
      \/ exists a, a ∈ l /\ k = ToUpper (Hyperliquid.Coin a).
Proof.
  revert m. induction l as [| a l IH]; intros m.
  - cbn. split; [by left |]. intros [H | (a & Ha & _)]; [done |].
    by apply elem_of_nil in Ha.
  - cbn [foldl]. rewrite IH, hl_addAsset_lookup. split.
    + intros [H | (b & Hb & ->)].
      * case_decide as He; [| by left].
        right. exists a. split; [by left | done].
      * right. exists b. split; [by right | done].
    + intros [H | (b & Hb & ->)].
      * left. by case_decide.
      * apply elem_of_cons in Hb as [-> | Hb].
        -- left. by rewrite decide_True.
        -- right. by exists b.
Qed.

(** The nested loops of [fetchPositions] visit the entries of all parents
    in order. *)
Lemma foldl_nested {A B C : Type} (f : A -> C -> A) (g : B -> list C)
    (l : list B) (a : A) :
  foldl (fun m entry => foldl f m (g entry)) a l
  = foldl f a (mjoin (g <$> l)).
Proof.
  revert a. induction l as [| x l IH]; intros a; [done |].
  cbn. by rewrite foldl_app, IH.
Qed.

(** The reported leverage as [fetchPositions] converts it: 1 in place of
    a leverage that is not positive, then the conversion to [int]. *)
Lemma okx_positionOf_lever w sp oor pos :
  Leverage (OKX.positionOf w sp oor pos)
  = intOfFloat oor
      (if IEEE.leb (parseFloat64 w sp (OKX.Lever pos)) IEEE.zero
       then IEEE.Num 1 else parseFloat64 w sp (OKX.Lever pos)).
Proof. reflexivity. Qed.

Lemma okx_positionOf_leverage w sp oor pos lever :
  parseFloat64 w sp (OKX.Lever pos) = IEEE.Num lever ->
  lever < inject_Z (intLimit (intSize oor)) ->
  (0 <= Leverage (OKX.positionOf w sp oor pos))%Z.
Proof.
  intros Hp Hb. rewrite okx_positionOf_lever, Hp.
  cbn [IEEE.leb IEEE.zero].
  destruct (Qle_bool lever 0) eqn:E.
  - pose proof (intOfFloat_small oor 1) as H1.
    change (inject_Z 1) with 1 in H1. rewrite H1; lia.
  - apply Qle_bool_false in E.
    by destruct (intOfFloat_fits oor _ E Hb) as [-> ?].
Qed.

Lemma okx_addPositions_entries w sp oor l m k meta :
  foldl (OKX.addPosition w sp oor) m l !! k = Some meta ->
  m !! k = Some meta
  \/ k ≠ ""%string
     /\ exists pos, pos ∈ l /\ k = formatOKXSymbol (OKX.InstID pos)
          /\ meta = OKX.positionOf w sp oor pos.
Proof.
  revert m. induction l as [| a l IH]; intros m; [by left |].
  cbn [foldl]. intros [H | (Hk & b & Hb & H)]%IH.
  - unfold OKX.addPosition in H.
    destruct (String.eqb_spec (formatOKXSymbol (OKX.InstID a)) "")
      as [He | Hne]; [by left |].
    rewrite lookup_insert in H. case_decide as He; [| by left].
    injection H as <-. right. subst k. split; [done |].
    exists a. split; [by left | done].
  - right. split; [done |]. exists b. split; [by right | done].
Qed.

Lemma okx_equityOf_ok w rows v :
  OKX.equityOf w rows = Ok v
  <-> exists pre a post,
        rows = pre ++ a :: post
        /\ Forall (fun r => EqualFold (OKX.Currency r) "USDT" = false) pre
        /\ EqualFold (OKX.Currency a) "USDT" = true
        /\ v = strconv_ParseFloat w (OKX.Amount a).
Proof.
  induction rows as [| r rows IH]; cbn [OKX.equityOf].
  - split; [done |]. intros (pre & a & post & H & _). by destruct pre.
  - destruct (EqualFold (OKX.Currency r) "USDT") eqn:E.
    + split.
      * intros [= <-]. by exists [], r, rows.
      * intros (pre & a & post & H & Hpre & Ha & ->).
        destruct pre as [| r' pre]; cbn in H; injection H as -> ->; [done |].
        apply Forall_cons in Hpre as [Hr _]. congruence.
    + rewrite IH. split.
      * intros (pre & a & post & -> & Hpre & Ha & ->).
        exists (r :: pre), a, post. split; [done |].
        split; [by constructor | done].
      * intros (pre & a & post & H & Hpre & Ha & ->).
        destruct pre as [| r' pre]; cbn in H; injection H as -> ->;
          [congruence |].
        apply Forall_cons in Hpre as [_ Hpre]. by exists pre, a, post.
Qed.

Lemma okx_equityOf_err w rows msg :
  OKX.equityOf w rows = Err msg
  <-> msg = "okx equity not found"%string
      /\ Forall (fun r => EqualFold (OKX.Currency r) "USDT" = false) rows.
Proof.
  induction rows as [| r rows IH]; cbn [OKX.equityOf].
  - split; [by intros [= <-] | by intros [-> _]].
  - destruct (EqualFold (OKX.Currency r) "USDT") eqn:E.
    + split; [done |]. intros [_ [H _]%Forall_cons]. congruence.
    + rewrite IH. split; intros [-> H]; split; try done.
      * by constructor.
      * by apply Forall_cons in H as [_ H].
Qed.

(** X25. The positions [normalize] makes of a Hyperliquid state: one
    entry per coin, filed under the upper-cased coin; it carries the
    parsed size and the leverage type of an asset of that coin, with a
    leverage of at least 1 on any platform: the reported value converted
    to an [int], or 1 when that is not positive (for a value whose whole
    part fits an [int], that whole part or 1); when a coin is listed more
    than once, the last asset is the one kept. *)
Theorem hl_positions_decoded (w : World) (pf : Platform)
    (s : Hyperliquid.hyperliquidStateRaw) :
  let positions := Positions (Hyperliquid.normalize w pf s) in
  (forall k,
     is_Some (positions !! k)
     <-> exists a, a ∈ Hyperliquid.AssetPositions s
           /\ k = ToUpper (Hyperliquid.Coin a))
  /\ (forall k meta,
        positions !! k = Some meta ->
        (1 <= Leverage meta)%Z
        /\ exists a, a ∈ Hyperliquid.AssetPositions s
             /\ k = ToUpper (Hyperliquid.Coin a)
             /\ Size meta = strconv_ParseFloat w (Hyperliquid.Szi a)
             /\ PosMarginMode meta = Hyperliquid.LeverageType a
             /\ Leverage meta
                = Z.max 1 (intOfFloat pf
                             (IEEE.Num (Hyperliquid.LeverageValue a)))
             /\ (fitsInt (intSize pf) (truncate (Hyperliquid.LeverageValue a)) = true ->
                 Leverage meta
                 = Z.max 1 (truncate (Hyperliquid.LeverageValue a))))
  /\ (forall l1 a l2,
        Hyperliquid.AssetPositions s = l1 ++ a :: l2 ->
        (forall b, b ∈ l2 ->
           ToUpper (Hyperliquid.Coin b) ≠ ToUpper (Hyperliquid.Coin a)) ->
        Size <$> positions !! ToUpper (Hyperliquid.Coin a)
        = Some (strconv_ParseFloat w (Hyperliquid.Szi a))).
Proof.
  cbn zeta. unfold Hyperliquid.normalize. cbn [Positions].
  split; [| split].
  - intros k. rewrite hl_addAssets_dom, lookup_empty. split.
    + intros [[x Hx] | H]; [done | exact H].
    + intros H. by right.
  - intros k meta [H | (a & Ha & Hk & Hs & Hm & Hl)]%hl_addAssets_entries;
      [by rewrite lookup_empty in H |].
    split; [lia |]. exists a. repeat split; try done.
    intros Hfit. rewrite Hl. unfold intOfFloat. by rewrite Hfit.
  - intros l1 a l2 -> Hl2. rewrite foldl_app. cbn [foldl].
    rewrite hl_addAssets_other by done.
    rewrite hl_addAsset_lookup, decide_True by done. done.
Qed.

Lemma hl_positions_decoded_witness :
  let w := tapeWorld [] [] {[ "1.5"%string := 3 # 2; "-2"%string := -2 ]}
             1000 ∅ ∅ in
  let asset coin szi lev :=
    {| Hyperliquid.Coin := coin; Hyperliquid.Szi := szi;
       Hyperliquid.LeverageType := "cross";
       Hyperliquid.LeverageValue := lev |} in
  let s := {| Hyperliquid.MarginSummaryAccountValue := "1000";
              Hyperliquid.AssetPositions :=
                [asset "btc" "1.5" 20; asset "ETH" "1.5" 3;
                 asset "BTC" "-2" (1 # 2)] |} in
  Size <$> Positions (Hyperliquid.normalize w amd64 s) !! "BTC"%string
  = Some (- 2).
Proof.
  intros w asset s.
  destruct (hl_positions_decoded w amd64 s) as (_ & _ & Hlast).
  apply (Hlast [asset "btc" "1.5" 20; asset "ETH" "1.5" 3]
               (asset "BTC" "-2" (1 # 2)) []).
  - reflexivity.
  - intros b Hb. by apply elem_of_nil in Hb.
Defined.

(** X26. The positions [fetchPositions] makes of an OKX response: every
    key is a symbol, not blank and without a hyphen, and its entry is the
    one built from a listed position of that symbol.  The leverage of an
    entry is not negative when the reported leverage is a number below
    the limit of an [int] ([2^31] or [2^63], as the platform has it), and
    1 when it is minus infinity; it is 0 for a position whose
    reported leverage lies between 0 and 1, since the default of 1 is
    applied before the fraction is dropped; and for a reported leverage
    that is NaN or plus infinity, which the check for a leverage that is
    not positive lets through, it is whatever the platform converts that
    to. *)
Theorem okx_positions_decoded (w : World)
    (special : string -> option IEEE.float64)
    (pf : Platform)
    (data : list OKX.okxPositionParent)
    (positions : gmap string PositionMeta) :
  OKX.fetchPositions w special pf (Ok data) = Ok positions ->
  (forall k meta,
     positions !! k = Some meta ->
     k ≠ ""%string
     /\ contains hyphen k = false
     /\ exists entry pos,
          entry ∈ data /\ pos ∈ OKX.PosData entry
          /\ k = formatOKXSymbol (OKX.InstID pos)
          /\ meta = OKX.positionOf w special pf pos)
  /\ (forall pos lever,
        parseFloat64 w special (OKX.Lever pos) = IEEE.Num lever ->
        lever < inject_Z (intLimit (intSize pf)) ->
        (0 <= Leverage (OKX.positionOf w special pf pos))%Z)
  /\ (forall pos lever,
        parseFloat64 w special (OKX.Lever pos) = IEEE.Num lever ->
        0 < lever -> lever < 1 ->
        Leverage (OKX.positionOf w special pf pos) = 0%Z)
  /\ (forall pos,
        parseFloat64 w special (OKX.Lever pos) = IEEE.NInf ->
        Leverage (OKX.positionOf w special pf pos) = 1%Z)
  /\ (forall pos x,
        parseFloat64 w special (OKX.Lever pos) = x ->
        x = IEEE.NaN \/ x = IEEE.PInf ->
        Leverage (OKX.positionOf w special pf pos) = outOfRange pf x).
Proof.
  intros [= <-]. repeat apply conj.
  - intros k meta. rewrite foldl_nested.
    intros [H | (Hk & pos & Hin & -> & ->)]%okx_addPositions_entries;
      [by rewrite lookup_empty in H |].
    split; [done |]. split; [apply formatOKXSymbol_no_hyphen |].
    apply list_elem_of_join in Hin as (l & Hpos & Hl).
    apply list_elem_of_fmap in Hl as (entry & -> & Hentry).
    by exists entry, pos.
  - intros pos lever. apply okx_positionOf_leverage.
  - intros pos lever Hp H0 H1. rewrite okx_positionOf_lever, Hp.
    cbn [IEEE.leb IEEE.zero].
    apply Qle_bool_false in H0 as Hb. rewrite Hb.
    by apply intOfFloat_fraction.
  - intros pos Hp. rewrite okx_positionOf_lever, Hp.
    cbn [IEEE.leb IEEE.zero]. apply (intOfFloat_small pf 1). lia.
  - intros pos x Hp [-> | ->]; by rewrite okx_positionOf_lever, Hp.
Qed.

Lemma okx_positions_decoded_witness :
  let w := tapeWorld [] [] {[ "0.5"%string := 1 # 2; "3"%string := 3 ]}
             1000 ∅ ∅ in
  let pos lever :=
    {| OKX.InstID := "btc-usdt-swap"; OKX.MarginMode := "Cross";
       OKX.PosSide := "short"; OKX.Pos := "3"; OKX.Lever := lever |} in
  Leverage (OKX.positionOf w nanText amd64 (pos "0.5")) = 0%Z
  /\ Leverage (OKX.positionOf w nanText amd64 (pos "NaN"))
     = (- 2 ^ 63)%Z.
Proof.
  intros w pos.
  destruct (okx_positions_decoded w nanText amd64
              [{| OKX.PosData := [pos "0.5"; pos "NaN"] |}] _ eq_refl)
    as (_ & _ & Hfrac & _ & Hnan).
  split.
  - apply (Hfrac (pos "0.5") (1 # 2)); reflexivity.
  - apply (Hnan (pos "NaN") IEEE.NaN); [reflexivity | by left].
Defined.

(** X27. The equity [fetchEquity] reads from an OKX asset response is
    the parsed amount of the first row whose currency is USDT in any
    letter case; without such a row the call fails with
    [okx equity not found], and the poll cycle then ends with that error,
    the provider untouched and nothing sent. *)
Theorem okx_equity_is_first_usdt_row (w : World)
    (rows : list OKX.okxAssetRow) :
  (forall v,
     OKX.fetchEquity w (Ok rows) = Ok v
     <-> exists pre a post,
           rows = pre ++ a :: post
           /\ Forall (fun r => EqualFold (OKX.Currency r) "USDT" = false) pre
           /\ EqualFold (OKX.Currency a) "USDT" = true
           /\ v = strconv_ParseFloat w (OKX.Amount a))
  /\ (forall msg,
        OKX.fetchEquity w (Ok rows) = Err msg
        <-> msg = "okx equity not found"%string
            /\ Forall (fun r => EqualFold (OKX.Currency r) "USDT" = false)
                      rows)
  /\ (forall p trades,
        okx_tradeRecords w (OKX.uniqueName p) = Ok trades ->
        okx_asset w (OKX.uniqueName p) = OKX.fetchEquity w (Ok rows) ->
        Forall (fun r => EqualFold (OKX.Currency r) "USDT" = false) rows ->
        OKX.fetchAndEmit w p = (Some "okx equity not found"%string, p, [])).
Proof.
  split; [| split].
  - intros v. apply okx_equityOf_ok.
  - intros msg. apply okx_equityOf_err.
  - intros p trades Ht Ha Hrows. unfold OKX.fetchAndEmit.
    rewrite Ht, Ha. cbn [OKX.fetchEquity].
    assert (He : OKX.equityOf w rows = Err "okx equity not found").
    { by apply okx_equityOf_err. }
    by rewrite He.
Qed.

Lemma okx_equity_is_first_usdt_row_witness :
  let w := tapeWorld [] [] {[ "2500"%string := 2500 ]} 1000 ∅ ∅ in
  let rows := [ {| OKX.Currency := "BTC"; OKX.Amount := "1" |};
                {| OKX.Currency := "usdt"; OKX.Amount := "2500" |};
                {| OKX.Currency := "USDT"; OKX.Amount := "7" |} ] in
  OKX.fetchEquity w (Ok rows) = Ok 2500.
Proof.
  intros w rows.
  destruct (okx_equity_is_first_usdt_row w rows) as (Hok & _).
  apply Hok.
  exists [ {| OKX.Currency := "BTC"; OKX.Amount := "1" |} ],
         {| OKX.Currency := "usdt"; OKX.Amount := "2500" |},
         [ {| OKX.Currency := "USDT"; OKX.Amount := "7" |} ].
  split; [reflexivity |]. split; [by repeat constructor |].
  split; reflexivity.
Defined.

(** ** The run loop *)

Lemma NewProvider_fresh (cfg : Config) (P : Provider) :
  NewProvider cfg = Ok P ->
  providerIdentifier P = TrimSpace (Identifier cfg)
  /\ isInitialized P = false.
Proof.
  unfold NewProvider.
  destruct (_ || _); [by intros [= <-] |].
  destruct (_ || _); [by intros [= <-] | discriminate].
Qed.

Lemma cycle_identifier w P :
  providerIdentifier (fetchAndEmit w P).1.2 = providerIdentifier P.
Proof. by destruct (cycle_rest w P) as (H & _). Qed.

Lemma cycle_quiet_start w P :
  isInitialized P = false -> (fetchAndEmit w P).2 = [].
Proof.
  intros Hi.
  destruct (cycle_outcomes w P)
    as [[msg ->] | [(equity & positions & _ & Hf & He & Hq & Hp) | (equity & positions & Hreach)]];
    [done | |].
  - by destruct (cycle_first w P equity positions Hf He Hq Hp Hi)
      as (_ & -> & _).
  - destruct Hreach as (_ & _ & _ & _ & Hi'). congruence.
Qed.

Lemma pollAll_app ws1 ws2 P :
  pollAll (ws1 ++ ws2) P
  = ((pollAll ws2 (pollAll ws1 P).1).1,
     (pollAll ws1 P).2 ++ (pollAll ws2 (pollAll ws1 P).1).2).
Proof.
  revert P. induction ws1 as [| w ws1 IH]; intros P.
  - cbn. by destruct (pollAll ws2 P).
  - cbn [app pollAll]. rewrite IH. cbn [fst snd]. by rewrite app_assoc.
Qed.

Lemma pollAll_identifier ws P :
  providerIdentifier (pollAll ws P).1 = providerIdentifier P.
Proof.
  revert P. induction ws as [| w ws IH]; intros P; [done |].
  cbn [pollAll fst]. by rewrite IH, cycle_identifier.
Qed.

(** Polls that fail leave the provider and the channel alone. *)
Lemma pollAll_failed ws P :
  Forall (fun w => (fetchAndEmit w P).1.1 ≠ None) ws ->
  pollAll ws P = (P, []).
Proof.
  induction 1 as [| w ws Hw _ IH]; [done |].
  cbn [pollAll].
  destruct (fetchAndEmit w P).1.1 as [msg |] eqn:He; [| done].
  rewrite (cycle_error w P msg He). cbn [fst snd]. by rewrite IH.
Qed.

Lemma Run_polls (w0 : World) (ticks : list World) (P : Provider) :
  providerIdentifier P ≠ ""%string ->
  Run w0 ticks P
  = (None, (pollAll (w0 :: ticks) P).1, (pollAll (w0 :: ticks) P).2).
Proof.
  intros Hid. unfold Run.
  destruct P as [p | p]; cbn [providerIdentifier] in Hid.
  - by destruct (String.eqb_spec (Hyperliquid.user p) "").
  - by destruct (String.eqb_spec (OKX.uniqueName p) "").
Qed.

Lemma Run_blank (w0 : World) (ticks : list World) (P : Provider) :
  providerIdentifier P = ""%string ->
  Run w0 ticks P = (Some (runError P), P, []).
Proof.
  intros Hid. unfold Run.
  destruct P as [p | p]; cbn [providerIdentifier] in Hid; by rewrite Hid.
Qed.

(** X28. The factory accepts a blank identifier; it is [Run] that
    refuses it, at once and before any request.  With any other
    identifier [Run] returns no error, whatever the polls returned, and
    the provider still carries the trimmed identifier. *)
Theorem Run_requires_identifier (cfg : Config) (P : Provider)
    (w0 : World) (ticks : list World) :
  NewProvider cfg = Ok P ->
  (TrimSpace (Identifier cfg) = ""%string ->
   Run w0 ticks P = (Some (runError P), P, []))
  /\ (TrimSpace (Identifier cfg) ≠ ""%string ->
      (Run w0 ticks P).1.1 = None
      /\ providerIdentifier (Run w0 ticks P).1.2
         = TrimSpace (Identifier cfg)).
Proof.
  intros [Hid _]%NewProvider_fresh. split; intros Hb.
  - apply Run_blank. by rewrite Hid.
  - rewrite Run_polls by (by rewrite Hid). cbn [fst snd].
    split; [done |]. by rewrite pollAll_identifier.
Qed.

Lemma Run_requires_identifier_witness :
  let cfg := {| Type_ := "okx"; Identifier := "   "; PollInterval := 0;
                HTTPClient := None |} in
  exists P, NewProvider cfg = Ok P
            /\ Run (quietWorld 1000 ∅ ∅) [quietWorld 1000 ∅ ∅] P
               = (Some "okx provider requires uniqueName"%string, P, []).
Proof.
  intros cfg. eexists. split; [reflexivity |].
  by apply (Run_requires_identifier cfg _ (quietWorld 1000 ∅ ∅)
              [quietWorld 1000 ∅ ∅] eq_refl).
Defined.

(** X29. A poll that fails leaves no trace in a run: the provider
    returned and the signals sent are those of the run without it. *)
Theorem Run_forgets_failed_poll (w0 w : World) (before after : list World)
    (P : Provider) :
  (fetchAndEmit w (Run w0 before P).1.2).1.1 ≠ None ->
  Run w0 (before ++ w :: after) P = Run w0 (before ++ after) P.
Proof.
  intros Hfail.
  destruct (decide (providerIdentifier P = ""%string)) as [Hid | Hid].
  { by rewrite !Run_blank. }
  rewrite Run_polls in Hfail by done. cbn [fst snd] in Hfail.
  rewrite !Run_polls by done.
  rewrite !app_comm_cons, !pollAll_app.
  set (Q := (pollAll (w0 :: before) P).1) in *.
  cbn [pollAll].
  destruct (fetchAndEmit w Q).1.1 as [msg |] eqn:He; [| done].
  by rewrite (cycle_error w Q msg He).
Qed.

Lemma Run_forgets_failed_poll_witness :
  let positions : gmap string PositionMeta :=
    {[ "BTCUSDT"%string := cross 2 10 ]} in
  let w := quietWorld 100000 positions ∅ in
  let P := okxLeader {[ "BTCUSDT"%string := 1 ]}
                     {[ "BTCUSDT"%string := 60000 ]} in
  Run w [downWorld; w] P = Run w [w] P.
Proof.
  intros positions w P.
  apply (Run_forgets_failed_poll w downWorld [] [w] P).
  vm_compute. discriminate.
Defined.

(** X30. A run of a provider fresh from the factory sends nothing until
    a poll has succeeded, and nothing in that poll either: however many
    polls fail first, the run up to and including the next poll is
    silent. *)
Theorem Run_silent_until_initialized (cfg : Config) (P : Provider)
    (w0 w : World) (ticks failed : list World) :
  NewProvider cfg = Ok P ->
  w0 :: ticks = failed ++ [w] ->
  Forall (fun w' => (fetchAndEmit w' P).1.1 ≠ None) failed ->
  (Run w0 ticks P).2 = [].
Proof.
  intros [Hid Hi]%NewProvider_fresh Hws Hfailed.
  destruct (decide (providerIdentifier P = ""%string)) as [Hb | Hb].
  { by rewrite Run_blank. }
  rewrite Run_polls by done. cbn [snd].
  rewrite Hws, pollAll_app, (pollAll_failed failed P Hfailed).
  cbn [fst snd pollAll app]. rewrite app_nil_r.
  by apply cycle_quiet_start.
Qed.

Lemma Run_silent_until_initialized_witness :
  let cfg := {| Type_ := "hyperliquid"; Identifier := " 0xleader ";
                PollInterval := 0; HTTPClient := None |} in
  let positions : gmap string PositionMeta :=
    {[ "BTC"%string := cross 2 10 ]} in
  let w := quietWorld 100000 positions {[ "BTCUSDT"%string := 60000 ]} in
  exists P, NewProvider cfg = Ok P /\ (Run downWorld [downWorld; w] P).2 = [].
Proof.
  intros cfg positions w. eexists. split; [reflexivity |].
  apply (Run_silent_until_initialized cfg _ downWorld w [downWorld; w]
           [downWorld; downWorld] eq_refl eq_refl).
  repeat constructor; vm_compute; discriminate.
Defined.

(** * The loops over floats with NaN and the infinities *)

(** ** Comparisons and differences of floats *)

Lemma float_eqb_refl (x : IEEE.float64) :
  x ≠ IEEE.NaN -> IEEE.eqb x x = true.
Proof.
  destruct x as [q | | |]; intros H; try done.
  cbn. apply Qeq_bool_iff. reflexivity.
Qed.

Lemma float_ltb_numbers (x y : IEEE.float64) :
  IEEE.ltb x y = true -> x ≠ IEEE.NaN /\ y ≠ IEEE.NaN.
Proof. by destruct x, y. Qed.

(** [0 - x == -x] and [x - 0 == x], unless [x] is NaN. *)
Lemma float_sub_zero_l (x : IEEE.float64) :
  x ≠ IEEE.NaN -> IEEE.eqb (IEEE.sub IEEE.zero x) (IEEE.neg x) = true.
Proof.
  destruct x as [q | | |]; intros H; try done.
  cbn. apply Qeq_bool_iff. ring.
Qed.

Lemma float_sub_zero_r (x : IEEE.float64) :
  x ≠ IEEE.NaN -> IEEE.eqb (IEEE.sub x IEEE.zero) x = true.
Proof.
  destruct x as [q | | |]; intros H; try done.
  cbn. apply Qeq_bool_iff. ring.
Qed.

Lemma float_neg_of_pos (x : IEEE.float64) :
  IEEE.ltb IEEE.zero x = true -> IEEE.ltb (IEEE.neg x) IEEE.zero = true.
Proof.
  destruct x as [q | | |]; try done.
  cbn. rewrite !Qlt_bool_iff. lra.
Qed.

Lemma float_neg_of_neg (x : IEEE.float64) :
  IEEE.ltb x IEEE.zero = true -> IEEE.ltb IEEE.zero (IEEE.neg x) = true.
Proof.
  destruct x as [q | | |]; try done.
  cbn. rewrite !Qlt_bool_iff. lra.
Qed.

(** A float that is a number or infinite, is not zero and is not below
    zero, is above zero. *)
Lemma float_pos_or_neg (x : IEEE.float64) :
  x ≠ IEEE.NaN -> IEEE.eqb x IEEE.zero = false ->
  IEEE.ltb x IEEE.zero = false -> IEEE.ltb IEEE.zero x = true.
Proof.
  destruct x as [q | | |]; intros H; try done.
  cbn. rewrite Qeq_bool_false, Qlt_bool_false, Qlt_bool_iff.
  intros Hne Hge. destruct (Qlt_le_dec 0 q) as [Hlt | Hle]; [done |].
  exfalso. apply Hne. lra.
Qed.

(** The difference of two floats in order has the sign of the order, and
    is no NaN. *)
Lemma float_sub_pos (a b : IEEE.float64) :
  IEEE.ltb a b = true -> IEEE.ltb IEEE.zero (IEEE.sub b a) = true.
Proof.
  destruct a as [p | | |], b as [q | | |]; try done.
  cbn. rewrite !Qlt_bool_iff. lra.
Qed.

Lemma float_sub_neg (a b : IEEE.float64) :
  IEEE.ltb b a = true -> IEEE.ltb (IEEE.sub b a) IEEE.zero = true.
Proof.
  destruct a as [p | | |], b as [q | | |]; try done.
  cbn. rewrite !Qlt_bool_iff. lra.
Qed.

(** ** One iteration *)

Section FloatSteps.
Variable w : World.
Variable conv : string -> string.
Variable sp : IEEE.float64 -> IEEE.float64.
Variable equity : IEEE.float64.

#[local] Set Default Proof Using "Type".

(** An action comes with the order of the two sizes. *)
Lemma float_derive_cases (prev curr : IEEE.float64) (a : SignalAction) :
  IEEE.deriveActionFromDelta prev curr = Some a ->
  (IEEE.ltb prev curr = true
   /\ (a = ActionAddLong \/ a = ActionReduceShort))
  \/ (IEEE.ltb curr prev = true
      /\ (a = ActionAddShort \/ a = ActionReduceLong)).
Proof.
  unfold IEEE.deriveActionFromDelta.
  destruct (IEEE.eqb _ _); [done |].
  destruct (IEEE.ltb prev curr) eqn:H1.
  { destruct (IEEE.ltb IEEE.zero curr); intros [= <-]; left; auto. }
  destruct (IEEE.ltb curr prev) eqn:H2; [| done].
  destruct (IEEE.ltb curr IEEE.zero); intros [= <-]; right; auto.
Qed.

(** The signals of the first loop are consistent, whatever the sizes,
    and none has a NaN for [leader_pos_before]: where a NaN is involved
    the first loop sends nothing. *)
Lemma float_diffStep_consistent st e :
  Forall (fun s => IEEE.consistent s /\ IEEE.LeaderPosBefore s ≠ IEEE.NaN)
         (IEEE.diffStep w conv equity st e).2.
Proof.
  unfold IEEE.diffStep.
  set (prev := IEEE.at0 (IEEE.snap st) e.1).
  destruct (IEEE.eqb _ _); [constructor |].
  destruct (IEEE.leb _ _); [constructor |].
  destruct (IEEE.ltb IEEE.zero prev && IEEE.ltb (IEEE.Size e.2) IEEE.zero)
    eqn:F1.
  { apply andb_true_iff in F1 as [Hp Hs].
    destruct (float_ltb_numbers _ _ Hp) as [_ Hpn].
    destruct (float_ltb_numbers _ _ Hs) as [Hsn _].
    repeat apply Forall_cons_2; [| | constructor];
      (split; [split |]); cbn; try done.
    - by apply float_sub_zero_l.
    - by apply float_neg_of_pos.
    - by apply float_sub_zero_r. }
  destruct (IEEE.ltb prev IEEE.zero && IEEE.ltb IEEE.zero (IEEE.Size e.2))
    eqn:F2.
  { apply andb_true_iff in F2 as [Hp Hs].
    destruct (float_ltb_numbers _ _ Hp) as [Hpn _].
    destruct (float_ltb_numbers _ _ Hs) as [_ Hsn].
    repeat apply Forall_cons_2; [| | constructor];
      (split; [split |]); cbn; try done.
    - by apply float_sub_zero_l.
    - by apply float_neg_of_neg.
    - by apply float_sub_zero_r. }
  destruct (IEEE.deriveActionFromDelta prev (IEEE.Size e.2)) as [a |] eqn:Ha;
    [| constructor].
  apply Forall_cons_2; [| constructor].
  split; [split |]; cbn.
  - apply float_eqb_refl.
    destruct (float_derive_cases _ _ _ Ha) as [[H _] | [H _]].
    + apply float_sub_pos in H. by destruct (float_ltb_numbers _ _ H).
    + apply float_sub_neg in H. by destruct (float_ltb_numbers _ _ H).
  - unfold IEEE.signAgrees. cbn.
    destruct (float_derive_cases _ _ _ Ha) as [[H [-> | ->]] | [H [-> | ->]]];
      by (apply float_sub_pos || apply float_sub_neg).
  - destruct (float_derive_cases _ _ _ Ha) as [[H _] | [H _]];
      by destruct (float_ltb_numbers _ _ H).
Qed.

(** The close of a position that is gone is consistent unless the
    snapshot held a NaN for it; it is then a close_long with a NaN for
    [delta_size]. *)
Lemma float_sweepStep_consistent positions st e :
  Forall (fun s =>
            (IEEE.LeaderPosBefore s ≠ IEEE.NaN -> IEEE.consistent s)
            /\ (IEEE.LeaderPosBefore s = IEEE.NaN ->
                IEEE.Action s = ActionCloseLong
                /\ IEEE.DeltaSize s = IEEE.NaN
                /\ IEEE.LeaderPosAfter s = IEEE.zero
                /\ IEEE.LeaderLeverage s = 0%Z
                /\ IEEE.MarginMode s = ""%string
                /\ ~ IEEE.consistent s))
         (IEEE.sweepStep w conv sp equity positions st e).2.
Proof.
  unfold IEEE.sweepStep.
  destruct (positions !! e.1); [constructor |].
  destruct (IEEE.eqb e.2 IEEE.zero) eqn:H0; [constructor |].
  destruct (IEEE.leb _ _); [constructor |].
  apply Forall_cons. split; [| constructor].
  cbn [IEEE.LeaderPosBefore IEEE.Action IEEE.DeltaSize IEEE.LeaderPosAfter
       IEEE.LeaderLeverage IEEE.MarginMode].
  split.
  - intros Hn. split.
    + cbn [IEEE.LeaderPosAfter IEEE.LeaderPosBefore IEEE.DeltaSize].
      by apply float_sub_zero_l.
    + unfold IEEE.signAgrees. cbn [IEEE.Action IEEE.DeltaSize].
      destruct (IEEE.ltb e.2 IEEE.zero) eqn:Hlt.
      * by apply float_neg_of_neg.
      * apply float_neg_of_pos. by apply float_pos_or_neg.
  - intros ->. repeat split; try done.
    intros [H _]. by cbn in H.
Qed.

Lemma float_runLoop_Forall {A} (step : IEEE.Ledger -> A -> IEEE.Ledger * list IEEE.Signal)
    (R : IEEE.Signal -> Prop) l st :
  (forall st x, Forall R (step st x).2) ->
  Forall R (IEEE.runLoop step st l).2.
Proof.
  intros Hstep. revert st.
  induction l as [| x l IH]; intros st; [constructor |].
  cbn [IEEE.runLoop snd]. apply Forall_app. split; [apply Hstep | apply IH].
Qed.
End FloatSteps.

(** ** Prices over floats

    The cache is only ever written with a price that is above zero (by
    the fills and by the fallback), so it holds no NaN; the price found
    for a signal is then above zero as well, and so is the price field,
    but for the OKX close of a position that is gone. *)

Lemma float_above_zero (x : IEEE.float64) :
  x ≠ IEEE.NaN -> IEEE.leb x IEEE.zero = false ->
  IEEE.ltb IEEE.zero x = true.
Proof.
  destruct x as [q | | |]; intros H; try done.
  cbn. rewrite Qle_bool_false. apply Qlt_bool_iff.
Qed.

Lemma float_resolvePrice_number w k (c : gmap string IEEE.float64) :
  map_Forall (fun _ p => p ≠ IEEE.NaN) c ->
  (IEEE.resolvePrice w k c).1 ≠ IEEE.NaN
  /\ map_Forall (fun _ p => p ≠ IEEE.NaN) (IEEE.resolvePrice w k c).2.
Proof.
  intros Hc.
  assert (Hk : IEEE.at0 c k ≠ IEEE.NaN).
  { unfold IEEE.at0. destruct (c !! k) as [p |] eqn:E; [| done].
    exact (Hc k p E). }
  unfold IEEE.resolvePrice.
  destruct (IEEE.leb _ _); [| done].
  destruct (market_Get w k) as [md |]; [| done].
  destruct (Qlt_bool 0 (CurrentPrice md)); [| done].
  cbn [fst snd]. split; [done |]. by apply map_Forall_insert_2.
Qed.

Section FloatPrices.
Variable w : World.
Variable conv : string -> string.
Variable sp : IEEE.float64 -> IEEE.float64.
Variable equity : IEEE.float64.

#[local] Set Default Proof Using "Type".

Lemma float_diffStep_price st e :
  map_Forall (fun _ p => p ≠ IEEE.NaN) (IEEE.cache st) ->
  map_Forall (fun _ p => p ≠ IEEE.NaN)
             (IEEE.cache (IEEE.diffStep w conv equity st e).1)
  /\ Forall (fun s => IEEE.ltb IEEE.zero (IEEE.Price s) = true)
            (IEEE.diffStep w conv equity st e).2.
Proof.
  intros Hc. unfold IEEE.diffStep.
  destruct (IEEE.eqb _ _); [by split |].
  destruct (float_resolvePrice_number w (conv e.1) _ Hc) as [Hp Hc'].
  destruct (IEEE.leb _ _) eqn:Hle; [by split |].
  pose proof (float_above_zero _ Hp Hle) as Hpos.
  destruct (_ && _); [split; [done | by repeat constructor] |].
  destruct (_ && _); [split; [done | by repeat constructor] |].
  destruct (IEEE.deriveActionFromDelta _ _);
    split; try done; by repeat constructor.
Qed.

Lemma float_sweepStep_price positions st e :
  map_Forall (fun _ p => p ≠ IEEE.NaN) (IEEE.cache st) ->
  map_Forall (fun _ p => p ≠ IEEE.NaN)
             (IEEE.cache (IEEE.sweepStep w conv sp equity positions st e).1)
  /\ Forall (fun s => exists price,
               IEEE.ltb IEEE.zero price = true
               /\ IEEE.Price s = sp price
               /\ IEEE.LeaderLeverage s = 0%Z
               /\ IEEE.MarginMode s = ""%string)
            (IEEE.sweepStep w conv sp equity positions st e).2.
Proof.
  intros Hc. unfold IEEE.sweepStep.
  destruct (positions !! e.1); [by split |].
  destruct (IEEE.eqb _ _); [by split |].
  destruct (float_resolvePrice_number w (conv e.1) _ Hc) as [Hp Hc'].
  destruct (IEEE.leb _ _) eqn:Hle; [by split |].
  pose proof (float_above_zero _ Hp Hle) as Hpos.
  split; [done |]. repeat constructor. by eexists.
Qed.

Lemma float_runLoop_invariant {A}
    (step : IEEE.Ledger -> A -> IEEE.Ledger * list IEEE.Signal)
    (I : IEEE.Ledger -> Prop) (R : IEEE.Signal -> Prop) l st :
  (forall st x, I st -> I (step st x).1 /\ Forall R (step st x).2) ->
  I st ->
  I (IEEE.runLoop step st l).1 /\ Forall R (IEEE.runLoop step st l).2.
Proof.
  intros Hstep. revert st.
  induction l as [| x l IH]; intros st Hst; [by split |].
  cbn [IEEE.runLoop fst snd].
  destruct (Hstep st x Hst) as [H1 HR1].
  destruct (IH _ H1) as [H2 HR2].
  split; [done |]. apply Forall_app. by split.
Qed.

(** The price field of every signal the two loops send is above zero,
    or it is what the close of a vanished position makes of a price
    above zero (the price itself on Hyperliquid, zero on OKX). *)
Lemma float_signal_prices_positive (r : IEEE.Ranging)
    (positions : gmap string IEEE.PositionMeta) (st : IEEE.Ledger) :
  map_Forall (fun _ p => p ≠ IEEE.NaN) (IEEE.cache st) ->
  Forall (fun s =>
            IEEE.ltb IEEE.zero (IEEE.Price s) = true
            \/ exists price,
                 IEEE.ltb IEEE.zero price = true
                 /\ IEEE.Price s = sp price
                 /\ IEEE.LeaderLeverage s = 0%Z
                 /\ IEEE.MarginMode s = ""%string)
         (IEEE.diffPositions w r conv sp equity positions st).2.
Proof.
  intros Hc. unfold IEEE.diffPositions. cbn [snd].
  destruct (float_runLoop_invariant (IEEE.diffStep w conv equity)
              (fun st => map_Forall (fun _ p => p ≠ IEEE.NaN)
                                    (IEEE.cache st))
              (fun s => IEEE.ltb IEEE.zero (IEEE.Price s) = true)
              (IEEE.range_positions r positions) st)
    as [Hc1 H1]; [intros; by apply float_diffStep_price | done |].
  apply Forall_app. split.
  - eapply Forall_impl; [exact H1 |]. auto.
  - refine (proj2 (float_runLoop_invariant
                     (IEEE.sweepStep w conv sp equity positions)
                     (fun st => map_Forall (fun _ p => p ≠ IEEE.NaN)
                                           (IEEE.cache st))
                     _ _ _ _ Hc1)).
    intros st' x Hst'.
    destruct (float_sweepStep_price positions st' x Hst') as [? HF].
    split; [done |]. eapply Forall_impl; [exact HF |]. auto.
Qed.
End FloatPrices.

(** ** The loops over floats and the loops over rationals

    On sizes, prices and an equity that are numbers the two translations
    of the loops do the same, iteration by iteration. *)

Lemma float_at0 (m : gmap string Q) (k : string) :
  IEEE.at0 (IEEE.Num <$> m) k = IEEE.Num (at0 m k).
Proof. unfold IEEE.at0, at0. rewrite lookup_fmap. by destruct (m !! k). Qed.

Lemma float_resolvePrice w k (c : gmap string Q) :
  IEEE.resolvePrice w k (IEEE.Num <$> c)
  = (IEEE.Num (resolvePrice w k c).1, IEEE.Num <$> (resolvePrice w k c).2).
Proof.
  unfold IEEE.resolvePrice, resolvePrice. rewrite float_at0. cbn [IEEE.leb IEEE.zero].
  destruct (Qle_bool (at0 c k) 0); [| done].
  destruct (market_Get w k) as [md |]; [| done].
  destruct (Qlt_bool 0 (CurrentPrice md)); [| done].
  cbn [fst snd]. by rewrite fmap_insert.
Qed.

Lemma float_deriveActionFromDelta (prev curr : Q) :
  IEEE.deriveActionFromDelta (IEEE.Num prev) (IEEE.Num curr)
  = deriveActionFromDelta prev curr.
Proof. reflexivity. Qed.

Lemma float_diffStep w conv equity st (k : string) (meta : PositionMeta) :
  IEEE.diffStep w conv (IEEE.Num equity) (floatLedger st) (k, floatMeta meta)
  = (floatLedger (diffStep w conv equity st (k, meta)).1,
     floatSignal <$> (diffStep w conv equity st (k, meta)).2).
Proof.
  unfold IEEE.diffStep, diffStep.
  cbn [fst snd floatLedger floatMeta IEEE.snap IEEE.cache IEEE.calls
       IEEE.Size IEEE.Leverage IEEE.PosMarginMode].
  rewrite float_at0, float_resolvePrice. cbn [fst snd IEEE.sub IEEE.eqb IEEE.zero IEEE.leb IEEE.ltb].
  destruct (Qeq_bool _ _); [done |].
  destruct (Qle_bool _ _); [done |].
  destruct (_ && _); [by rewrite <- fmap_insert |].
  destruct (_ && _); [by rewrite <- fmap_insert |].
  rewrite float_deriveActionFromDelta.
  destruct (deriveActionFromDelta _ _); by rewrite <- fmap_insert.
Qed.

Lemma float_sweepStep w conv (sp : Q -> Q) (spF : IEEE.float64 -> IEEE.float64)
    equity (positions : gmap string PositionMeta) st (k : string) (prev : Q) :
  (forall x, spF (IEEE.Num x) = IEEE.Num (sp x)) ->
  IEEE.sweepStep w conv spF (IEEE.Num equity) (floatMeta <$> positions)
    (floatLedger st) (k, IEEE.Num prev)
  = (floatLedger (sweepStep w conv sp equity positions st (k, prev)).1,
     floatSignal <$> (sweepStep w conv sp equity positions st (k, prev)).2).
Proof.
  intros Hsp. unfold IEEE.sweepStep, sweepStep.
  cbn [fst snd floatLedger IEEE.snap IEEE.cache IEEE.calls].
  rewrite lookup_fmap. destruct (positions !! k); [done |]. cbn [fmap option_fmap option_map].
  rewrite float_resolvePrice. cbn [fst snd IEEE.eqb IEEE.zero IEEE.leb IEEE.ltb].
  destruct (Qeq_bool prev 0); [by rewrite <- fmap_delete |].
  destruct (Qle_bool _ _); [by rewrite <- fmap_delete |].
  rewrite <- fmap_delete. cbn. rewrite Hsp.
  by destruct (Qlt_bool prev 0).
Qed.

Lemma float_runLoop {A B} (stepF : IEEE.Ledger -> B -> IEEE.Ledger * list IEEE.Signal)
    (step : Ledger -> A -> Ledger * list Signal) (f : A -> B) l st :
  (forall st x, stepF (floatLedger st) (f x)
                = (floatLedger (step st x).1, floatSignal <$> (step st x).2)) ->
  IEEE.runLoop stepF (floatLedger st) (f <$> l)
  = (floatLedger (runLoop step st l).1, floatSignal <$> (runLoop step st l).2).
Proof.
  intros Hstep. revert st. induction l as [| x l IH]; intros st; [done |].
  cbn [fmap list_fmap IEEE.runLoop runLoop fst snd].
  change (list_fmap A B f l) with (f <$> l).
  rewrite Hstep. cbn [fst snd]. rewrite IH. cbn [fst snd].
  by rewrite fmap_app.
Qed.

(** The two loops together, when the maps are ranged over in the same
    order. *)
Lemma float_diffPositions w (r : IEEE.Ranging) conv (sp : Q -> Q)
    (spF : IEEE.float64 -> IEEE.float64) equity
    (positions : gmap string PositionMeta) st :
  (forall x, spF (IEEE.Num x) = IEEE.Num (sp x)) ->
  IEEE.range_positions r (floatMeta <$> positions)
  = prod_map id floatMeta <$> range_positions w positions ->
  (forall m, IEEE.range_snapshot r (IEEE.Num <$> m)
             = prod_map id IEEE.Num <$> range_snapshot w m) ->
  IEEE.diffPositions w r conv spF (IEEE.Num equity) (floatMeta <$> positions)
    (floatLedger st)
  = (floatLedger (diffPositions w conv sp equity positions st).1,
     floatSignal <$> (diffPositions w conv sp equity positions st).2).
Proof.
  intros Hsp Hrp Hrs. unfold IEEE.diffPositions, diffPositions.
  rewrite Hrp.
  rewrite (float_runLoop _ (diffStep w conv equity))
    by (intros st' [k meta]; apply float_diffStep).
  cbn [fst snd floatLedger IEEE.snap]. rewrite Hrs.
  change {| IEEE.snap := IEEE.Num <$> snap ?s; IEEE.cache := IEEE.Num <$> cache ?s;
            IEEE.calls := calls ?s |} with (floatLedger s).
  rewrite (float_runLoop _ (sweepStep w conv sp equity positions))
    by (intros st' [k prev]; by apply float_sweepStep).
  cbn [fst snd]. by rewrite fmap_app.
Qed.

(** ** Consistency of the signals, NaN included *)

(** C1, as the code has it. Every signal the two loops send, whatever the
    sizes fetched and held (numbers, infinities or NaN), has
    [leader_pos_after - leader_pos_before == delta_size] and a
    [delta_size] whose sign is that of its action, unless its
    [leader_pos_before] is NaN.  A signal with a NaN there is the
    close_long sent for a position that is gone and for which the snapshot
    held a NaN; its [delta_size] is NaN too, and the two relations fail
    for it.  (The first loop sends nothing where a NaN is involved.) *)
Theorem signals_consistent_unless_nan (w : World) (r : IEEE.Ranging)
    (conv : string -> string) (sweepPrice : IEEE.float64 -> IEEE.float64)
    (equity : IEEE.float64) (positions : gmap string IEEE.PositionMeta)
    (st : IEEE.Ledger) :
  Forall (fun s =>
            (IEEE.LeaderPosBefore s ≠ IEEE.NaN -> IEEE.consistent s)
            /\ (IEEE.LeaderPosBefore s = IEEE.NaN ->
                IEEE.Action s = ActionCloseLong
                /\ IEEE.DeltaSize s = IEEE.NaN
                /\ IEEE.LeaderPosAfter s = IEEE.zero
                /\ IEEE.LeaderLeverage s = 0%Z
                /\ IEEE.MarginMode s = ""%string
                /\ ~ IEEE.consistent s))
         (IEEE.diffPositions w r conv sweepPrice equity positions st).2.
Proof.
  unfold IEEE.diffPositions. cbn [snd]. apply Forall_app. split.
  - apply float_runLoop_Forall. intros st' e.
    eapply Forall_impl; [apply float_diffStep_consistent |].
    intros s [Hc Hn]. by split.
  - apply float_runLoop_Forall. intros st' e.
    apply float_sweepStep_consistent.
Qed.

Lemma signals_consistent_unless_nan_witness :
  let w := quietWorld 100000 ∅ {[ "BTCUSDT"%string := 60000 ]} in
  let fetched : gmap string IEEE.PositionMeta :=
    {[ "BTC"%string := {| IEEE.Size := IEEE.NInf; IEEE.Leverage := 10;
                          IEEE.PosMarginMode := "cross" |} ]} in
  let st := {| IEEE.snap := {[ "BTC"%string := IEEE.Num 2 ]};
               IEEE.cache := ∅; IEEE.calls := 0 |} in
  let out := (IEEE.diffPositions w IEEE.listed convertHyperliquidSymbol
                (fun x => x) (IEEE.Num 100000) fetched st).2 in
  length out = 2%nat /\ Forall IEEE.consistent out.
Proof.
  intros w fetched st out. split; [by vm_compute |].
  pose proof (signals_consistent_unless_nan w IEEE.listed
                convertHyperliquidSymbol (fun x => x) (IEEE.Num 100000)
                fetched st) as Hall.
  fold out in Hall.
  assert (Hnum : Forall (fun s => IEEE.LeaderPosBefore s ≠ IEEE.NaN) out)
    by (vm_compute; by repeat constructor).
  rewrite Forall_forall in Hall, Hnum. apply Forall_forall.
  intros s Hs. by apply (Hall s Hs), Hnum.
Defined.

(** C1 as the specification words it fails when a NaN has come into the
    snapshot.  The first cycle copies the fetched size, which is NaN when
    the venue's text for it is [NaN]; once the position is no longer
    fetched, [prev == 0] is false and the second loop sends a close_long
    whose [delta_size], [leader_pos_before] and notional are NaN, so that
    neither [after - before == delta] nor [delta < 0] holds. *)
Lemma nan_close_counterexample :
  let w := quietWorld 100000 ∅ {[ "BTCUSDT"%string := 60000 ]} in
  let fetched : gmap string IEEE.PositionMeta :=
    {[ "BTC"%string := {| IEEE.Size := IEEE.NaN; IEEE.Leverage := 10;
                          IEEE.PosMarginMode := "cross" |} ]} in
  let first := IEEE.initSnapshot IEEE.listed fetched ∅ in
  let st := {| IEEE.snap := first; IEEE.cache := ∅; IEEE.calls := 0 |} in
  let out := (IEEE.diffPositions w IEEE.listed convertHyperliquidSymbol
                (fun x => x) (IEEE.Num 100000) ∅ st).2 in
  first !! "BTC"%string = Some IEEE.NaN
  /\ exists s,
       out = [s]
       /\ IEEE.Action s = ActionCloseLong
       /\ IEEE.LeaderPosBefore s = IEEE.NaN
       /\ IEEE.LeaderPosAfter s = IEEE.zero
       /\ IEEE.DeltaSize s = IEEE.NaN
       /\ IEEE.NotionalUSD s = IEEE.NaN
       /\ IEEE.eqb (IEEE.sub (IEEE.LeaderPosAfter s) (IEEE.LeaderPosBefore s))
                   (IEEE.DeltaSize s) = false
       /\ IEEE.ltb (IEEE.DeltaSize s) IEEE.zero = false
       /\ ~ IEEE.consistent s.
Proof.
  intros w fetched first st out.
  split; [by vm_compute |].
  assert (Hout : out = [ {| IEEE.Symbol := "BTCUSDT";
                            IEEE.Action := ActionCloseLong;
                            IEEE.NotionalUSD := IEEE.NaN;
                            IEEE.Price := IEEE.Num 60000;
                            IEEE.LeaderEquity := IEEE.Num 100000;
                            IEEE.LeaderLeverage := 0%Z;
                            IEEE.MarginMode := "";
                            IEEE.Timestamp := 0%Z;
                            IEEE.DeltaSize := IEEE.NaN;
                            IEEE.LeaderPosBefore := IEEE.NaN;
                            IEEE.LeaderPosAfter := IEEE.zero |} ])
    by (by vm_compute).
  eexists. split; [exact Hout |].
  repeat split; try reflexivity.
  intros [H _]. discriminate H.
Qed.

(** ** A size that is NaN in the first loop *)

(** C4 as the specification words it fails for a size that is NaN.  The
    fetched size differs from the one held ([new == prev] is false, and so
    is [delta == 0]), it is no flip and a price resolves; but neither
    [new > prev] nor [new < prev] holds, [deriveActionFromDelta] returns
    no action, and the loop sends nothing and writes the NaN into the
    snapshot. *)
Lemma nan_size_sends_nothing :
  let w := quietWorld 100000 ∅ {[ "BTCUSDT"%string := 60000 ]} in
  let meta := {| IEEE.Size := IEEE.NaN; IEEE.Leverage := 10;
                 IEEE.PosMarginMode := "cross" |} in
  let fetched : gmap string IEEE.PositionMeta := {[ "BTC"%string := meta ]} in
  let st := {| IEEE.snap := {[ "BTC"%string := IEEE.Num 1 ]};
               IEEE.cache := ∅; IEEE.calls := 0 |} in
  let r := IEEE.diffPositions w IEEE.listed convertHyperliquidSymbol
             (fun x => x) (IEEE.Num 100000) fetched st in
  IEEE.eqb (IEEE.Size meta) (IEEE.at0 (IEEE.snap st) "BTC") = false
  /\ market_Get w "BTCUSDT" = Ok {| CurrentPrice := 60000 |}
  /\ IEEE.deriveActionFromDelta (IEEE.at0 (IEEE.snap st) "BTC")
       (IEEE.Size meta) = None
  /\ r.2 = []
  /\ IEEE.snap r.1 !! "BTC"%string = Some IEEE.NaN.
Proof. intros w meta fetched st r. by vm_compute. Qed.
